(** * SafeAudioEngine (src/audioEngine.ts): a shallow embedding

    The engine is a TypeScript class driving the Web Audio API.  Its numbers
    are IEEE-754 binary64 values, modelled here by Rocq's primitive floats
    (same format, same rounding); its audio nodes are mutable objects shared
    by reference, modelled by a store of nodes addressed by index; timers,
    the audio clock and [Math.random] are the environment, carried in the
    same state record. *)

From Stdlib Require Import ZArith Bool Floats.
From stdpp Require Import gmap strings list.

Set Warnings "-inexact-float".
Set Default Proof Using "Type".

(** ** JavaScript numbers *)

Module JS.

Local Open Scope float_scope.

(** [Math.max(x, y)]: NaN if either argument is NaN; [+0] counts as larger
    than [-0]. *)
Definition Math_max (x y : float) : float :=
  if is_nan x || is_nan y then nan
  else if x <? y then y
  else if y <? x then x
  else match classify x with PZero => x | _ => y end.

(** [Math.min(x, y)]: NaN if either argument is NaN; [-0] counts as smaller
    than [+0]. *)
Definition Math_min (x y : float) : float :=
  if is_nan x || is_nan y then nan
  else if x <? y then x
  else if y <? x then y
  else match classify x with NZero => x | _ => y end.

(** [Math.floor] of a finite number, as the integer it denotes.  [None] for
    NaN and the infinities. *)
Definition Math_floor (x : float) : option Z :=
  match Prim2SF x with
  | S754_zero _ => Some 0%Z
  | S754_finite s m e =>
      let n := cond_Zopp s (Zpos m) in
      Some (if (0 <=? e)%Z then (n * 2 ^ e)%Z else (n / 2 ^ (- e))%Z)
  | _ => None
  end.

(** The conversion a [Float32Array] applies to a stored number: round to
    the nearest binary32 value, ties to even. *)
Definition Math_fround (x : float) : float :=
  match Prim2SF x with
  | S754_finite s m e => SF2Prim (binary_round 24 128 s m e)
  | _ => x
  end.

(** The delay of [setTimeout]/[setInterval] is a WebIDL [long]: the number
    is truncated towards zero and wrapped to 32 bits; NaN and the
    infinities give 0. *)
Definition ToInt32 (x : float) : Z :=
  match Prim2SF x with
  | S754_finite s m e =>
      let t := if (0 <=? e)%Z then (Zpos m * 2 ^ e)%Z else (Zpos m / 2 ^ (- e))%Z in
      let w := (cond_Zopp s t mod 2 ^ 32)%Z in
      if (w <? 2 ^ 31)%Z then w else (w - 2 ^ 32)%Z
  | _ => 0%Z
  end.

(** [x > c] is false: the reading of "never above c" that also covers NaN. *)
Definition not_above (c x : float) : Prop := (c <? x) = false.

(** [x < c] is false. *)
Definition not_below (c x : float) : Prop := (x <? c) = false.

(** [lo <= x <= hi], which no NaN satisfies. *)
Definition within (lo hi x : float) : Prop :=
  (lo <=? x) = true /\ (x <=? hi) = true.

End JS.

Export JS.

(** ** Safety constants and helpers (audioEngine.ts, lines 27-52) *)

Definition MAX_SAFE_GAIN : float := 0.45.
Definition FADE_IN_SEC : float := 0.35.
Definition FADE_OUT_SEC : float := 0.12.
Definition MIN_FREQ : float := 20.
Definition MAX_FREQ : float := 20000.

(** The string-literal union types of the source: [OscillatorType] and the
    noise colours ['white' | 'pink' | 'brown']. *)
Inductive OscillatorType := sine | square | sawtooth | triangle | custom.
Inductive NoiseColor := white | pink | brown.

Definition wave_name (w : OscillatorType) : string :=
  match w with
  | sine => "sine" | square => "square" | sawtooth => "sawtooth"
  | triangle => "triangle" | custom => "custom"
  end.

Definition color_name (c : NoiseColor) : string :=
  match c with white => "white" | pink => "pink" | brown => "brown" end.

(** Per-waveform attenuation so perceived loudness is roughly equal. *)
Definition GAIN_SCALAR : gmap string float :=
  list_to_map
    [ ("sine", 1.0%float); ("square", 0.15%float); ("sawtooth", 0.2%float);
      ("triangle", 0.5%float); ("white", 0.15%float); ("pink", 0.5%float);
      ("brown", 1.0%float) ].

Definition clampFreq (f : float) : float :=
  Math_max MIN_FREQ (Math_min f MAX_FREQ).

Definition clampGain (v : float) : float :=
  Math_max 0 (Math_min v MAX_SAFE_GAIN).

(** ** The Web Audio objects the engine builds *)

(** What the engine asks of an [AudioParam]: it sets [value] directly, or
    schedules one of three automation events.  The parameter keeps them in
    the order they were scheduled. *)
Inductive automation :=
| SetValueAtTime (v t : float)
| ExponentialRampToValueAtTime (v t : float)
| SetTargetAtTime (target t timeConstant : float).

Record AudioParam := { value : float; events : list automation }.

Definition param (v : float) : AudioParam := {| value := v; events := [] |}.

Definition schedule (a : automation) (p : AudioParam) : AudioParam :=
  {| value := value p; events := events p ++ [a] |}.

(** The number an automation event drives the parameter to. *)
Definition target_of (a : automation) : float :=
  match a with
  | SetValueAtTime v _ => v
  | ExponentialRampToValueAtTime v _ => v
  | SetTargetAtTime v _ _ => v
  end.

(** Every number programmed into a parameter: its [value], then the targets
    of its events. *)
Definition programmed (p : AudioParam) : list float :=
  value p :: map target_of (events p).

Inductive playback := Unscheduled | Started | Stopped.
Inductive BiquadFilterType := lowpass | bandpass | notch.

Inductive AudioNode :=
| OscillatorNode (type : OscillatorType) (frequency : AudioParam) (state : playback)
| AudioBufferSourceNode (buffer : option nat) (loop : bool) (state : playback)
| GainNode (gain : AudioParam)
| BiquadFilterNode (type : BiquadFilterType) (frequency Q : AudioParam)
| ChannelMergerNode (numberOfInputs : nat).

(** Ends of a connection.  The master chain is held in fields of the engine
    and never enters [sources] or [nodes]; [Gain_of n] is the [gain]
    parameter of node [n], a legal destination of [connect]. *)
Inductive endpoint :=
| Node (n : nat) | Gain_of (n : nat)
| MasterGain | Limiter | Analyser | Destination.

Record connection :=
  { from : endpoint; output : nat; to : endpoint; input : nat }.

Record DynamicsCompressorNode :=
  { threshold : float; knee : float; ratio : float;
    attack : float; release : float }.

Record AnalyserNode := { fftSize : nat }.

Record AudioContext := { sampleRate : nat; suspended : bool; closed : bool }.

Abbreviation Float32Array := (list float).

(** The callbacks the engine hands to [setTimeout] and [setInterval].  A
    closure carries the variables it captured: [step] captures the array
    [gains] and the mutable [cur]. *)
Inductive callback :=
| StopTimeout                                   (* cleanup(); resolve() *)
| SequencerStep (gains : list nat) (cur : Z)    (* step *)
| RiTimeout                                     (* await stop(); onFinish?.() *)
| DestroyTimeout.                               (* close and drop the chain *)

Record timer := { due : Z; interval : option Z; handler : callback }.

(** What [stop()] returns: a promise already resolved, or one that the
    callback of the given timer resolves. *)
Inductive promise := Resolved | ResolvedBy (timer_id : nat).

(** A call that can throw or loop. *)
Inductive outcome (A : Type) :=
| Done (a : A)
| TypeError
| OutOfFuel.
Arguments Done {A} a.
Arguments TypeError {A}.
Arguments OutOfFuel {A}.

(** ** The engine and its environment *)

Record engine : Type := Engine {
  ctx : option AudioContext;  (* [private ctx: AudioContext | null] *)
  masterGain : option AudioParam;  (* the [gain] parameter of the master [GainNode] *)
  limiter : option DynamicsCompressorNode;
  analyser : option AnalyserNode;
  sources : list nat;  (* live source nodes, by reference *)
  nodes : list nat;  (* intermediate nodes, by reference *)
  noiseCache : gmap string nat;  (* colour name to [AudioBuffer] reference *)
  sequencerTimer : option nat;
  riTimeout : option nat;
  _vol : float;
  _playing : bool;
  graph : list AudioNode;  (* the node store: every node created so far; a reference is an index *)
  wires : list connection;  (* the connections made by [connect] *)
  buffers : list Float32Array;  (* the [AudioBuffer] store (one channel each) *)
  timers : gmap nat timer;  (* pending [window] timers, by id *)
  timer_seq : nat;  (* the next timer id *)
  now : Z;  (* the event loop's clock, in ms *)
  currentTime : float;  (* the audio clock read as [ctx.currentTime], in s *)
  random : nat -> float;  (* the values [Math.random] returns, in order *)
  drawn : nat;  (* how many of them were consumed *)
  device : AudioContext  (* what [new AudioContext()] yields on this machine *)
}.

Definition set_ctx (x : option AudioContext) (e : engine) : engine :=
  Engine x (masterGain e) (limiter e) (analyser e) (sources e) (nodes e)
    (noiseCache e) (sequencerTimer e) (riTimeout e) (_vol e) (_playing e)
    (graph e) (wires e) (buffers e) (timers e) (timer_seq e) (now e)
    (currentTime e) (random e) (drawn e) (device e).

Definition set_masterGain (x : option AudioParam) (e : engine) : engine :=
  Engine (ctx e) x (limiter e) (analyser e) (sources e) (nodes e)
    (noiseCache e) (sequencerTimer e) (riTimeout e) (_vol e) (_playing e)
    (graph e) (wires e) (buffers e) (timers e) (timer_seq e) (now e)
    (currentTime e) (random e) (drawn e) (device e).

Definition set_limiter (x : option DynamicsCompressorNode) (e : engine) : engine :=
  Engine (ctx e) (masterGain e) x (analyser e) (sources e) (nodes e)
    (noiseCache e) (sequencerTimer e) (riTimeout e) (_vol e) (_playing e)
    (graph e) (wires e) (buffers e) (timers e) (timer_seq e) (now e)
    (currentTime e) (random e) (drawn e) (device e).

Definition set_analyser (x : option AnalyserNode) (e : engine) : engine :=
  Engine (ctx e) (masterGain e) (limiter e) x (sources e) (nodes e)
    (noiseCache e) (sequencerTimer e) (riTimeout e) (_vol e) (_playing e)
    (graph e) (wires e) (buffers e) (timers e) (timer_seq e) (now e)
    (currentTime e) (random e) (drawn e) (device e).

Definition set_sources (x : list nat) (e : engine) : engine :=
  Engine (ctx e) (masterGain e) (limiter e) (analyser e) x (nodes e)
    (noiseCache e) (sequencerTimer e) (riTimeout e) (_vol e) (_playing e)
    (graph e) (wires e) (buffers e) (timers e) (timer_seq e) (now e)
    (currentTime e) (random e) (drawn e) (device e).

Definition set_nodes (x : list nat) (e : engine) : engine :=
  Engine (ctx e) (masterGain e) (limiter e) (analyser e) (sources e) x
    (noiseCache e) (sequencerTimer e) (riTimeout e) (_vol e) (_playing e)
    (graph e) (wires e) (buffers e) (timers e) (timer_seq e) (now e)
    (currentTime e) (random e) (drawn e) (device e).

Definition set_noiseCache (x : gmap string nat) (e : engine) : engine :=
  Engine (ctx e) (masterGain e) (limiter e) (analyser e) (sources e) (nodes e)
    x (sequencerTimer e) (riTimeout e) (_vol e) (_playing e) (graph e)
    (wires e) (buffers e) (timers e) (timer_seq e) (now e) (currentTime e)
    (random e) (drawn e) (device e).

Definition set_sequencerTimer (x : option nat) (e : engine) : engine :=
  Engine (ctx e) (masterGain e) (limiter e) (analyser e) (sources e) (nodes e)
    (noiseCache e) x (riTimeout e) (_vol e) (_playing e) (graph e) (wires e)
    (buffers e) (timers e) (timer_seq e) (now e) (currentTime e) (random e)
    (drawn e) (device e).

Definition set_riTimeout (x : option nat) (e : engine) : engine :=
  Engine (ctx e) (masterGain e) (limiter e) (analyser e) (sources e) (nodes e)
    (noiseCache e) (sequencerTimer e) x (_vol e) (_playing e) (graph e)
    (wires e) (buffers e) (timers e) (timer_seq e) (now e) (currentTime e)
    (random e) (drawn e) (device e).

Definition set_vol (x : float) (e : engine) : engine :=
  Engine (ctx e) (masterGain e) (limiter e) (analyser e) (sources e) (nodes e)
    (noiseCache e) (sequencerTimer e) (riTimeout e) x (_playing e) (graph e)
    (wires e) (buffers e) (timers e) (timer_seq e) (now e) (currentTime e)
    (random e) (drawn e) (device e).

Definition set_playing (x : bool) (e : engine) : engine :=
  Engine (ctx e) (masterGain e) (limiter e) (analyser e) (sources e) (nodes e)
    (noiseCache e) (sequencerTimer e) (riTimeout e) (_vol e) x (graph e)
    (wires e) (buffers e) (timers e) (timer_seq e) (now e) (currentTime e)
    (random e) (drawn e) (device e).

Definition set_graph (x : list AudioNode) (e : engine) : engine :=
  Engine (ctx e) (masterGain e) (limiter e) (analyser e) (sources e) (nodes e)
    (noiseCache e) (sequencerTimer e) (riTimeout e) (_vol e) (_playing e) x
    (wires e) (buffers e) (timers e) (timer_seq e) (now e) (currentTime e)
    (random e) (drawn e) (device e).

Definition set_wires (x : list connection) (e : engine) : engine :=
  Engine (ctx e) (masterGain e) (limiter e) (analyser e) (sources e) (nodes e)
    (noiseCache e) (sequencerTimer e) (riTimeout e) (_vol e) (_playing e)
    (graph e) x (buffers e) (timers e) (timer_seq e) (now e) (currentTime e)
    (random e) (drawn e) (device e).

Definition set_buffers (x : list Float32Array) (e : engine) : engine :=
  Engine (ctx e) (masterGain e) (limiter e) (analyser e) (sources e) (nodes e)
    (noiseCache e) (sequencerTimer e) (riTimeout e) (_vol e) (_playing e)
    (graph e) (wires e) x (timers e) (timer_seq e) (now e) (currentTime e)
    (random e) (drawn e) (device e).

Definition set_timers (x : gmap nat timer) (e : engine) : engine :=
  Engine (ctx e) (masterGain e) (limiter e) (analyser e) (sources e) (nodes e)
    (noiseCache e) (sequencerTimer e) (riTimeout e) (_vol e) (_playing e)
    (graph e) (wires e) (buffers e) x (timer_seq e) (now e) (currentTime e)
    (random e) (drawn e) (device e).

Definition set_timer_seq (x : nat) (e : engine) : engine :=
  Engine (ctx e) (masterGain e) (limiter e) (analyser e) (sources e) (nodes e)
    (noiseCache e) (sequencerTimer e) (riTimeout e) (_vol e) (_playing e)
    (graph e) (wires e) (buffers e) (timers e) x (now e) (currentTime e)
    (random e) (drawn e) (device e).

Definition set_now (x : Z) (e : engine) : engine :=
  Engine (ctx e) (masterGain e) (limiter e) (analyser e) (sources e) (nodes e)
    (noiseCache e) (sequencerTimer e) (riTimeout e) (_vol e) (_playing e)
    (graph e) (wires e) (buffers e) (timers e) (timer_seq e) x (currentTime e)
    (random e) (drawn e) (device e).

Definition set_currentTime (x : float) (e : engine) : engine :=
  Engine (ctx e) (masterGain e) (limiter e) (analyser e) (sources e) (nodes e)
    (noiseCache e) (sequencerTimer e) (riTimeout e) (_vol e) (_playing e)
    (graph e) (wires e) (buffers e) (timers e) (timer_seq e) (now e) x
    (random e) (drawn e) (device e).

Definition set_drawn (x : nat) (e : engine) : engine :=
  Engine (ctx e) (masterGain e) (limiter e) (analyser e) (sources e) (nodes e)
    (noiseCache e) (sequencerTimer e) (riTimeout e) (_vol e) (_playing e)
    (graph e) (wires e) (buffers e) (timers e) (timer_seq e) (now e)
    (currentTime e) (random e) x (device e).

(** ** The engine's methods *)

Section Methods.

Local Open Scope float_scope.

#[global] Instance endpoint_eq_dec : EqDecision endpoint.
Proof. solve_decision. Defined.

(** [new SafeAudioEngine()] on a machine whose contexts look like [dev] and
    whose [Math.random] will return [rnd 0], [rnd 1], ... *)
Definition new_engine (dev : AudioContext) (rnd : nat -> float) : engine :=
  Engine None None None None [] [] ∅ None None 0.12 false
    [] [] [] ∅ 1 0 0 rnd 0 dev.

(** *** Environment: [Math.random], timers, node creation, connections *)

Definition Math_random (rnd : nat -> float) (pos : nat) : float * nat :=
  (rnd pos, S pos).

Definition setTimeout (cb : callback) (delay : float) (e : engine) : nat * engine :=
  let id := timer_seq e in
  let t := {| due := now e + Z.max 0 (ToInt32 delay); interval := None;
              handler := cb |} in
  (id, set_timer_seq (S id) (set_timers (<[id := t]> (timers e)) e)).

Definition setInterval (cb : callback) (delay : float) (e : engine) : nat * engine :=
  let id := timer_seq e in
  let ms := Z.max 0 (ToInt32 delay) in
  let t := {| due := now e + ms; interval := Some ms; handler := cb |} in
  (id, set_timer_seq (S id) (set_timers (<[id := t]> (timers e)) e)).

(** [clearTimeout] and [clearInterval]. *)
Definition clearTimer (id : nat) (e : engine) : engine :=
  set_timers (delete id (timers e)) e.

(** [ctx.createOscillator()] and the like followed by the assignments that
    configure the fresh node: the node enters the store configured, since
    nothing can observe it in between. *)
Definition create (n : AudioNode) (e : engine) : nat * engine :=
  (length (graph e), set_graph (graph e ++ [n]) e).

Definition connect (src : endpoint) (out : nat) (dst : endpoint) (inp : nat)
    (e : engine) : engine :=
  set_wires
    (wires e ++ [{| from := src; output := out; to := dst; input := inp |}]) e.

(** [x.disconnect()]: drops every outgoing connection of [x]; it never
    throws here (the source wraps it in [try]/[catch] all the same). *)
Definition disconnect (src : endpoint) (e : engine) : engine :=
  set_wires (filter (λ c, from c ≠ src) (wires e)) e.

(** [s.start()]. *)
Definition start_source (n : AudioNode) : AudioNode :=
  match n with
  | OscillatorNode ty f Unscheduled => OscillatorNode ty f Started
  | AudioBufferSourceNode b l Unscheduled => AudioBufferSourceNode b l Started
  | _ => n
  end.

Definition start (s : nat) (e : engine) : engine :=
  set_graph (alter start_source s (graph e)) e.

(** [try { s.stop(); } catch {}]: stopping a source that never started
    throws, and the exception is swallowed. *)
Definition stop_source (n : AudioNode) : AudioNode :=
  match n with
  | OscillatorNode ty f Started => OscillatorNode ty f Stopped
  | AudioBufferSourceNode b l Started => AudioBufferSourceNode b l Stopped
  | _ => n
  end.

(** *** Audio context and master chain (lines 76-111) *)

Definition getCtx (e : engine) : AudioContext * engine :=
  let c := match ctx e with Some c => c | None => device e end in
  let c := if suspended c
           then {| sampleRate := sampleRate c; suspended := false;
                   closed := closed c |}
           else c in
  (c, set_ctx (Some c) e).

(** Returns the master gain node, which is the endpoint [MasterGain]. *)
Definition master (e : engine) : engine :=
  let e := snd (getCtx e) in
  let e := match masterGain e with
           | Some _ => e
           | None => set_masterGain (Some (param 0)) e
           end in
  let e := match limiter e with
           | Some _ => e
           | None =>
               set_limiter
                 (Some {| threshold := -3; knee := 6; ratio := 20;
                          attack := 0.002; release := 0.05 |}) e
           end in
  let e := match analyser e with
           | Some _ => e
           | None => set_analyser (Some {| fftSize := 2048 |}) e
           end in
  let e := disconnect MasterGain e in
  let e := disconnect Limiter e in
  let e := disconnect Analyser e in
  let e := connect MasterGain 0 Limiter 0 e in
  let e := connect Limiter 0 Analyser 0 e in
  connect Analyser 0 Destination 0 e.

(** *** Volume and fades (lines 114-130) *)

Definition setVolume (v : float) (e : engine) : engine :=
  let e := set_vol (clampGain v) e in
  match masterGain e, ctx e with
  | Some g, Some _ =>
      if _playing e
      then set_masterGain
             (Some (schedule (SetTargetAtTime (_vol e) (currentTime e) 0.05) g)) e
      else e
  | _, _ => e
  end.

Definition fadeIn (target : float) (e : engine) : engine :=
  match masterGain e, ctx e with
  | Some g, Some _ =>
      let safe := clampGain target in
      let g := schedule (SetValueAtTime 0.0001 (currentTime e)) g in
      let g := schedule
                 (ExponentialRampToValueAtTime (Math_max safe 0.0001)
                    (currentTime e + FADE_IN_SEC)) g in
      set_masterGain (Some g) e
  | _, _ => e
  end.

(** *** Cleanup and stop (lines 133-166) *)

Definition cleanup (e : engine) : engine :=
  let e := fold_left
             (λ e s, disconnect (Node s)
                       (set_graph (alter stop_source s (graph e)) e))
             (sources e) e in
  let e := fold_left (λ e n, disconnect (Node n) e) (nodes e) e in
  let e := set_sources [] e in
  let e := set_nodes [] e in
  let e := match sequencerTimer e with
           | Some t => set_sequencerTimer None (clearTimer t e)
           | None => e
           end in
  let e := match riTimeout e with
           | Some t => set_riTimeout None (clearTimer t e)
           | None => e
           end in
  set_playing false e.

Definition stop (e : engine) : promise * engine :=
  if negb (_playing e) && Nat.eqb (length (sources e)) 0
  then (Resolved, cleanup e)
  else
    let e := match masterGain e, ctx e with
             | Some g, Some _ =>
                 set_masterGain
                   (Some (schedule (SetTargetAtTime 0 (currentTime e) 0.025) g)) e
             | _, _ => e
             end in
    let r := setTimeout StopTimeout (FADE_OUT_SEC * 1000 + 60) e in
    (ResolvedBy (fst r), snd r).

(** *** Noise buffers (lines 169-201) *)

(** [d[i]] read from a typed array; out of range it is [undefined], which
    arithmetic turns into NaN.  A store [d[i] = v] is [<[i := Math_fround v]> d]:
    it rounds to binary32 and does nothing out of range. *)
Definition read (d : Float32Array) (i : nat) : float := default nan (d !! i).

(** [for (let i = 0; i < N; i++) d[i] = Math.random() * 2 - 1;] with [k]
    iterations left. *)
Fixpoint white_loop (k i : nat) (rnd : nat -> float) (pos : nat)
    (d : Float32Array) : Float32Array * nat :=
  match k with
  | O => (d, pos)
  | S k =>
      let '(r, pos) := Math_random rnd pos in
      white_loop k (S i) rnd pos (<[i := Math_fround (r * 2 - 1)]> d)
  end.

Record pink_state :=
  { b0 : float; b1 : float; b2 : float; b3 : float;
    b4 : float; b5 : float; b6 : float }.

Fixpoint pink_loop (k i : nat) (b : pink_state) (rnd : nat -> float) (pos : nat)
    (d : Float32Array) : Float32Array * nat :=
  match k with
  | O => (d, pos)
  | S k =>
      let '(r, pos) := Math_random rnd pos in
      let w := r * 2 - 1 in
      let b0 := 0.99886 * b0 b + w * 0.0555179 in
      let b1 := 0.99332 * b1 b + w * 0.0750759 in
      let b2 := 0.96900 * b2 b + w * 0.1538520 in
      let b3 := 0.86650 * b3 b + w * 0.3104856 in
      let b4 := 0.55000 * b4 b + w * 0.5329522 in
      let b5 := -0.7616 * b5 b - w * 0.0168980 in
      let d := <[i := Math_fround
                        ((b0 + b1 + b2 + b3 + b4 + b5 + b6 b + w * 0.5362) * 0.11)]> d in
      let b6 := w * 0.115926 in
      pink_loop k (S i)
        {| b0 := b0; b1 := b1; b2 := b2; b3 := b3; b4 := b4; b5 := b5; b6 := b6 |}
        rnd pos d
  end.

Fixpoint brown_loop (k i : nat) (last : float) (rnd : nat -> float) (pos : nat)
    (d : Float32Array) : Float32Array * nat :=
  match k with
  | O => (d, pos)
  | S k =>
      let '(r, pos) := Math_random rnd pos in
      let w := r * 2 - 1 in
      let d := <[i := Math_fround ((last + 0.02 * w) / 1.02)]> d in
      let last := read d i in
      let d := <[i := Math_fround (read d i * 3.5)]> d in
      brown_loop k (S i) last rnd pos d
  end.

(** The three generators, on the fresh (all zero) channel of [N] samples. *)
Definition generate (type : NoiseColor) (N : nat) (rnd : nat -> float)
    (pos : nat) : Float32Array * nat :=
  let d := replicate N 0 in
  match type with
  | white => white_loop N 0 rnd pos d
  | pink => pink_loop N 0 {| b0 := 0; b1 := 0; b2 := 0; b3 := 0;
                             b4 := 0; b5 := 0; b6 := 0 |} rnd pos d
  | brown => brown_loop N 0 0 rnd pos d
  end.

(** Returns a reference to the buffer.  The channel data is written in
    place in the source; nothing reads the buffer before the loop ends, so
    it enters the store filled. *)
Definition noiseBuf (c : AudioContext) (type : NoiseColor) (e : engine)
    : nat * engine :=
  match noiseCache e !! color_name type with
  | Some buf => (buf, e)
  | None =>
      let N := (2 * sampleRate c)%nat in
      let r := generate type N (random e) (drawn e) in
      let buf := length (buffers e) in
      (buf,
       set_noiseCache (<[color_name type := buf]> (noiseCache e))
         (set_buffers (buffers e ++ [fst r]) (set_drawn (snd r) e)))
  end.

(** *** Wiring helper (lines 204-213) *)

Definition wire (source : nat) (intermediates : list nat) (e : engine) : engine :=
  let e := master e in
  let r := fold_left
             (λ (pe : nat * engine) node,
                (node,
                 set_nodes (nodes (snd pe) ++ [node])
                   (connect (Node (fst pe)) 0 (Node node) 0 (snd pe))))
             intermediates (source, e) in
  connect (Node (fst r)) 0 MasterGain 0 (snd r).

(** *** Playback methods (lines 220-459)

    Every [play*] method is [await this.stop()] followed by a body that
    runs once the promise has resolved.  The bodies come first; the
    methods themselves are below, after the timers. *)

Definition playTone_body (freq : float) (wave : OscillatorType) (e : engine)
    : engine :=
  let e := snd (getCtx e) in
  let e := master e in
  let '(osc, e) := create (OscillatorNode wave (param (clampFreq freq)) Unscheduled) e in
  let e := wire osc [] e in
  let e := start osc e in
  let e := set_sources (sources e ++ [osc]) e in
  let e := set_playing true e in
  fadeIn (_vol e * default 1 (GAIN_SCALAR !! wave_name wave)) e.

(** [if (centerFreq)]: [undefined], [0] and NaN are falsy. *)
Definition truthy (x : option float) : bool :=
  match x with
  | Some f => negb (is_nan f || (f =? 0))
  | None => false
  end.

Definition set_buffer (buf : nat) (n : AudioNode) : AudioNode :=
  match n with
  | AudioBufferSourceNode _ l st => AudioBufferSourceNode (Some buf) l st
  | _ => n
  end.

Definition playNoise_body (color : NoiseColor) (centerFreq q : option float)
    (e : engine) : engine :=
  let q := default 1.0 q in
  let '(c, e) := getCtx e in
  let e := master e in
  let '(src, e) := create (AudioBufferSourceNode None true Unscheduled) e in
  let r := noiseBuf c color e in
  let e := set_graph (alter (set_buffer (fst r)) src (graph (snd r))) (snd r) in
  let e :=
    if truthy centerFreq then
      let '(bp, e) :=
        create (BiquadFilterNode bandpass
                  (param (clampFreq (default nan centerFreq))) (param q)) e in
      wire src [bp] e
    else wire src [] e in
  let e := start src e in
  let e := set_sources (sources e ++ [src]) e in
  let e := set_playing true e in
  fadeIn (_vol e * default 0.3 (GAIN_SCALAR !! color_name color)) e.

Definition playNotchedNoise_body (notchFreq : float) (notchQ : option float)
    (color : option NoiseColor) (e : engine) : engine :=
  let notchQ := default 6 notchQ in
  let color := default pink color in
  let '(c, e) := getCtx e in
  let e := master e in
  let '(src, e) := create (AudioBufferSourceNode None true Unscheduled) e in
  let r := noiseBuf c color e in
  let e := set_graph (alter (set_buffer (fst r)) src (graph (snd r))) (snd r) in
  let '(nt, e) :=
    create (BiquadFilterNode notch (param (clampFreq notchFreq)) (param notchQ)) e in
  let e := wire src [nt] e in
  let e := start src e in
  let e := set_sources (sources e ++ [src]) e in
  let e := set_playing true e in
  fadeIn (_vol e * default 0.3 (GAIN_SCALAR !! color_name color)) e.

(** *** Coordinated reset (lines 301-345) *)

#[global] Instance outcome_ret : MRet outcome := λ A a, Done a.
#[global] Instance outcome_bind : MBind outcome :=
  λ A B f x, match x with
             | Done a => f a
             | TypeError => TypeError
             | OutOfFuel => OutOfFuel
             end.

(** [undefined.gain] throws. *)
Definition defined {A} (x : option A) : outcome A :=
  match x with Some a => Done a | None => TypeError end.

(** [gains[cur]] for a number [cur] holding an integer. *)
Definition at_index (gains : list nat) (cur : Z) : option nat :=
  if (0 <=? cur)%Z then gains !! Z.to_nat cur else None.

(** [n.gain.setTargetAtTime(target, t, timeConstant)]. *)
Definition gain_setTargetAtTime (n : nat) (target t timeConstant : float)
    (e : engine) : option engine :=
  match graph e !! n with
  | Some (GainNode g) =>
      Some (set_graph
              (<[n := GainNode (schedule (SetTargetAtTime target t timeConstant) g)]>
                 (graph e)) e)
  | _ => None
  end.

Definition ratios : list float := [0.773; 0.867; 1.133; 1.227].

(** One iteration of [for (const r of ratios)]; the accumulator holds the
    local arrays [oscs] and [gains]. *)
Definition add_tone (centerFreq : float)
    (acc : list nat * list nat * engine) (r : float)
    : list nat * list nat * engine :=
  let e := snd acc in
  let '(osc, e) :=
    create (OscillatorNode sine (param (clampFreq (centerFreq * r))) Unscheduled) e in
  let '(g, e) := create (GainNode (param 0)) e in
  let e := connect (Node osc) 0 (Node g) 0 e in
  let e := master e in
  let e := connect (Node g) 0 MasterGain 0 e in
  let e := start osc e in
  let e := set_sources (sources e ++ [osc]) e in
  let e := set_nodes (nodes e ++ [g]) e in
  (fst (fst acc) ++ [osc], snd (fst acc) ++ [g], e).

(** Lines 306-332: the graph and the fade-in. *)
Definition playCoordinatedReset_build (centerFreq : float) (e : engine)
    : list nat * list nat * engine :=
  let e := snd (getCtx e) in
  let e := master e in
  let r := fold_left (add_tone centerFreq) ratios ([], [], e) in
  let e := set_playing true (snd r) in
  (fst (fst r), snd (fst r), fadeIn (_vol e) e).

(** [do { next = Math.floor(Math.random() * 4); } while (next === cur);]
    A draw that is not a finite number ends the loop (it differs from
    [cur]) and then indexes [gains] with it, which throws. *)
Fixpoint draw_next (fuel : nat) (cur : Z) (rnd : nat -> float) (pos : nat)
    : outcome (Z * nat) :=
  match fuel with
  | O => OutOfFuel
  | S fuel =>
      let '(r, pos) := Math_random rnd pos in
      match Math_floor (r * 4) with
      | None => TypeError
      | Some next =>
          if (next =? cur)%Z then draw_next fuel cur rnd pos
          else Done (next, pos)
      end
  end.

(** The closure [step], with its captured [gains] and [cur] passed in and
    the new [cur] passed out. *)
Definition step (fuel : nat) (gains : list nat) (cur : Z) (e : engine)
    : outcome (Z * engine) :=
  if negb (_playing e) then Done (cur, e)
  else
    e ← (if (0 <=? cur)%Z
          then g ← defined (at_index gains cur);
               defined (gain_setTargetAtTime g 0 (currentTime e) 0.015 e)
          else Done e);
    '(next, pos) ← draw_next fuel cur (random e) (drawn e);
    let e := set_drawn pos e in
    let cur := next in
    g ← defined (at_index gains cur);
    e ← defined (gain_setTargetAtTime g 0.5 (currentTime e + 0.02) 0.015 e);
    Done (cur, e).

Definition playCoordinatedReset_body (fuel : nat) (centerFreq : float)
    (tempoMs : option float) (e : engine) : outcome engine :=
  let tempoMs := default 250 tempoMs in
  let b := playCoordinatedReset_build centerFreq e in
  let gains := snd (fst b) in
  '(cur, e) ← step fuel gains (-1) (snd b);
  let r := setInterval (SequencerStep gains cur) tempoMs e in
  Done (set_sequencerTimer (Some (fst r)) (snd r)).

(** *** Amplitude modulation, binaural beats, phase cancellation,
    residual inhibition (lines 350-459) *)

Definition playAM_body (freq : float) (modRate modDepth : option float)
    (e : engine) : engine :=
  let modRate := default 10 modRate in
  let modDepth := default 0.7 modDepth in
  let e := snd (getCtx e) in
  let e := master e in
  let '(carrier, e) :=
    create (OscillatorNode sine (param (clampFreq freq)) Unscheduled) e in
  let '(lfo, e) := create (OscillatorNode sine (param modRate) Unscheduled) e in
  let '(lfoGain, e) := create (GainNode (param (modDepth * 0.5))) e in
  let '(out, e) := create (GainNode (param (1 - modDepth * 0.5))) e in
  let e := connect (Node lfo) 0 (Node lfoGain) 0 e in
  let e := connect (Node lfoGain) 0 (Gain_of out) 0 e in
  let e := connect (Node carrier) 0 (Node out) 0 e in
  let e := master e in
  let e := connect (Node out) 0 MasterGain 0 e in
  let e := start carrier e in
  let e := start lfo e in
  let e := set_sources (sources e ++ [carrier; lfo]) e in
  let e := set_nodes (nodes e ++ [lfoGain; out]) e in
  let e := set_playing true e in
  fadeIn (_vol e) e.

Definition playBinaural_body (baseFreq : float) (beatFreq : option float)
    (e : engine) : engine :=
  let beatFreq := default 10 beatFreq in
  let e := snd (getCtx e) in
  let e := master e in
  let '(merger, e) := create (ChannelMergerNode 2) e in
  let '(leftOsc, e) :=
    create (OscillatorNode sine (param (clampFreq baseFreq)) Unscheduled) e in
  let '(rightOsc, e) :=
    create (OscillatorNode sine (param (clampFreq (baseFreq + beatFreq)))
              Unscheduled) e in
  let e := connect (Node leftOsc) 0 (Node merger) 0 e in
  let e := connect (Node rightOsc) 0 (Node merger) 1 e in
  let e := master e in
  let e := connect (Node merger) 0 MasterGain 0 e in
  let e := start leftOsc e in
  let e := start rightOsc e in
  let e := set_sources (sources e ++ [leftOsc; rightOsc]) e in
  let e := set_nodes (nodes e ++ [merger]) e in
  let e := set_playing true e in
  fadeIn (_vol e) e.

Definition playPhaseCancellation_body (freq : float) (e : engine) : engine :=
  let e := snd (getCtx e) in
  let e := master e in
  let '(osc, e) :=
    create (OscillatorNode sine (param (clampFreq freq)) Unscheduled) e in
  let '(invert, e) := create (GainNode (param (-1))) e in
  let e := connect (Node osc) 0 (Node invert) 0 e in
  let e := master e in
  let e := connect (Node invert) 0 MasterGain 0 e in
  let e := start osc e in
  let e := set_sources (sources e ++ [osc]) e in
  let e := set_nodes (nodes e ++ [invert]) e in
  let e := set_playing true e in
  fadeIn (_vol e) e.

(** What [playResidualInhibition] does once its [await this.playTone(freq,
    'sine')] has resolved. *)
Definition playResidualInhibition_body (durationSec : option float)
    (e : engine) : engine :=
  let durationSec := default 60 durationSec in
  let r := setTimeout RiTimeout (durationSec * 1000) e in
  set_riTimeout (Some (fst r)) (snd r).

(** *** Live parameter updates (lines 463-480) *)

(** [if (s instanceof OscillatorNode) s.frequency.setValueAtTime(f, t)]. *)
Definition osc_setFrequency (f t : float) (n : AudioNode) : AudioNode :=
  match n with
  | OscillatorNode ty fr st => OscillatorNode ty (schedule (SetValueAtTime f t) fr) st
  | _ => n
  end.

Definition updateOscFrequency (freq : float) (e : engine) : engine :=
  match ctx e with
  | None => e
  | Some _ =>
      let f := clampFreq freq in
      fold_left
        (λ e s, set_graph (alter (osc_setFrequency f (currentTime e)) s (graph e)) e)
        (sources e) e
  end.

Definition filter_setFrequency (f t : float) (n : AudioNode) : AudioNode :=
  match n with
  | BiquadFilterNode ty fr q => BiquadFilterNode ty (schedule (SetValueAtTime f t) fr) q
  | _ => n
  end.

Definition updateFilterFrequency (freq : float) (e : engine) : engine :=
  match ctx e with
  | None => e
  | Some _ =>
      fold_left
        (λ e n, set_graph
                  (alter (filter_setFrequency (clampFreq freq) (currentTime e)) n
                     (graph e)) e)
        (nodes e) e
  end.

(** *** Teardown (lines 484-493) *)

Definition destroy (e : engine) : engine :=
  let e := snd (stop e) in
  snd (setTimeout DestroyTimeout 300 e).

(** *** The event loop: a timer fires *)

(** Runs the callback of timer [id], no earlier than it is due; a cleared
    timer never fires.  An interval is rescheduled, a timeout is dropped.
    The completion callback [onFinish] of residual inhibition belongs to
    the caller and is not part of the engine's state. *)
Definition fire (fuel : nat) (id : nat) (e : engine) : outcome engine :=
  match timers e !! id with
  | None => Done e
  | Some t =>
      let e := set_now (Z.max (now e) (due t)) e in
      let e := match interval t with
               | Some ms =>
                   set_timers
                     (<[id := {| due := due t + ms; interval := interval t;
                                 handler := handler t |}]> (timers e)) e
               | None => clearTimer id e
               end in
      match handler t with
      | StopTimeout => Done (cleanup e)
      | SequencerStep gains cur =>
          '(cur, e) ← step fuel gains cur e;
          Done (set_timers
                  (alter (λ t, {| due := due t; interval := interval t;
                                  handler := SequencerStep gains cur |})
                     id (timers e)) e)
      | RiTimeout => Done (snd (stop e))
      | DestroyTimeout =>
          Done (set_analyser None
                  (set_limiter None (set_masterGain None (set_ctx None e))))
      end
  end.

(** [await this.stop()] when nothing else runs before the promise
    resolves: the fade-out timer, if any, fires when due. *)
Definition await_stop (e : engine) : engine :=
  let r := stop e in
  match fst r with
  | Resolved => snd r
  | ResolvedBy id =>
      match timers (snd r) !! id with
      | Some t =>
          cleanup (clearTimer id (set_now (Z.max (now (snd r)) (due t)) (snd r)))
      | None => snd r
      end
  end.

(** *** The eight playback modes *)

Inductive mode :=
| Tone (freq : float) (wave : OscillatorType)
| Noise (color : NoiseColor) (centerFreq q : option float)
| NotchedNoise (notchFreq : float) (notchQ : option float) (color : option NoiseColor)
| CoordinatedReset (centerFreq : float) (tempoMs : option float)
| AM (freq : float) (modRate modDepth : option float)
| Binaural (baseFreq : float) (beatFreq : option float)
| ResidualInhibition (freq : float) (durationSec : option float)
| PhaseCancellation (freq : float).

(** The part of a mode that builds its graph and starts the fade-in: the
    whole body, except for coordinated reset, whose sequencer start
    ([step(); setInterval(step, tempoMs)]) comes after it. *)
Definition construct (m : mode) (e : engine) : engine :=
  match m with
  | Tone f w => playTone_body f w e
  | Noise c cf q => playNoise_body c cf q e
  | NotchedNoise f q c => playNotchedNoise_body f q c e
  | CoordinatedReset f _ => snd (playCoordinatedReset_build f e)
  | AM f r d => playAM_body f r d e
  | Binaural f b => playBinaural_body f b e
  | ResidualInhibition f d =>
      playResidualInhibition_body d (playTone_body f sine e)
  | PhaseCancellation f => playPhaseCancellation_body f e
  end.

(** The body of the [play*] method for mode [m] (what runs after its
    [await this.stop()]). *)
Definition resume (fuel : nat) (m : mode) (e : engine) : outcome engine :=
  match m with
  | CoordinatedReset f t => playCoordinatedReset_body fuel f t e
  | _ => Done (construct m e)
  end.

(** The [play*] method for mode [m], run without interruption. *)
Definition play (fuel : nat) (m : mode) (e : engine) : outcome engine :=
  resume fuel m (await_stop e).

Definition playTone freq wave e := play 0 (Tone freq wave) e.
Definition playNoise color centerFreq q e := play 0 (Noise color centerFreq q) e.
Definition playNotchedNoise f q color e := play 0 (NotchedNoise f q color) e.
Definition playCoordinatedReset fuel f tempoMs e :=
  play fuel (CoordinatedReset f tempoMs) e.
Definition playAM f modRate modDepth e := play 0 (AM f modRate modDepth) e.
Definition playBinaural f beatFreq e := play 0 (Binaural f beatFreq) e.
Definition playResidualInhibition f durationSec e :=
  play 0 (ResidualInhibition f durationSec) e.
Definition playPhaseCancellation f e := play 0 (PhaseCancellation f) e.

(** *** Everything that can happen to an engine *)

Inductive action :=
| Call_stop
| Call_setVolume (v : float)
| Call_updateOscFrequency (freq : float)
| Call_updateFilterFrequency (freq : float)
| Call_destroy
| Resume (m : mode)          (* a [play*] body, after its await *)
| Fire (id : nat)            (* a timer callback *)
| Elapse (t : float).        (* the audio clock moves to [t] *)

Definition exec (fuel : nat) (a : action) (e : engine) : outcome engine :=
  match a with
  | Call_stop => Done (snd (stop e))
  | Call_setVolume v => Done (setVolume v e)
  | Call_updateOscFrequency f => Done (updateOscFrequency f e)
  | Call_updateFilterFrequency f => Done (updateFilterFrequency f e)
  | Call_destroy => Done (destroy e)
  | Resume m => resume fuel m e
  | Fire id => fire fuel id e
  | Elapse t => Done (set_currentTime t e)
  end.

(** The states an engine can be in: fresh, or one action later. *)
Inductive reachable (dev : AudioContext) (rnd : nat -> float) : engine -> Prop :=
| reachable_new : reachable dev rnd (new_engine dev rnd)
| reachable_exec fuel a e e' :
    reachable dev rnd e -> exec fuel a e = Done e' -> reachable dev rnd e'.

(** [n] consecutive runs of [step] (the immediate call, then the interval
    firing), with the index selected at each. *)
Fixpoint ticks (fuel n : nat) (gains : list nat) (cur : Z) (e : engine)
    : outcome (list Z * engine) :=
  match n with
  | O => Done ([], e)
  | S n =>
      '(cur, e) ← step fuel gains cur e;
      '(l, e) ← ticks fuel n gains cur e;
      Done (cur :: l, e)
  end.

End Methods.

(** ** The noise recurrences, in the words of the specification *)

Section NoiseSpec.

Local Open Scope float_scope.

(** The white samples, [w i] for sample [i]. *)
Variable w : nat -> float.

(** A running state variable: it starts at 0 and each sample replaces it
    by [decay × state + w × weight]. *)
Fixpoint pole (decay weight : float) (i : nat) : float :=
  decay * match i with O => 0 | S j => pole decay weight j end + w i * weight.

(** The sixth state: decay −0.7616, and its weight 0.0168980 enters with
    the sign inverted. *)
Fixpoint pole5 (i : nat) : float :=
  -0.7616 * match i with O => 0 | S j => pole5 j end - w i * 0.0168980.

(** The carry term as sample [i] reads it: set from the white sample of
    the sample before, 0 at the start. *)
Definition carry (i : nat) : float :=
  match i with O => 0 | S j => w j * 0.115926 end.

Definition pink_sample (i : nat) : float :=
  (pole 0.99886 0.0555179 i + pole 0.99332 0.0750759 i
   + pole 0.96900 0.1538520 i + pole 0.86650 0.3104856 i
   + pole 0.55000 0.5329522 i + pole5 i + carry i + w i * 0.5362) * 0.11.

(** Brown noise as the specification words it: the previous output sample
    is fed back. *)
Fixpoint brown_fed_by_output (i : nat) : float :=
  ((match i with O => 0 | S j => brown_fed_by_output j end + 0.02 * w i) / 1.02)
  * 3.5.

(** Brown noise as a leaky walk whose state is the sample before the
    × 3.5 scaling, as the typed array holds it. *)
Fixpoint leak (i : nat) : float :=
  Math_fround
    ((match i with O => 0 | S j => leak j end + 0.02 * w i) / 1.02).

Definition brown_sample (i : nat) : float := Math_fround (leak i * 3.5).

End NoiseSpec.

(** ** Order facts on binary64, from the specification of the primitives *)

Section FloatOrder.

Local Open Scope float_scope.

Lemma compare_cont_Eq_antisym (p q : positive) :
  Pos.compare_cont Eq q p = CompOpp (Pos.compare_cont Eq p q).
Proof. now rewrite (Pos.compare_cont_antisym p q Eq). Qed.

Lemma SFcompare_antisym (a b : spec_float) :
  SFcompare b a = option_map CompOpp (SFcompare a b).
Proof.
  destruct a as [sa|sa| |sa ma ea], b as [sb|sb| |sb mb eb]; simpl;
    try reflexivity; try (destruct sa; reflexivity);
    try (destruct sb; reflexivity);
    try (destruct sa, sb; reflexivity).
  f_equal.
  destruct sa, sb; try reflexivity;
    rewrite (Z.compare_antisym ea eb);
    destruct (ea ?= eb)%Z; simpl; try reflexivity;
    rewrite (compare_cont_Eq_antisym ma mb); try reflexivity.
Qed.

Lemma Prim2SF_not_nan (x : float) : is_nan x = false -> Prim2SF x <> S754_nan.
Proof.
  intros H. unfold Prim2SF. rewrite H.
  destruct (is_zero x); [discriminate|].
  destruct (is_infinity x); [discriminate|].
  destruct (Z.frexp x) as [r ex].
  destruct (shr_fexp _ _ _ _ _) as [sh e'].
  destruct (shr_m sh); discriminate.
Qed.

Lemma SFcompare_total (a b : spec_float) :
  a <> S754_nan -> b <> S754_nan -> SFcompare a b <> None.
Proof.
  destruct a, b; simpl; intros Ha Hb; congruence.
Qed.

Lemma ltb_asym (x y : float) : (x <? y) = true -> (y <? x) = false.
Proof.
  rewrite !ltb_spec. unfold SFltb.
  rewrite (SFcompare_antisym (Prim2SF x) (Prim2SF y)).
  destruct (SFcompare (Prim2SF x) (Prim2SF y)) as [[]|]; simpl; congruence.
Qed.

Lemma ltb_leb (x y : float) : (x <? y) = true -> (x <=? y) = true.
Proof.
  rewrite ltb_spec, leb_spec. unfold SFltb, SFleb.
  destruct (SFcompare _ _) as [[]|]; congruence.
Qed.

Lemma nltb_leb (x y : float) :
  is_nan x = false -> is_nan y = false -> (x <? y) = false -> (y <=? x) = true.
Proof.
  intros Hx Hy. rewrite ltb_spec, leb_spec. unfold SFltb, SFleb.
  rewrite (SFcompare_antisym (Prim2SF x) (Prim2SF y)).
  pose proof (SFcompare_total _ _ (Prim2SF_not_nan x Hx) (Prim2SF_not_nan y Hy)).
  destruct (SFcompare (Prim2SF x) (Prim2SF y)) as [[]|]; simpl; congruence.
Qed.

Lemma leb_nltb (x y : float) : (x <=? y) = true -> (y <? x) = false.
Proof.
  rewrite ltb_spec, leb_spec. unfold SFltb, SFleb.
  rewrite (SFcompare_antisym (Prim2SF x) (Prim2SF y)).
  destruct (SFcompare (Prim2SF x) (Prim2SF y)) as [[]|]; simpl; congruence.
Qed.

(** [Math.max] and [Math.min] return NaN or one of their arguments. *)
Lemma Math_max_cases (x y : float) :
  (Math_max x y = nan /\ (is_nan x || is_nan y) = true) \/
  (is_nan x = false /\ is_nan y = false /\
     ((Math_max x y = y /\ (y <? x) = false) \/
      (Math_max x y = x /\ (x <? y) = false))).
Proof.
  unfold Math_max.
  destruct (is_nan x) eqn:Hx; [left; auto|].
  destruct (is_nan y) eqn:Hy; [left; auto|]. simpl.
  right. split; [reflexivity|]. split; [reflexivity|].
  destruct (x <? y) eqn:Hxy.
  - left. split; [reflexivity|]. now apply ltb_asym.
  - destruct (y <? x) eqn:Hyx; [right; auto|].
    destruct (classify x); auto.
Qed.

Lemma Math_min_cases (x y : float) :
  (Math_min x y = nan /\ (is_nan x || is_nan y) = true) \/
  (is_nan x = false /\ is_nan y = false /\
     ((Math_min x y = x /\ (y <? x) = false) \/
      (Math_min x y = y /\ (x <? y) = false))).
Proof.
  unfold Math_min.
  destruct (is_nan x) eqn:Hx; [left; auto|].
  destruct (is_nan y) eqn:Hy; [left; auto|]. simpl.
  right. split; [reflexivity|]. split; [reflexivity|].
  destruct (x <? y) eqn:Hxy.
  - left. split; [reflexivity|]. now apply ltb_asym.
  - destruct (y <? x) eqn:Hyx; [right; auto|].
    destruct (classify x); auto.
Qed.

End FloatOrder.


(** ** The clamps *)

Section Clamps.

Local Open Scope float_scope.

Lemma ltb_nan_r (c : float) : (c <? nan) = false.
Proof.
  rewrite ltb_spec. unfold SFltb.
  change (Prim2SF nan) with S754_nan.
  now destruct (Prim2SF c).
Qed.

Lemma ltb_irrefl (c : float) : (c <? c) = false.
Proof.
  rewrite ltb_spec. unfold SFltb.
  pose proof (SFcompare_antisym (Prim2SF c) (Prim2SF c)) as A.
  destruct (SFcompare (Prim2SF c) (Prim2SF c)) as [[]|]; simpl in A;
    congruence.
Qed.

Lemma not_above_max (c x y : float) :
  not_above c x -> not_above c y -> not_above c (Math_max x y).
Proof.
  intros Hx Hy. unfold not_above.
  destruct (Math_max_cases x y) as [[-> _]|(_ & _ & [[-> _]|[-> _]])]; auto.
  apply ltb_nan_r.
Qed.

(** [Math.min(x, c)] never exceeds [c], whatever [x] is. *)
Lemma not_above_min (c x : float) : not_above c (Math_min x c).
Proof.
  unfold not_above.
  destruct (Math_min_cases x c) as [[-> _]|(_ & Hc & [[-> H]|[-> _]])]; auto.
  - apply ltb_nan_r.
  - apply ltb_irrefl.
Qed.

Lemma clampGain_not_above (v : float) : not_above MAX_SAFE_GAIN (clampGain v).
Proof.
  apply not_above_max; [reflexivity | apply not_above_min].
Qed.

Lemma clampFreq_not_above (f : float) : not_above MAX_FREQ (clampFreq f).
Proof.
  apply not_above_max; [reflexivity | apply not_above_min].
Qed.

Lemma clampFreq_not_below (f : float) : not_below MIN_FREQ (clampFreq f).
Proof.
  unfold not_below, clampFreq.
  destruct (Math_max_cases MIN_FREQ (Math_min f MAX_FREQ))
    as [[-> _]|(_ & _ & [[-> H]|[-> _]])]; auto.
Qed.

(** On a number (anything but NaN) the frequency clamp lands in
    [[MIN_FREQ, MAX_FREQ]]. *)
Lemma clampFreq_within (f : float) :
  is_nan f = false -> within MIN_FREQ MAX_FREQ (clampFreq f).
Proof.
  intros Hf. unfold within, clampFreq.
  assert (Hm : is_nan (Math_min f MAX_FREQ) = false
               /\ (Math_min f MAX_FREQ <=? MAX_FREQ) = true).
  { destruct (Math_min_cases f MAX_FREQ)
      as [[_ H]|(_ & _ & [[-> H]|[-> _]])].
    - rewrite Hf in H. discriminate H.
    - split; [exact Hf|]. now apply nltb_leb.
    - split; reflexivity. }
  destruct Hm as [Hn Hle].
  destruct (Math_max_cases MIN_FREQ (Math_min f MAX_FREQ))
    as [[_ H]|(_ & _ & [[-> H]|[-> H]])].
  - rewrite Hn in H. discriminate H.
  - split; [|exact Hle]. now apply nltb_leb.
  - split; reflexivity.
Qed.

Lemma clampFreq_nan : clampFreq nan = nan.
Proof. reflexivity. Qed.

End Clamps.

(** ** The noise generators *)

Section Noise.

Local Open Scope float_scope.

Variable rnd : nat -> float.

(** The white sample of iteration [i] when the loop starts at draw [pos]. *)
Definition white_sample (pos i : nat) : float := rnd (pos + i) * 2 - 1.

(** The seven variables as iteration [i] finds them. *)
Definition pink_before (pos i : nat) : pink_state :=
  let prev (f : nat -> float) := match i with O => 0 | S j => f j end in
  {| b0 := prev (pole (white_sample pos) 0.99886 0.0555179);
     b1 := prev (pole (white_sample pos) 0.99332 0.0750759);
     b2 := prev (pole (white_sample pos) 0.96900 0.1538520);
     b3 := prev (pole (white_sample pos) 0.86650 0.3104856);
     b4 := prev (pole (white_sample pos) 0.55000 0.5329522);
     b5 := prev (pole5 (white_sample pos));
     b6 := carry (white_sample pos) i |}.

Lemma pole_unfold (w : nat -> float) (decay weight : float) (i : nat) :
  pole w decay weight i
  = decay * match i with O => 0 | S j => pole w decay weight j end
    + w i * weight.
Proof. destruct i; reflexivity. Qed.

Lemma pole5_unfold (w : nat -> float) (i : nat) :
  pole5 w i
  = -0.7616 * match i with O => 0 | S j => pole5 w j end - w i * 0.0168980.
Proof. destruct i; reflexivity. Qed.

Lemma pink_loop_spec (pos k : nat) :
  forall (i : nat) (d : Float32Array) (b : pink_state),
    b = pink_before pos i ->
    (i + k <= length d)%nat ->
    let r := pink_loop k i b rnd (pos + i) d in
    snd r = (pos + i + k)%nat /\
    length (fst r) = length d /\
    forall j : nat,
      fst r !! j =
        if decide (i <= j < i + k)%nat
        then Some (Math_fround (pink_sample (white_sample pos) j))
        else d !! j.
Proof.
  induction k as [|k IH]; intros i d b Hb Hlen; cbn [pink_loop Math_random].
  - split; [simpl; lia|]. split; [reflexivity|].
    intros j. case_decide; [lia|reflexivity].
  - match goal with
    | |- context [pink_loop k (S i) ?b' rnd ?p ?d'] =>
        assert (Hst : b' = pink_before pos (S i));
        [|assert (Hd : d' !! i
                       = Some (Math_fround (pink_sample (white_sample pos) i)));
          [|replace p with (pos + S i)%nat by lia;
            assert (Hlen' : (S i + k <= length d')%nat)
              by (rewrite length_insert; lia);
            destruct (IH (S i) d' b' Hst Hlen') as (Hpos & Hl & Hget)]]
    end.
    + subst b. unfold pink_before, white_sample. cbn [b0 b1 b2 b3 b4 b5 b6 carry].
      rewrite !(pole_unfold _ _ _ i), (pole5_unfold _ i).
      reflexivity.
    + rewrite list_lookup_insert_eq by lia.
      subst b. unfold pink_sample, pink_before, white_sample.
      cbn [b0 b1 b2 b3 b4 b5 b6].
      rewrite !(pole_unfold _ _ _ i), (pole5_unfold _ i).
      reflexivity.
    + cbv zeta. split; [rewrite Hpos; lia|].
      split; [rewrite Hl; apply length_insert|].
      intros j. rewrite Hget.
      destruct (decide (j = i)) as [->|Hne].
      * case_decide; [lia|]. case_decide; [|lia]. exact Hd.
      * rewrite list_lookup_insert_ne by congruence.
        repeat case_decide; try lia; reflexivity.
Qed.

Lemma brown_loop_spec (pos k : nat) :
  forall (i : nat) (d : Float32Array) (last : float),
    last = match i with O => 0 | S j => leak (white_sample pos) j end ->
    (i + k <= length d)%nat ->
    let r := brown_loop k i last rnd (pos + i) d in
    snd r = (pos + i + k)%nat /\
    length (fst r) = length d /\
    forall j : nat,
      fst r !! j =
        if decide (i <= j < i + k)%nat
        then Some (brown_sample (white_sample pos) j)
        else d !! j.
Proof.
  induction k as [|k IH]; intros i d last Hlast Hlen;
    cbn [brown_loop Math_random].
  - split; [simpl; lia|]. split; [reflexivity|].
    intros j. case_decide; [lia|reflexivity].
  - assert (Hrd :
      read (<[i := Math_fround ((last + 0.02 * (rnd (pos + i) * 2 - 1)) / 1.02)]> d) i
      = leak (white_sample pos) i).
    { unfold read. rewrite list_lookup_insert_eq by lia. subst last.
      destruct i; reflexivity. }
    rewrite Hrd, list_insert_insert_eq.
    replace (S (pos + i)) with (pos + S i)%nat by lia.
    match goal with
    | |- context [brown_loop k (S i) ?l rnd _ ?d'] =>
        assert (Hlen' : (S i + k <= length d')%nat)
          by (rewrite length_insert; lia);
        destruct (IH (S i) d' l eq_refl Hlen') as (Hpos & Hl & Hget)
    end.
    cbv zeta. split; [rewrite Hpos; lia|].
    split; [rewrite Hl; apply length_insert|].
    intros j. rewrite Hget.
    destruct (decide (j = i)) as [->|Hne].
    + case_decide; [lia|]. case_decide; [|lia].
      now rewrite list_lookup_insert_eq by lia.
    + rewrite list_lookup_insert_ne by congruence.
      repeat case_decide; try lia; reflexivity.
Qed.

End Noise.

Section NoiseClaims.

Local Open Scope float_scope.

(** C7. Pink noise: sample [i] of the generated buffer is
    [(b0 + b1 + b2 + b3 + b4 + b5 + b6 + w × 0.5362) × 0.11], stored in the
    [Float32Array], where [b0..b5] have already been updated from the white
    sample [w] of this iteration with their decay/weight pairs and [b6] is
    still the carry [w' × 0.115926] of the previous iteration's white
    sample [w'] (0 at the first sample); all seven variables start at 0,
    and the generator draws one white sample per output sample. *)
Theorem pink_one_sample_lag (rnd : nat -> float) (pos N : nat) :
  let w := white_sample rnd pos in
  let r := generate pink N rnd pos in
  length (fst r) = N /\
  snd r = (pos + N)%nat /\
  (forall i : nat,
     fst r !! i =
       if decide (i < N)%nat
       then Some (Math_fround
                    ((pole w 0.99886 0.0555179 i + pole w 0.99332 0.0750759 i
                      + pole w 0.96900 0.1538520 i + pole w 0.86650 0.3104856 i
                      + pole w 0.55000 0.5329522 i + pole5 w i
                      + carry w i + w i * 0.5362) * 0.11))
       else None) /\
  carry w 0 = 0 /\
  (forall i : nat, carry w (S i) = w i * 0.115926) /\
  (forall (decay weight : float) (i : nat),
     pole w decay weight i
     = decay * match i with O => 0 | S j => pole w decay weight j end
       + w i * weight) /\
  (forall i : nat,
     pole5 w i
     = -0.7616 * match i with O => 0 | S j => pole5 w j end - w i * 0.0168980).
Proof.
  intros w r.
  pose proof (pink_loop_spec rnd pos N 0 (replicate N 0) (pink_before rnd pos 0)
                eq_refl) as H.
  rewrite length_replicate, Nat.add_0_r in H.
  destruct (H (Nat.le_refl N)) as (Hpos & Hlen & Hget). clear H.
  subst r.
  change (generate pink N rnd pos)
    with (pink_loop N 0 (pink_before rnd pos 0) rnd pos (replicate N 0)).
  split; [exact Hlen|]. split; [exact Hpos|].
  split.
  - intros i. rewrite Hget.
    case_decide; case_decide; try lia; [reflexivity|].
    apply lookup_replicate_None. lia.
  - repeat split; try reflexivity.
    + intros. apply pole_unfold.
    + intros. apply pole5_unfold.
Qed.

(** C8, as the code has it. Brown noise: the loop keeps the leaky walk
    [last = (last + 0.02 × w) / 1.02] (from 0, as the typed array holds it)
    and sample [i] of the buffer is that state × 3.5; the value fed back
    into the next iteration is the state before the × 3.5 scaling. *)
Theorem brown_feedback_before_scaling (rnd : nat -> float) (pos N : nat) :
  let w := white_sample rnd pos in
  let r := generate brown N rnd pos in
  length (fst r) = N /\
  snd r = (pos + N)%nat /\
  (forall i : nat,
     fst r !! i =
       if decide (i < N)%nat
       then Some (Math_fround (leak w i * 3.5))
       else None) /\
  (forall i : nat,
     leak w i
     = Math_fround
         ((match i with O => 0 | S j => leak w j end + 0.02 * w i) / 1.02)).
Proof.
  intros w r.
  pose proof (brown_loop_spec rnd pos N 0 (replicate N 0) 0 eq_refl) as H.
  rewrite length_replicate, Nat.add_0_r in H.
  destruct (H (Nat.le_refl N)) as (Hpos & Hlen & Hget). clear H.
  subst r.
  change (generate brown N rnd pos)
    with (brown_loop N 0 0 rnd pos (replicate N 0)).
  split; [exact Hlen|]. split; [exact Hpos|].
  split.
  - intros i. rewrite Hget.
    case_decide; case_decide; try lia; [reflexivity|].
    apply lookup_replicate_None. lia.
  - intros i. destruct i; reflexivity.
Qed.

(** C8, as stated, fails. With [Math.random] constantly 0.75 (white sample
    0.5) the second sample is not [((out0 + 0.02 × w) / 1.02) × 3.5] for the
    first output sample [out0], stored in the array or not: the code gives
    about 0.068 where the stated recurrence gives about 0.152. *)
Lemma brown_not_fed_by_output :
  let rnd := fun _ : nat => 0.75 in
  let w := white_sample rnd 0 in
  let d := fst (generate brown 2 rnd 0) in
  w 1%nat = 0.5 /\
  read d 1 <> ((read d 0 + 0.02 * w 1%nat) / 1.02) * 3.5 /\
  read d 1 <> Math_fround (((read d 0 + 0.02 * w 1%nat) / 1.02) * 3.5) /\
  read d 1 <> brown_fed_by_output w 1 /\
  (read d 1 <? 0.07) = true /\
  (0.15 <? ((read d 0 + 0.02 * w 1%nat) / 1.02) * 3.5) = true.
Proof.
  assert (N : forall x y : float, PrimFloat.Leibniz.eqb x y = false -> x <> y).
  { intros x y H ->. rewrite (proj2 (FloatAxioms.Leibniz.eqb_spec y y) eq_refl) in H.
    discriminate H. }
  repeat split; try reflexivity; apply N; vm_compute; reflexivity.
Qed.

End NoiseClaims.

(** Projections of record updates, through the one-line helpers. *)
Ltac proj :=
  cbn [ctx masterGain limiter analyser sources nodes noiseCache sequencerTimer
       riTimeout _vol _playing graph wires buffers timers timer_seq now
       currentTime random drawn device
       set_ctx set_masterGain set_limiter set_analyser set_sources set_nodes
       set_noiseCache set_sequencerTimer set_riTimeout set_vol set_playing
       set_graph set_wires set_buffers set_timers set_timer_seq set_now
       set_currentTime set_drawn
       create connect disconnect start getCtx setTimeout setInterval clearTimer
       fst snd].

Ltac proj_in H :=
  cbn [ctx masterGain limiter analyser sources nodes noiseCache sequencerTimer
       riTimeout _vol _playing graph wires buffers timers timer_seq now
       currentTime random drawn device
       set_ctx set_masterGain set_limiter set_analyser set_sources set_nodes
       set_noiseCache set_sequencerTimer set_riTimeout set_vol set_playing
       set_graph set_wires set_buffers set_timers set_timer_seq set_now
       set_currentTime set_drawn
       create connect disconnect start getCtx setTimeout setInterval clearTimer
       fst snd] in H.

(** ** What every action preserves: the master gain stays safe and the noise
       cache keeps its entries *)

Section Preserved.

Local Open Scope float_scope.

(** Every number programmed into the master gain is not above the cap. *)
Definition chain_safe (mg : option AudioParam) : Prop :=
  forall g, mg = Some g -> Forall (not_above MAX_SAFE_GAIN) (programmed g).

(** The part of the state the two properties talk about. *)
Definition view (e : engine)
    : option AudioParam * gmap string nat * list Float32Array :=
  (masterGain e, noiseCache e, buffers e).

Definition keeps (v v' : option AudioParam * gmap string nat * list Float32Array)
  : Prop :=
  (chain_safe (fst (fst v)) -> chain_safe (fst (fst v'))) /\
  (forall (k : string) (b : nat),
     snd (fst v) !! k = Some b -> snd (fst v') !! k = Some b) /\
  (forall (b : nat) (d : Float32Array),
     snd v !! b = Some d -> snd v' !! b = Some d).

Lemma keeps_refl v : keeps v v.
Proof. repeat split; auto. Qed.

Lemma keeps_trans v1 v2 v3 : keeps v2 v3 -> keeps v1 v2 -> keeps v1 v3.
Proof. intros (A & B & C) (D & E & F). repeat split; auto. Qed.

Lemma chain_safe_schedule (a : automation) (g : AudioParam) :
  not_above MAX_SAFE_GAIN (target_of a) ->
  chain_safe (Some g) -> chain_safe (Some (schedule a g)).
Proof.
  intros Ha Hg g' [= <-]. specialize (Hg g eq_refl).
  unfold programmed in *. simpl. rewrite map_app. simpl.
  rewrite app_comm_cons. apply Forall_app. split; [exact Hg|].
  constructor; [exact Ha|constructor].
Qed.

Lemma chain_safe_keeps mg mg' nc bf :
  (chain_safe mg -> chain_safe mg') -> keeps (mg, nc, bf) (mg', nc, bf).
Proof. intros H. repeat split; simpl; auto. Qed.

Lemma fold_left_view {A} (f : engine -> A -> engine) (l : list A) :
  (forall e x, view (f e x) = view e) ->
  forall e, view (fold_left f l e) = view e.
Proof.
  intros Hf. induction l as [|x l IH]; intros e; simpl; [reflexivity|].
  now rewrite IH, Hf.
Qed.

Lemma view_master (e : engine) : keeps (view e) (view (master e)).
Proof.
  unfold master, view. proj.
  destruct (masterGain e) as [g|] eqn:Hg; proj;
    destruct (limiter e); proj; destruct (analyser e); proj;
    rewrite ?Hg; apply chain_safe_keeps; auto;
    intros _ g' [= <-]; repeat constructor.
Qed.

Lemma view_fadeIn (t : float) (e : engine) : keeps (view e) (view (fadeIn t e)).
Proof.
  unfold fadeIn, view.
  destruct (masterGain e) as [g|] eqn:Hg; [|rewrite Hg; apply keeps_refl].
  destruct (ctx e); [|rewrite Hg; apply keeps_refl].
  cbn. apply chain_safe_keeps. intros H.
  apply chain_safe_schedule.
  - apply not_above_max; [apply clampGain_not_above|reflexivity].
  - apply chain_safe_schedule; [reflexivity|exact H].
Qed.

Lemma view_setVolume (v : float) (e : engine) :
  keeps (view e) (view (setVolume v e)).
Proof.
  unfold setVolume, view. cbn.
  destruct (masterGain e) as [g|] eqn:Hg; [|cbn; rewrite Hg; apply keeps_refl].
  destruct (ctx e); [|cbn; rewrite Hg; apply keeps_refl].
  destruct (_playing e); cbn; [|rewrite Hg; apply keeps_refl].
  apply chain_safe_keeps. intros H.
  apply chain_safe_schedule; [apply clampGain_not_above|exact H].
Qed.

Lemma view_cleanup (e : engine) : view (cleanup e) = view e.
Proof.
  unfold cleanup.
  set (E1 := fold_left _ (sources e) e).
  set (E2 := fold_left _ (nodes E1) E1).
  assert (H1 : view E1 = view e) by (apply fold_left_view; reflexivity).
  assert (H2 : view E2 = view E1) by (apply fold_left_view; reflexivity).
  rewrite <- H1, <- H2. proj.
  destruct (sequencerTimer E2); proj; destruct (riTimeout E2); reflexivity.
Qed.

Lemma view_stop (e : engine) : keeps (view e) (view (snd (stop e))).
Proof.
  unfold stop.
  destruct (negb (_playing e) && Nat.eqb (length (sources e)) 0).
  - proj. rewrite view_cleanup. apply keeps_refl.
  - unfold view. cbn.
    destruct (masterGain e) as [g|] eqn:Hg; [|rewrite Hg; apply keeps_refl].
    destruct (ctx e); [|rewrite Hg; apply keeps_refl].
    cbn. apply chain_safe_keeps. intros H.
    apply chain_safe_schedule; [reflexivity|exact H].
Qed.

Lemma view_wire (s : nat) (l : list nat) (e : engine) :
  keeps (view e) (view (wire s l e)).
Proof.
  unfold wire.
  assert (H : forall pe : nat * engine,
             view (snd (fold_left
               (λ (pe : nat * engine) node,
                  (node,
                   set_nodes (nodes (snd pe) ++ [node])
                     (connect (Node (fst pe)) 0 (Node node) 0 (snd pe))))
               l pe)) = view (snd pe)).
  { induction l as [|x l IH]; intros pe; simpl; [reflexivity|].
    now rewrite IH. }
  change (view (connect ?a ?b ?c ?d ?x)) with (view x).
  rewrite H. apply view_master.
Qed.

Lemma view_noiseBuf (c : AudioContext) (t : NoiseColor) (e : engine) :
  keeps (view e) (view (snd (noiseBuf c t e))).
Proof.
  unfold noiseBuf.
  destruct (noiseCache e !! color_name t) as [b|] eqn:Hc;
    [apply keeps_refl|].
  unfold view. proj. split; [auto|]. cbn [fst snd]. split.
  - intros k b Hk. rewrite lookup_insert_ne; [exact Hk|]. intros <-. congruence.
  - intros b d Hb. rewrite lookup_app_l; [exact Hb|]. eapply lookup_lt_Some, Hb.
Qed.

Lemma view_updateOscFrequency (f : float) (e : engine) :
  view (updateOscFrequency f e) = view e.
Proof.
  unfold updateOscFrequency. destruct (ctx e); [|reflexivity].
  now apply fold_left_view.
Qed.

Lemma view_updateFilterFrequency (f : float) (e : engine) :
  view (updateFilterFrequency f e) = view e.
Proof.
  unfold updateFilterFrequency. destruct (ctx e); [|reflexivity].
  now apply fold_left_view.
Qed.

Lemma view_gain_setTargetAtTime n x t tc e e' :
  gain_setTargetAtTime n x t tc e = Some e' -> view e' = view e.
Proof.
  unfold gain_setTargetAtTime.
  destruct (graph e !! n) as [[]|]; intros [= <-]; reflexivity.
Qed.

(** What a completed [step] did. *)
Lemma step_inv fuel gains cur e cur' e' :
  step fuel gains cur e = Done (cur', e') ->
  (_playing e = false /\ cur' = cur /\ e' = e) \/
  (_playing e = true /\
   exists e1 pos g,
     ((cur < 0)%Z /\ e1 = e \/
      (0 <= cur)%Z /\
      exists g0, at_index gains cur = Some g0 /\
        gain_setTargetAtTime g0 0 (currentTime e) 0.015 e = Some e1) /\
     draw_next fuel cur (random e1) (drawn e1) = Done (cur', pos) /\
     at_index gains cur' = Some g /\
     gain_setTargetAtTime g 0.5 (currentTime e1 + 0.02) 0.015 (set_drawn pos e1)
     = Some e').
Proof.
  unfold step. destruct (_playing e); simpl.
  2: { intros [= <- <-]. left. auto. }
  intros H. right. split; [reflexivity|].
  destruct (0 <=? cur)%Z eqn:Hc.
  - destruct (at_index gains cur) as [g0|] eqn:Hg0; simpl in H; [|discriminate].
    destruct (gain_setTargetAtTime g0 _ _ _ e) as [e1|] eqn:G0; simpl in H;
      [|discriminate].
    destruct (draw_next _ _ _ _) as [[next pos]| |] eqn:D; simpl in H;
      try discriminate.
    destruct (at_index gains next) as [g|] eqn:Hg; simpl in H; [|discriminate].
    destruct (gain_setTargetAtTime g _ _ _ _) as [e2|] eqn:G; simpl in H;
      [|discriminate].
    injection H as <- <-. exists e1, pos, g.
    split; [right; split; [lia|eauto]|].
    split; [exact D|]. split; [exact Hg|exact G].
  - simpl in H.
    destruct (draw_next _ _ _ _) as [[next pos]| |] eqn:D; simpl in H;
      try discriminate.
    destruct (at_index gains next) as [g|] eqn:Hg; simpl in H; [|discriminate].
    destruct (gain_setTargetAtTime g _ _ _ _) as [e2|] eqn:G; simpl in H;
      [|discriminate].
    injection H as <- <-. exists e, pos, g.
    split; [left; split; [lia|reflexivity]|].
    split; [exact D|]. split; [exact Hg|exact G].
Qed.

Lemma view_step fuel gains cur e cur' e' :
  step fuel gains cur e = Done (cur', e') -> view e' = view e.
Proof.
  intros H. apply step_inv in H.
  destruct H as [(_ & _ & ->)|(_ & e1 & pos & g & H1 & _ & _ & G)];
    [reflexivity|].
  rewrite (view_gain_setTargetAtTime _ _ _ _ _ _ G).
  destruct H1 as [[_ ->]|(_ & g0 & _ & G0)]; [reflexivity|].
  now rewrite <- (view_gain_setTargetAtTime _ _ _ _ _ _ G0).
Qed.

(** Record updates and one-line helpers leave the view alone. *)
Lemma same_view_set_ctx b x : view (set_ctx b x) = view x.
Proof. reflexivity. Qed.
Lemma same_view_set_limiter b x : view (set_limiter b x) = view x.
Proof. reflexivity. Qed.
Lemma same_view_set_analyser b x : view (set_analyser b x) = view x.
Proof. reflexivity. Qed.
Lemma same_view_set_sources b x : view (set_sources b x) = view x.
Proof. reflexivity. Qed.
Lemma same_view_set_nodes b x : view (set_nodes b x) = view x.
Proof. reflexivity. Qed.
Lemma same_view_set_sequencerTimer b x : view (set_sequencerTimer b x) = view x.
Proof. reflexivity. Qed.
Lemma same_view_set_riTimeout b x : view (set_riTimeout b x) = view x.
Proof. reflexivity. Qed.
Lemma same_view_set_vol b x : view (set_vol b x) = view x.
Proof. reflexivity. Qed.
Lemma same_view_set_playing b x : view (set_playing b x) = view x.
Proof. reflexivity. Qed.
Lemma same_view_set_graph b x : view (set_graph b x) = view x.
Proof. reflexivity. Qed.
Lemma same_view_set_wires b x : view (set_wires b x) = view x.
Proof. reflexivity. Qed.
Lemma same_view_set_timers b x : view (set_timers b x) = view x.
Proof. reflexivity. Qed.
Lemma same_view_set_timer_seq b x : view (set_timer_seq b x) = view x.
Proof. reflexivity. Qed.
Lemma same_view_set_now b x : view (set_now b x) = view x.
Proof. reflexivity. Qed.
Lemma same_view_set_currentTime b x : view (set_currentTime b x) = view x.
Proof. reflexivity. Qed.
Lemma same_view_set_drawn b x : view (set_drawn b x) = view x.
Proof. reflexivity. Qed.
Lemma same_view_connect a b c d x : view (connect a b c d x) = view x.
Proof. reflexivity. Qed.
Lemma same_view_disconnect a x : view (disconnect a x) = view x.
Proof. reflexivity. Qed.
Lemma same_view_start a x : view (start a x) = view x.
Proof. reflexivity. Qed.
Lemma same_view_clearTimer a x : view (clearTimer a x) = view x.
Proof. reflexivity. Qed.
Lemma same_view_setTimeout a b x : view (snd (setTimeout a b x)) = view x.
Proof. reflexivity. Qed.
Lemma same_view_setInterval a b x : view (snd (setInterval a b x)) = view x.
Proof. reflexivity. Qed.
Lemma same_view_create a x : view (snd (create a x)) = view x.
Proof. reflexivity. Qed.
Lemma same_view_getCtx x : view (snd (getCtx x)) = view x.
Proof. reflexivity. Qed.

Ltac strip1 :=
  lazymatch goal with
  | |- keeps _ (view (set_ctx ?b ?x)) => rewrite (same_view_set_ctx b x)
  | |- keeps _ (view (set_limiter ?b ?x)) => rewrite (same_view_set_limiter b x)
  | |- keeps _ (view (set_analyser ?b ?x)) => rewrite (same_view_set_analyser b x)
  | |- keeps _ (view (set_sources ?b ?x)) => rewrite (same_view_set_sources b x)
  | |- keeps _ (view (set_nodes ?b ?x)) => rewrite (same_view_set_nodes b x)
  | |- keeps _ (view (set_sequencerTimer ?b ?x)) => rewrite (same_view_set_sequencerTimer b x)
  | |- keeps _ (view (set_riTimeout ?b ?x)) => rewrite (same_view_set_riTimeout b x)
  | |- keeps _ (view (set_vol ?b ?x)) => rewrite (same_view_set_vol b x)
  | |- keeps _ (view (set_playing ?b ?x)) => rewrite (same_view_set_playing b x)
  | |- keeps _ (view (set_graph ?b ?x)) => rewrite (same_view_set_graph b x)
  | |- keeps _ (view (set_wires ?b ?x)) => rewrite (same_view_set_wires b x)
  | |- keeps _ (view (set_timers ?b ?x)) => rewrite (same_view_set_timers b x)
  | |- keeps _ (view (set_timer_seq ?b ?x)) => rewrite (same_view_set_timer_seq b x)
  | |- keeps _ (view (set_now ?b ?x)) => rewrite (same_view_set_now b x)
  | |- keeps _ (view (set_currentTime ?b ?x)) => rewrite (same_view_set_currentTime b x)
  | |- keeps _ (view (set_drawn ?b ?x)) => rewrite (same_view_set_drawn b x)
  | |- keeps _ (view (connect ?a ?b ?c ?d ?x)) => rewrite (same_view_connect a b c d x)
  | |- keeps _ (view (disconnect ?a ?x)) => rewrite (same_view_disconnect a x)
  | |- keeps _ (view (start ?a ?x)) => rewrite (same_view_start a x)
  | |- keeps _ (view (clearTimer ?a ?x)) => rewrite (same_view_clearTimer a x)
  | |- keeps _ (view (snd (setTimeout ?a ?b ?x))) => rewrite (same_view_setTimeout a b x)
  | |- keeps _ (view (snd (setInterval ?a ?b ?x))) => rewrite (same_view_setInterval a b x)
  | |- keeps _ (view (snd (create ?a ?x))) => rewrite (same_view_create a x)
  | |- keeps _ (view (snd (getCtx ?x))) => rewrite (same_view_getCtx x)
  end.

Ltac strip := repeat strip1.

(** Peels a method body, operation by operation. *)
Ltac peel1 :=
  lazymatch goal with
  | |- keeps _ (view (fadeIn _ _)) => eapply keeps_trans; [apply view_fadeIn|]
  | |- keeps _ (view (master _)) => eapply keeps_trans; [apply view_master|]
  | |- keeps _ (view (wire _ _ _)) => eapply keeps_trans; [apply view_wire|]
  | |- keeps _ (view (snd (noiseBuf _ _ _))) =>
      eapply keeps_trans; [apply view_noiseBuf|]
  | |- keeps _ (view (snd (stop _))) => eapply keeps_trans; [apply view_stop|]
  | |- keeps ?v (view (snd (?a, ?x))) => change (keeps v (view x))
  | |- _ => strip1
  end.

Ltac peel :=
  lazy beta iota zeta delta [create getCtx];
  repeat peel1; try apply keeps_refl.

Lemma view_add_tone c acc r :
  keeps (view (snd acc)) (view (snd (add_tone c acc r))).
Proof. unfold add_tone. peel. Qed.

Lemma view_build c e :
  keeps (view e) (view (snd (playCoordinatedReset_build c e))).
Proof.
  unfold playCoordinatedReset_build.
  change (snd (?a, ?b)) with b.
  eapply keeps_trans; [apply view_fadeIn|]. strip.
  assert (H : forall l acc,
             keeps (view (snd acc)) (view (snd (fold_left (add_tone c) l acc)))).
  { induction l as [|x l IH]; intros acc; simpl; [apply keeps_refl|].
    eapply keeps_trans; [apply IH|apply view_add_tone]. }
  eapply keeps_trans; [apply H|]. cbn [snd]. peel.
Qed.

Lemma view_construct (m : mode) (e : engine) :
  keeps (view e) (view (construct m e)).
Proof.
  destruct m; cbn [construct].
  - unfold playTone_body. peel.
  - unfold playNoise_body. destruct (truthy centerFreq); peel.
  - unfold playNotchedNoise_body. peel.
  - apply view_build.
  - unfold playAM_body. peel.
  - unfold playBinaural_body. peel.
  - unfold playResidualInhibition_body, playTone_body. peel.
  - unfold playPhaseCancellation_body. peel.
Qed.

Lemma Done_inj {A} (x y : A) : Done x = Done y -> x = y.
Proof. now intros [= ->]. Qed.

Lemma bind_Done_inv {A B} (x : outcome A) (f : A -> outcome B) (b : B) :
  x ≫= f = Done b -> exists a, x = Done a /\ f a = Done b.
Proof. destruct x; simpl; [eauto|discriminate|discriminate]. Qed.

Lemma view_CR_body fuel c t e e' :
  playCoordinatedReset_body fuel c t e = Done e' -> keeps (view e) (view e').
Proof.
  unfold playCoordinatedReset_body.
  pose proof (view_build c e) as Hb.
  set (b := playCoordinatedReset_build c e) in *. clearbody b.
  intros H.
  apply bind_Done_inv in H as ([cur E] & S & H).
  apply Done_inj in H. rewrite <- H.
  rewrite same_view_set_sequencerTimer, same_view_setInterval.
  rewrite (view_step _ _ _ _ _ _ S).
  exact Hb.
Qed.

Lemma view_resume fuel m e e' :
  resume fuel m e = Done e' -> keeps (view e) (view e').
Proof.
  destruct m; try apply view_CR_body;
    intros H; apply Done_inj in H; rewrite <- H; apply view_construct.
Qed.

Lemma view_fire fuel id e e' :
  fire fuel id e = Done e' -> keeps (view e) (view e').
Proof.
  unfold fire. destruct (timers e !! id) as [t|];
    [|intros H; injection H as <-; apply keeps_refl].
  set (E := match interval t with Some _ => _ | None => _ end).
  assert (HE : view E = view e) by (unfold E; destruct (interval t); reflexivity).
  rewrite <- HE. clearbody E.
  destruct (handler t).
  - intros H; injection H as <-. rewrite view_cleanup. apply keeps_refl.
  - destruct (step _ _ _ _) as [[c E']| |] eqn:S; simpl; try discriminate.
    intros H; injection H as <-.
    rewrite same_view_set_timers, (view_step _ _ _ _ _ _ S). apply keeps_refl.
  - intros H; injection H as <-. apply view_stop.
  - intros H; injection H as <-. split; [intros _ g; discriminate|].
    split; auto.
Qed.

Lemma view_exec fuel a e e' :
  exec fuel a e = Done e' -> keeps (view e) (view e').
Proof.
  destruct a; cbn [exec]; try (intros H; injection H as <-).
  - apply view_stop.
  - apply view_setVolume.
  - rewrite view_updateOscFrequency. apply keeps_refl.
  - rewrite view_updateFilterFrequency. apply keeps_refl.
  - unfold destroy. rewrite same_view_setTimeout. apply view_stop.
  - apply view_resume.
  - apply view_fire.
  - apply keeps_refl.
Qed.

(** A run of actions, in order. *)
Fixpoint run (fuel : nat) (l : list action) (e : engine) : outcome engine :=
  match l with
  | [] => Done e
  | a :: l => e ← exec fuel a e; run fuel l e
  end.

Lemma view_run fuel l :
  forall e e', run fuel l e = Done e' -> keeps (view e) (view e').
Proof.
  induction l as [|a l IH]; intros e e'; simpl.
  - intros [= <-]. apply keeps_refl.
  - destruct (exec fuel a e) as [E| |] eqn:X; simpl; try discriminate.
    intros H. eapply keeps_trans; [apply (IH _ _ H)|apply (view_exec _ _ _ _ X)].
Qed.

Lemma view_reachable dev rnd e :
  reachable dev rnd e -> chain_safe (masterGain e).
Proof.
  induction 1 as [|fuel a e e' _ IH X].
  - intros g. discriminate.
  - exact (proj1 (view_exec _ _ _ _ X) IH).
Qed.

End Preserved.

(** ** The gain ceiling *)

Section GainCeiling.

Local Open Scope float_scope.

(** Between two node stores: a node is untouched, or it is a gain node
    that received more automation events, each a target of 0 or of 0.5. *)
Definition tone_writes (G G' : list AudioNode) : Prop :=
  forall n : nat,
    G' !! n = G !! n \/
    exists p evs,
      G !! n = Some (GainNode p) /\
      G' !! n = Some (GainNode {| value := value p; events := events p ++ evs |}) /\
      Forall (λ a, target_of a = 0 \/ target_of a = 0.5) evs.

Lemma tone_writes_refl G : tone_writes G G.
Proof. intros n. now left. Qed.

Lemma tone_writes_trans G1 G2 G3 :
  tone_writes G1 G2 -> tone_writes G2 G3 -> tone_writes G1 G3.
Proof.
  intros H12 H23 n.
  destruct (H23 n) as [->|(p2 & ev2 & E2 & E3 & F2)]; [apply H12|].
  destruct (H12 n) as [E|(p1 & ev1 & E1 & E2' & F1)].
  - right. exists p2, ev2. rewrite <- E. auto.
  - right. rewrite E2 in E2'. injection E2' as ->.
    exists p1, (ev1 ++ ev2). split; [exact E1|]. split.
    + rewrite E3. simpl. now rewrite app_assoc.
    + now apply Forall_app.
Qed.

Lemma tone_writes_set g x t tc e e' :
  x = 0 \/ x = 0.5 ->
  gain_setTargetAtTime g x t tc e = Some e' ->
  tone_writes (graph e) (graph e').
Proof.
  intros Hx. unfold gain_setTargetAtTime.
  destruct (graph e !! g) as [[| |p| |]|] eqn:Hg; try discriminate.
  intros [= <-] n. proj.
  destruct (decide (n = g)) as [->|Hne].
  - right. exists p, [SetTargetAtTime x t tc].
    split; [exact Hg|]. split.
    + rewrite list_lookup_insert_eq; [reflexivity|]. eapply lookup_lt_Some, Hg.
    + constructor; [exact Hx|constructor].
  - left. now rewrite list_lookup_insert_ne.
Qed.

Lemma step_tone_writes fuel gains cur e cur' e' :
  step fuel gains cur e = Done (cur', e') ->
  tone_writes (graph e) (graph e').
Proof.
  intros H. apply step_inv in H.
  destruct H as [(_ & _ & ->)|(_ & e1 & pos & g & H1 & _ & _ & G)];
    [apply tone_writes_refl|].
  eapply tone_writes_trans.
  - destruct H1 as [[_ ->]|(_ & g0 & _ & G0)]; [apply tone_writes_refl|].
    eapply tone_writes_set, G0. now left.
  - change (graph e1) with (graph (set_drawn pos e1)).
    eapply tone_writes_set, G. now right.
Qed.

(** C1, as the code has it. In every state the engine can reach, every
    number programmed into the master gain (its initial value, the fade-in
    floor and target, the [setVolume] target, the fade-out target) is not
    above [MAX_SAFE_GAIN] = 0.45; the sequencer, for its part, programs the
    per-tone gains with targets 0 and 0.5 only, and 0.5 is above 0.45. *)
Theorem master_gain_never_above_cap :
  (forall dev rnd e, reachable dev rnd e ->
     forall g, masterGain e = Some g ->
               Forall (λ x, (MAX_SAFE_GAIN <? x) = false) (programmed g)) /\
  (forall v, (MAX_SAFE_GAIN <? clampGain v) = false) /\
  (forall fuel gains cur e cur' e',
     step fuel gains cur e = Done (cur', e') ->
     forall n : nat,
       graph e' !! n = graph e !! n \/
       exists p evs,
         graph e !! n = Some (GainNode p) /\
         graph e' !! n
         = Some (GainNode {| value := value p; events := events p ++ evs |}) /\
         Forall (λ a, target_of a = 0 \/ target_of a = 0.5) evs) /\
  (MAX_SAFE_GAIN <? 0.5) = true.
Proof.
  split; [|split; [|split]].
  - intros dev rnd e H. exact (view_reachable dev rnd e H).
  - exact clampGain_not_above.
  - exact step_tone_writes.
  - reflexivity.
Qed.

(** A machine to run examples on: contexts at 4 samples per second, and a
    [Math.random] that alternates 0.1 and 0.9. *)
Definition toy_device : AudioContext :=
  {| sampleRate := 4; suspended := true; closed := false |}.

Definition alternating (k : nat) : float := if Nat.even k then 0.1 else 0.9.

(** C1, as stated, fails. On a fresh engine, [playCoordinatedReset(4000,
    250)] with the first draw 0.1 selects tone 0 and schedules the target
    0.5 on its gain node (node 1), above 0.45. *)
Lemma sequencer_target_above_cap :
  exists e' p,
    playCoordinatedReset 1 4000 (Some 250) (new_engine toy_device alternating)
    = Done e' /\
    graph e' !! 1%nat = Some (GainNode p) /\
    events p = [SetTargetAtTime 0.5 0.02 0.015] /\
    (MAX_SAFE_GAIN <? 0.5) = true.
Proof.
  eexists _, _. split; [vm_compute; reflexivity|].
  split; [reflexivity|]. split; reflexivity.
Qed.

End GainCeiling.

(** ** Volume changes during playback *)

Section Volume.

Local Open Scope float_scope.

(** While a session plays, [setVolume(v)] schedules the master gain towards
    [clampGain(v)]: no waveform scalar takes part. *)
Lemma setVolume_target (v : float) (e : engine) (g : AudioParam) (c : AudioContext) :
  masterGain e = Some g -> ctx e = Some c -> _playing e = true ->
  masterGain (setVolume v e)
  = Some (schedule (SetTargetAtTime (clampGain v) (currentTime e) 0.05) g).
Proof.
  intros Hg Hc Hp. unfold setVolume. proj. now rewrite Hg, Hc, Hp.
Qed.

(** C2 fails on the code. After [await playTone(1000, 'square')] on a fresh
    engine the fade-in targets 0.12 × 0.15 = 0.018; [setVolume(0.9)] then
    schedules the master gain towards 0.45, not towards
    0.45 × 0.15 = 0.0675. *)
Lemma setVolume_drops_waveform_scalar :
  exists e1 g,
    playTone 1000 square (new_engine toy_device alternating) = Done e1 /\
    masterGain (setVolume 0.9 e1) = Some g /\
    events g =
      [SetValueAtTime 0.0001 0;
       ExponentialRampToValueAtTime 0.018 0.35;
       SetTargetAtTime 0.45 0 0.05] /\
    clampGain 0.9 * default 1 (GAIN_SCALAR !! wave_name square) = 0.0675 /\
    (0.0675 <? 0.45) = true.
Proof.
  eexists _, _. split; [vm_compute; reflexivity|].
  split; [vm_compute; reflexivity|].
  split; [reflexivity|]. split; reflexivity.
Qed.

End Volume.

(** ** Stopping *)

Section Stop.

Local Open Scope float_scope.

Lemma cleanup_sources_fold (l : list nat) :
  forall e, exists G W,
    fold_left
      (λ e s, disconnect (Node s) (set_graph (alter stop_source s (graph e)) e))
      l e
    = set_wires W (set_graph G e) /\ length G = length (graph e).
Proof.
  induction l as [|s l IH]; intros e; simpl.
  - exists (graph e), (wires e). split; [now destruct e|reflexivity].
  - destruct (IH (disconnect (Node s)
                    (set_graph (alter stop_source s (graph e)) e)))
      as (G & W & -> & HG).
    exists G, W. split; [reflexivity|].
    rewrite HG. proj. apply length_alter.
Qed.

Lemma cleanup_nodes_fold (l : list nat) :
  forall e, exists W,
    fold_left (λ e n, disconnect (Node n) e) l e = set_wires W e.
Proof.
  induction l as [|s l IH]; intros e; simpl.
  - exists (wires e). now destruct e.
  - destruct (IH (disconnect (Node s) e)) as (W & ->).
    exists W. reflexivity.
Qed.

(** Which fields [cleanup] writes. *)
Lemma cleanup_shape (e : engine) :
  exists G W T,
    cleanup e
    = set_playing false
        (set_riTimeout None
           (set_sequencerTimer None
              (set_timers T
                 (set_nodes [] (set_sources [] (set_wires W (set_graph G e)))))))
    /\ length G = length (graph e)
    /\ (forall id, T !! id = None \/ T !! id = timers e !! id).
Proof.
  unfold cleanup.
  destruct (cleanup_sources_fold (sources e) e) as (G & W1 & -> & HG).
  destruct (cleanup_nodes_fold (nodes (set_wires W1 (set_graph G e)))
              (set_wires W1 (set_graph G e))) as (W & ->).
  proj.
  destruct e as [c mg lim an src nds nc [s|] [r|] vol pl g w bufs tm ts nw ct
                   rnd dr dev]; proj_in HG; proj.
  - exists G, W, (delete r (delete s tm)). split; [reflexivity|].
    split; [exact HG|]. intros id.
    destruct (decide (id = r)) as [->|?]; [left; apply lookup_delete_eq|].
    rewrite lookup_delete_ne by congruence.
    destruct (decide (id = s)) as [->|?]; [left; apply lookup_delete_eq|].
    right. now rewrite lookup_delete_ne by congruence.
  - exists G, W, (delete s tm). split; [reflexivity|].
    split; [exact HG|]. intros id.
    destruct (decide (id = s)) as [->|?]; [left; apply lookup_delete_eq|].
    right. now rewrite lookup_delete_ne by congruence.
  - exists G, W, (delete r tm). split; [reflexivity|].
    split; [exact HG|]. intros id.
    destruct (decide (id = r)) as [->|?]; [left; apply lookup_delete_eq|].
    right. now rewrite lookup_delete_ne by congruence.
  - exists G, W, tm. split; [reflexivity|].
    split; [exact HG|]. now right.
Qed.

(** The session is active: a playing flag or a live source. *)
Definition active (e : engine) : bool :=
  negb (negb (_playing e) && Nat.eqb (length (sources e)) 0).

(** C4. With an active session, [stop()] returns a promise that the
    callback of a fresh timeout resolves; the timeout is due
    [FADE_OUT_SEC × 1000 + 60] = 180 ms after the call, no earlier than
    [FADE_OUT_SEC] (120 ms) and no later than [FADE_OUT_SEC] + 100 ms
    (220 ms); until it fires the sources stay and the flag is unchanged, and
    firing it tears the session down at that time.  With no active session
    [stop()] tears down on the spot and returns a resolved promise, and no
    time passes. *)
Theorem stop_resolves_after_fade_out (e : engine) :
  if active e then
    exists id : nat,
      fst (stop e) = ResolvedBy id /\
      timers (snd (stop e)) !! id
      = Some {| due := now e + 180; interval := None; handler := StopTimeout |} /\
      (now e + ToInt32 (FADE_OUT_SEC * 1000) <= now e + 180
       <= now e + ToInt32 (FADE_OUT_SEC * 1000 + 100))%Z /\
      sources (snd (stop e)) = sources e /\
      _playing (snd (stop e)) = _playing e /\
      (forall fuel, fire fuel id (snd (stop e)) = Done (await_stop e)) /\
      now (await_stop e) = Z.max (now e) (now e + 180) /\
      sources (await_stop e) = [] /\
      _playing (await_stop e) = false
  else
    stop e = (Resolved, cleanup e) /\
    await_stop e = cleanup e /\
    now (cleanup e) = now e /\
    sources (cleanup e) = [] /\
    _playing (cleanup e) = false /\
    (forall id, timers (cleanup e) !! id = None
                \/ timers (cleanup e) !! id = timers e !! id).
Proof.
  assert (D : Z.max 0 (ToInt32 (FADE_OUT_SEC * 1000 + 60)) = 180%Z)
    by (vm_compute; reflexivity).
  assert (A1 : ToInt32 (FADE_OUT_SEC * 1000) = 120%Z)
    by (vm_compute; reflexivity).
  assert (A2 : ToInt32 (FADE_OUT_SEC * 1000 + 100) = 220%Z)
    by (vm_compute; reflexivity).
  unfold active, await_stop, fire, stop.
  destruct (negb (_playing e) && Nat.eqb (length (sources e)) 0); cbn [negb].
  - split; [reflexivity|]. split; [reflexivity|].
    destruct (cleanup_shape e) as (G & W & T & -> & _ & HT). proj.
    repeat split. exact HT.
  - set (E := match masterGain e with
              | Some g => match ctx e with Some _ => _ | None => e end
              | None => e
              end).
    assert (HE : timer_seq E = timer_seq e /\ now E = now e /\
                 sources E = sources e /\ _playing E = _playing e).
    { unfold E. destruct (masterGain e); [destruct (ctx e)|]; auto. }
    destruct HE as (H1 & H2 & H3 & H4).
    exists (timer_seq e). proj. rewrite D, H1, H2, H3, H4.
    rewrite lookup_insert_eq. proj.
    split; [reflexivity|]. split; [reflexivity|].
    split; [rewrite A1, A2; lia|].
    split; [reflexivity|]. split; [reflexivity|].
    split; [reflexivity|].
    match goal with
    | |- context [cleanup ?x] =>
        destruct (cleanup_shape x) as (G & W & T & -> & _ & _)
    end.
    proj. cbn [due]. auto.
Qed.

End Stop.

(** ** The noise cache *)

Section NoiseCache.

Local Open Scope float_scope.

Lemma noiseBuf_cached (c : AudioContext) (color : NoiseColor) (e : engine) :
  noiseCache (snd (noiseBuf c color e)) !! color_name color
  = Some (fst (noiseBuf c color e)).
Proof.
  unfold noiseBuf.
  destruct (noiseCache e !! color_name color) as [b|] eqn:H; proj;
    [exact H|apply lookup_insert_eq].
Qed.

Lemma noiseBuf_hit (c : AudioContext) (color : NoiseColor) (e : engine) (b : nat) :
  noiseCache e !! color_name color = Some b -> noiseBuf c color e = (b, e).
Proof. intros H. unfold noiseBuf. now rewrite H. Qed.

(** C9. Let a first request for colour [color] return buffer [b].  After
    any run of engine actions (calls, resumed [play*] bodies, timer
    callbacks), a later request for the same colour returns the same
    reference [b] and leaves the whole state as it was: nothing is generated,
    no random number is drawn, no buffer is allocated; and the samples of
    [b] are the ones it had after the first request.  When the first request
    found no entry, those samples are the ones the generator produced then. *)
Theorem noise_buffer_cached (c c' : AudioContext) (color : NoiseColor)
    (fuel : nat) (l : list action) (e e2 : engine) :
  run fuel l (snd (noiseBuf c color e)) = Done e2 ->
  noiseBuf c' color e2 = (fst (noiseBuf c color e), e2) /\
  (forall d : Float32Array,
     buffers (snd (noiseBuf c color e)) !! fst (noiseBuf c color e) = Some d ->
     buffers e2 !! fst (noiseBuf c color e) = Some d) /\
  (noiseCache e !! color_name color = None ->
   buffers (snd (noiseBuf c color e)) !! fst (noiseBuf c color e)
   = Some (fst (generate color (2 * sampleRate c) (random e) (drawn e)))).
Proof.
  intros H. apply view_run in H. destruct H as (_ & Hc & Hb).
  unfold view in Hc, Hb. cbn [fst snd] in Hc, Hb.
  split; [|split].
  - apply noiseBuf_hit, Hc, noiseBuf_cached.
  - intros d. apply Hb.
  - intros Hn. unfold noiseBuf. rewrite Hn. proj.
    now rewrite lookup_app_r, Nat.sub_diag by lia.
Qed.

Lemma noise_buffer_cached_witness :
  match run 0 [Call_setVolume 0.5; Resume (Noise pink None None); Call_stop]
          (snd (noiseBuf toy_device pink (new_engine toy_device alternating)))
  with
  | Done e2 => noiseBuf toy_device pink e2 = (0%nat, e2)
  | _ => False
  end.
Proof.
  destruct (run 0 _ _) as [e2| |] eqn:H.
  - exact (proj1 (noise_buffer_cached toy_device toy_device pink 0 _ _ _ H)).
  - vm_compute in H. discriminate H.
  - vm_compute in H. discriminate H.
Defined.

End NoiseCache.

(** ** Which fields the helpers write *)

Section Shapes.

Local Open Scope float_scope.

Lemma master_shape (e : engine) :
  exists c g l a w,
    master e
    = set_wires w
        (set_analyser (Some a)
           (set_limiter (Some l) (set_masterGain (Some g) (set_ctx (Some c) e)))).
Proof.
  exists (fst (getCtx e)), (default (param 0) (masterGain e)),
    (default {| threshold := -3; knee := 6; ratio := 20;
                attack := 0.002; release := 0.05 |} (limiter e)),
    (default {| fftSize := 2048 |} (analyser e)), (wires (master e)).
  destruct e as [c [g|] [l|] [a|] src nds nc st rt vol pl gr w bufs tm ts nw ct
                   rnd dr dev]; reflexivity.
Qed.

Lemma fadeIn_shape (t : float) (e : engine) :
  exists g, fadeIn t e = set_masterGain g e.
Proof.
  exists (masterGain (fadeIn t e)).
  destruct e as [[c|] [g|] l a src nds nc st rt vol pl gr w bufs tm ts nw ct
                   rnd dr dev]; reflexivity.
Qed.

Lemma graph_master e : graph (master e) = graph e.
Proof. destruct (master_shape e) as (?&?&?&?&?&->). reflexivity. Qed.
Lemma graph_fadeIn t e : graph (fadeIn t e) = graph e.
Proof. destruct (fadeIn_shape t e) as (?&->). reflexivity. Qed.
Lemma sources_master e : sources (master e) = sources e.
Proof. destruct (master_shape e) as (?&?&?&?&?&->). reflexivity. Qed.
Lemma sources_fadeIn t e : sources (fadeIn t e) = sources e.
Proof. destruct (fadeIn_shape t e) as (?&->). reflexivity. Qed.
Lemma nodes_master e : nodes (master e) = nodes e.
Proof. destruct (master_shape e) as (?&?&?&?&?&->). reflexivity. Qed.
Lemma nodes_fadeIn t e : nodes (fadeIn t e) = nodes e.
Proof. destruct (fadeIn_shape t e) as (?&->). reflexivity. Qed.
Lemma playing_master e : _playing (master e) = _playing e.
Proof. destruct (master_shape e) as (?&?&?&?&?&->). reflexivity. Qed.
Lemma playing_fadeIn t e : _playing (fadeIn t e) = _playing e.
Proof. destruct (fadeIn_shape t e) as (?&->). reflexivity. Qed.
Lemma vol_master e : _vol (master e) = _vol e.
Proof. destruct (master_shape e) as (?&?&?&?&?&->). reflexivity. Qed.
Lemma vol_fadeIn t e : _vol (fadeIn t e) = _vol e.
Proof. destruct (fadeIn_shape t e) as (?&->). reflexivity. Qed.
Lemma random_master e : random (master e) = random e.
Proof. destruct (master_shape e) as (?&?&?&?&?&->). reflexivity. Qed.
Lemma random_fadeIn t e : random (fadeIn t e) = random e.
Proof. destruct (fadeIn_shape t e) as (?&->). reflexivity. Qed.
Lemma drawn_master e : drawn (master e) = drawn e.
Proof. destruct (master_shape e) as (?&?&?&?&?&->). reflexivity. Qed.
Lemma drawn_fadeIn t e : drawn (fadeIn t e) = drawn e.
Proof. destruct (fadeIn_shape t e) as (?&->). reflexivity. Qed.
Lemma currentTime_master e : currentTime (master e) = currentTime e.
Proof. destruct (master_shape e) as (?&?&?&?&?&->). reflexivity. Qed.
Lemma currentTime_fadeIn t e : currentTime (fadeIn t e) = currentTime e.
Proof. destruct (fadeIn_shape t e) as (?&->). reflexivity. Qed.
Lemma timers_master e : timers (master e) = timers e.
Proof. destruct (master_shape e) as (?&?&?&?&?&->). reflexivity. Qed.
Lemma timers_fadeIn t e : timers (fadeIn t e) = timers e.
Proof. destruct (fadeIn_shape t e) as (?&->). reflexivity. Qed.
Lemma timer_seq_master e : timer_seq (master e) = timer_seq e.
Proof. destruct (master_shape e) as (?&?&?&?&?&->). reflexivity. Qed.
Lemma timer_seq_fadeIn t e : timer_seq (fadeIn t e) = timer_seq e.
Proof. destruct (fadeIn_shape t e) as (?&->). reflexivity. Qed.
Lemma now_master e : now (master e) = now e.
Proof. destruct (master_shape e) as (?&?&?&?&?&->). reflexivity. Qed.
Lemma now_fadeIn t e : now (fadeIn t e) = now e.
Proof. destruct (fadeIn_shape t e) as (?&->). reflexivity. Qed.
Lemma sequencerTimer_master e : sequencerTimer (master e) = sequencerTimer e.
Proof. destruct (master_shape e) as (?&?&?&?&?&->). reflexivity. Qed.
Lemma sequencerTimer_fadeIn t e : sequencerTimer (fadeIn t e) = sequencerTimer e.
Proof. destruct (fadeIn_shape t e) as (?&->). reflexivity. Qed.
Lemma riTimeout_master e : riTimeout (master e) = riTimeout e.
Proof. destruct (master_shape e) as (?&?&?&?&?&->). reflexivity. Qed.
Lemma riTimeout_fadeIn t e : riTimeout (fadeIn t e) = riTimeout e.
Proof. destruct (fadeIn_shape t e) as (?&->). reflexivity. Qed.
Lemma device_master e : device (master e) = device e.
Proof. destruct (master_shape e) as (?&?&?&?&?&->). reflexivity. Qed.
Lemma device_fadeIn t e : device (fadeIn t e) = device e.
Proof. destruct (fadeIn_shape t e) as (?&->). reflexivity. Qed.

Lemma masterGain_master e :
  masterGain (master e) = Some (default (param 0) (masterGain e)).
Proof.
  unfold master. proj.
  destruct (masterGain e) as [g|] eqn:Hg; proj; destruct (limiter e) as [l|]; proj;
    destruct (analyser e) as [a|]; proj; rewrite ?Hg; reflexivity.
Qed.

Lemma wire_fold_shape (l : list nat) :
  forall pe : nat * engine,
    exists w,
      snd (fold_left
             (λ (pe : nat * engine) node,
                (node,
                 set_nodes (nodes (snd pe) ++ [node])
                   (connect (Node (fst pe)) 0 (Node node) 0 (snd pe))))
             l pe)
      = set_wires w (set_nodes (nodes (snd pe) ++ l) (snd pe)).
Proof.
  induction l as [|x l IH]; intros [s e]; simpl.
  - exists (wires e). rewrite app_nil_r. now destruct e.
  - destruct (IH (x, set_nodes (nodes e ++ [x])
                       (connect (Node s) 0 (Node x) 0 e))) as (w & ->).
    exists w. proj. now rewrite <- app_assoc.
Qed.

Lemma wire_shape (s : nat) (l : list nat) (e : engine) :
  exists c g lim a w,
    wire s l e
    = set_wires w
        (set_nodes (nodes e ++ l)
           (set_analyser (Some a)
              (set_limiter (Some lim)
                 (set_masterGain (Some g) (set_ctx (Some c) e))))).
Proof.
  unfold wire.
  destruct (master_shape e) as (c & g & lim & a & w0 & ->).
  destruct (wire_fold_shape l
              (s, set_wires w0
                    (set_analyser (Some a)
                       (set_limiter (Some lim)
                          (set_masterGain (Some g) (set_ctx (Some c) e))))))
    as (w & ->).
  eexists c, g, lim, a, _. reflexivity.
Qed.

(** The buffer a request for [color] returns in state [e]. *)
Definition buffer_ref (color : NoiseColor) (e : engine) : nat :=
  match noiseCache e !! color_name color with
  | Some b => b
  | None => length (buffers e)
  end.

Lemma noiseBuf_shape (c : AudioContext) (t : NoiseColor) (e : engine) :
  exists nc bf d,
    noiseBuf c t e
    = (buffer_ref t e, set_noiseCache nc (set_buffers bf (set_drawn d e))).
Proof.
  unfold noiseBuf, buffer_ref. destruct (noiseCache e !! color_name t) as [b|].
  - exists (noiseCache e), (buffers e), (drawn e). now destruct e.
  - eexists _, _, _. reflexivity.
Qed.

End Shapes.

(** Replaces each helper call in the goal by the record updates it amounts
    to. *)
Ltac shape1 :=
  lazymatch goal with
  | |- context [fadeIn ?t ?x] => destruct (fadeIn_shape t x) as (? & ->)
  | |- context [wire ?s ?l ?x] =>
      destruct (wire_shape s l x) as (? & ? & ? & ? & ? & ->)
  | |- context [master ?x] =>
      destruct (master_shape x) as (? & ? & ? & ? & ? & ->)
  | |- context [noiseBuf ?c ?t ?x] =>
      destruct (noiseBuf_shape c t x) as (? & ? & ? & ->)
  end.

Ltac shapes :=
  lazy beta iota zeta delta [create getCtx];
  repeat shape1; proj.


Lemma alter_at_length {A} (f : A -> A) (l xs : list A) :
  alter f (length l) (l ++ xs) = l ++ alter f 0 xs.
Proof. now rewrite <- (Nat.add_0_r (length l)), alter_app_r. Qed.

(** Brings node stores to the form [old ++ [new nodes]] and indices to the
    form [length old + k]. *)
Ltac lists :=
  repeat
    (progress
       (rewrite <- ?app_assoc; cbn [app];
        rewrite ?length_app; cbn [length];
        rewrite ?alter_app_r, ?alter_at_length;
        cbn [alter list_alter start_source set_buffer osc_setFrequency
             filter_setFrequency])).

(** Equal lists of indices, up to arithmetic. *)
Ltac indices := repeat (f_equal; try lia).

(** Runs the straight-line helpers on an engine given field by field. *)
Ltac compute_body :=
  lazy beta iota zeta delta
    [ctx masterGain limiter analyser sources nodes noiseCache sequencerTimer
     riTimeout _vol _playing graph wires buffers timers timer_seq now
     currentTime random drawn device
     set_ctx set_masterGain set_limiter set_analyser set_sources set_nodes
     set_noiseCache set_sequencerTimer set_riTimeout set_vol set_playing
     set_graph set_wires set_buffers set_timers set_timer_seq set_now
     set_currentTime set_drawn
     create connect disconnect start getCtx setTimeout setInterval clearTimer
     master fadeIn wire add_tone ratios fold_left fst snd buffer_ref
     playTone_body playNoise_body playNotchedNoise_body playAM_body
     playBinaural_body playPhaseCancellation_body playResidualInhibition_body
     playCoordinatedReset_build construct updateOscFrequency
     updateFilterFrequency].

(** An engine, field by field, with the master chain present or not. *)
Ltac open_engine e :=
  destruct e as [[?c|] [?mg|] [?lim|] [?an|] ?src ?nds ?nc ?st ?rt ?vol ?pl ?g
                   ?w ?bufs ?tm ?ts ?nw ?ct ?rnd ?dr ?dev].

(** ** The wires of the master chain *)

Section ChainWires.

Local Open Scope float_scope.

(** A connection from output 0 to input 0, what [a.connect(b)] makes. *)
Definition cable (a b : endpoint) : connection :=
  {| from := a; output := 0; to := b; input := 0 |}.

(** A wire list without the outgoing wires of the master chain. *)
Definition unchained (w : list connection) : list connection :=
  filter (λ c, from c ≠ Analyser)
    (filter (λ c, from c ≠ Limiter) (filter (λ c, from c ≠ MasterGain) w)).

(** The chain: gain → limiter → analyser → destination. *)
Definition chain : list connection :=
  [{| from := MasterGain; output := 0; to := Limiter; input := 0 |};
   {| from := Limiter; output := 0; to := Analyser; input := 0 |};
   {| from := Analyser; output := 0; to := Destination; input := 0 |}].

Lemma unchained_app (a b : list connection) :
  unchained (a ++ b) = unchained a ++ unchained b.
Proof. unfold unchained. now rewrite !filter_app. Qed.

Lemma unchained_idem (w : list connection) : unchained (unchained w) = unchained w.
Proof.
  unfold unchained. rewrite !list_filter_filter.
  apply list_filter_iff. intros x. tauto.
Qed.

Lemma wires_master (e : engine) : wires (master e) = unchained (wires e) ++ chain.
Proof.
  open_engine e; compute_body; unfold unchained, chain;
    rewrite <- ?app_assoc; reflexivity.
Qed.

Lemma unchained_chain : unchained chain = [].
Proof. reflexivity. Qed.

Lemma wires_gain_setTargetAtTime n v t tc x x' :
  gain_setTargetAtTime n v t tc x = Some x' -> wires x' = wires x.
Proof.
  unfold gain_setTargetAtTime.
  destruct (graph x !! n) as [[]|]; intros [= <-]; reflexivity.
Qed.

Lemma wires_step fuel gains cur x cur' x' :
  step fuel gains cur x = Done (cur', x') -> wires x' = wires x.
Proof.
  intros H. apply step_inv in H.
  destruct H as [(_ & _ & ->)|(_ & e1 & pos & g & H1 & _ & _ & G)];
    [reflexivity|].
  rewrite (wires_gain_setTargetAtTime _ _ _ _ _ _ G). proj.
  destruct H1 as [[_ ->]|(_ & g0 & _ & G0)]; [reflexivity|].
  exact (wires_gain_setTargetAtTime _ _ _ _ _ _ G0).
Qed.

End ChainWires.

(** Brings the wires of a computed body to the form
    [unchained w ++ explicit wires]. *)
Ltac unchain :=
  repeat lazymatch goal with
  | |- context [filter ?p3 (filter ?p2 (filter ?p1 ?X))] =>
      change (filter p3 (filter p2 (filter p1 X))) with (unchained X)
  end;
  rewrite ?unchained_app, ?unchained_idem;
  unfold chain; rewrite <- ?app_assoc;
  first [reflexivity | f_equal; simpl; indices].

(** ** The graphs the modes build *)

Section Built.

Local Open Scope float_scope.

(** A wire that leaves a node of the store (not the master chain). *)
Definition from_node (x : connection) : Prop := exists n, from x = Node n.

Lemma master_keeps_wire (x : connection) (e : engine) :
  from_node x -> x ∈ wires e -> x ∈ wires (master e).
Proof.
  intros [n Hn] Hx. unfold master. proj.
  destruct (masterGain e); proj; destruct (limiter e); proj;
    destruct (analyser e); proj;
    rewrite !elem_of_app; do 3 left;
    rewrite !list_elem_of_filter, Hn; repeat split; auto; discriminate.
Qed.

(** One tone of coordinated reset: what [add_tone] adds. *)
Lemma add_tone_built (c : float) (acc : list nat * list nat * engine) (r : float) :
  let e := snd acc in
  let L := length (graph e) in
  let a := add_tone c acc r in
  fst (fst a) = fst (fst acc) ++ [L] /\
  snd (fst a) = snd (fst acc) ++ [L + 1]%nat /\
  graph (snd a)
  = graph e ++ [OscillatorNode sine (param (clampFreq (c * r))) Started;
                GainNode (param 0)] /\
  sources (snd a) = sources e ++ [L] /\
  nodes (snd a) = nodes e ++ [L + 1]%nat /\
  _playing (snd a) = _playing e /\
  _vol (snd a) = _vol e /\
  random (snd a) = random e /\
  drawn (snd a) = drawn e /\
  currentTime (snd a) = currentTime e.
Proof.
  destruct acc as [[o gs] e]. open_engine e; compute_body; lists;
    repeat split; reflexivity.
Qed.

(** The four tones as [playCoordinatedReset] leaves them when it reaches the
    sequencer. *)
Definition four_tones (centerFreq : float) : list AudioNode :=
  flat_map
    (λ r, [OscillatorNode sine (param (clampFreq (centerFreq * r))) Started;
           GainNode (param 0)])
    ratios.

Lemma build_built (c : float) (e : engine) :
  let L := length (graph e) in
  let b := playCoordinatedReset_build c e in
  fst (fst b) = [L; L + 2; L + 4; L + 6]%nat /\
  snd (fst b) = [L + 1; L + 3; L + 5; L + 7]%nat /\
  graph (snd b) = graph e ++ four_tones c /\
  sources (snd b) = sources e ++ [L; L + 2; L + 4; L + 6]%nat /\
  nodes (snd b) = nodes e ++ [L + 1; L + 3; L + 5; L + 7]%nat /\
  _playing (snd b) = true /\
  random (snd b) = random e /\
  drawn (snd b) = drawn e.
Proof.
  unfold playCoordinatedReset_build.
  open_engine e; compute_body; lists;
    (split; [indices|]); (split; [indices|]); (split; [reflexivity|]);
    (split; [indices|]); (split; [indices|]); repeat split; reflexivity.
Qed.

Lemma step_keeps_oscillators fuel gains cur e cur' e' n ty f st :
  step fuel gains cur e = Done (cur', e') ->
  graph e !! n = Some (OscillatorNode ty f st) ->
  graph e' !! n = Some (OscillatorNode ty f st).
Proof.
  intros S Hn.
  destruct (step_tone_writes _ _ _ _ _ _ S n) as [->|(p & evs & Hp & _)];
    [exact Hn|congruence].
Qed.

(** The body of [playCoordinatedReset]: the build, one [step], the interval. *)
Lemma CR_body_inv fuel c t e e' :
  playCoordinatedReset_body fuel c t e = Done e' ->
  exists cur E,
    step fuel (snd (fst (playCoordinatedReset_build c e))) (-1)
      (snd (playCoordinatedReset_build c e)) = Done (cur, E) /\
    e' = set_sequencerTimer (Some (timer_seq E))
           (snd (setInterval
                   (SequencerStep (snd (fst (playCoordinatedReset_build c e))) cur)
                   (default 250 t) E)).
Proof.
  unfold playCoordinatedReset_body.
  generalize (playCoordinatedReset_build c e). intros b H.
  apply bind_Done_inv in H as ([cur E] & S & H).
  apply Done_inj in H. exists cur, E. split; [exact S|]. now rewrite <- H.
Qed.

(** The wires of the four tones, for a store that held [L] nodes before:
    those made before the last call of [master()], and the one after. *)
Definition tone_wires (L : nat) : list connection * list connection :=
  ([cable (Node L) (Node (L + 1)); cable (Node (L + 1)) MasterGain;
    cable (Node (L + 2)) (Node (L + 3)); cable (Node (L + 3)) MasterGain;
    cable (Node (L + 4)) (Node (L + 5)); cable (Node (L + 5)) MasterGain;
    cable (Node (L + 6)) (Node (L + 7))],
   [cable (Node (L + 7)) MasterGain])%nat.

Lemma build_wires (c : float) (e : engine) :
  wires (snd (playCoordinatedReset_build c e))
  = unchained (wires e) ++ fst (tone_wires (length (graph e))) ++ chain
    ++ snd (tone_wires (length (graph e))).
Proof.
  unfold playCoordinatedReset_build, tone_wires, cable. cbn [fst snd].
  open_engine e; compute_body; lists; unchain.
Qed.

(** Among the wires of the four tones, the one that leaves oscillator [k]
    enters gain node [k] and the one that leaves gain node [k] enters the
    master gain. *)
Lemma tone_wires_only (L k : nat) (x : connection) :
  x ∈ fst (tone_wires L) ++ chain ++ snd (tone_wires L) ->
  (from x = Node (L + 2 * k) -> x = cable (Node (L + 2 * k)) (Node (L + 2 * k + 1))) /\
  (from x = Node (L + 2 * k + 1) -> x = cable (Node (L + 2 * k + 1)) MasterGain).
Proof.
  unfold tone_wires, chain. cbn [fst snd app]. intros Hx.
  repeat (apply elem_of_cons in Hx as [->|Hx];
          [split; intros E; cbn in E; try discriminate E; injection E as E;
           first [exfalso; lia | unfold cable; f_equal; apply f_equal; lia]|]).
  now apply elem_of_nil in Hx.
Qed.

(** C6. [playCoordinatedReset(centerFreq, tempoMs)] adds eight nodes to the
    graph, in four pairs: a started sine oscillator whose frequency is
    [clampFreq(centerFreq × r)], for [r] = 0.773, 0.867, 1.133, 1.227 in this
    order, and a gain node of value 0 with no automation yet; the four
    oscillators are the new sources and the four gain nodes the new
    intermediate nodes, which are the array [gains] of the sequencer.  Each
    oscillator sits behind its own gain node: the wires the method makes are
    oscillator [k] → gain node [k] and gain node [k] → master gain, for the
    four tones in order, around the rebuilt chain master gain → limiter →
    analyser → destination, after the wires that were there and do not
    leave the chain; so the only new wire that leaves an oscillator enters
    its gain node, and the only one that leaves a gain node enters the
    master gain.  The sequencer start that follows leaves every oscillator
    and every wire as built.  For [centerFreq] = 4000 the frequencies are
    exactly 3092, 3468, 4532, 4908. *)
Theorem coordinated_reset_four_tones (centerFreq : float) (e : engine) :
  let L := length (graph e) in
  let b := playCoordinatedReset_build centerFreq e in
  fst (fst b) = [L; L + 2; L + 4; L + 6]%nat /\
  snd (fst b) = [L + 1; L + 3; L + 5; L + 7]%nat /\
  graph (snd b)
  = graph e ++
    [OscillatorNode sine (param (clampFreq (centerFreq * 0.773))) Started;
     GainNode (param 0);
     OscillatorNode sine (param (clampFreq (centerFreq * 0.867))) Started;
     GainNode (param 0);
     OscillatorNode sine (param (clampFreq (centerFreq * 1.133))) Started;
     GainNode (param 0);
     OscillatorNode sine (param (clampFreq (centerFreq * 1.227))) Started;
     GainNode (param 0)] /\
  sources (snd b) = sources e ++ [L; L + 2; L + 4; L + 6]%nat /\
  nodes (snd b) = nodes e ++ [L + 1; L + 3; L + 5; L + 7]%nat /\
  wires (snd b)
  = filter (λ c, from c ≠ Analyser)
      (filter (λ c, from c ≠ Limiter)
         (filter (λ c, from c ≠ MasterGain) (wires e))) ++
    [{| from := Node L; output := 0; to := Node (L + 1); input := 0 |};
     {| from := Node (L + 1); output := 0; to := MasterGain; input := 0 |};
     {| from := Node (L + 2); output := 0; to := Node (L + 3); input := 0 |};
     {| from := Node (L + 3); output := 0; to := MasterGain; input := 0 |};
     {| from := Node (L + 4); output := 0; to := Node (L + 5); input := 0 |};
     {| from := Node (L + 5); output := 0; to := MasterGain; input := 0 |};
     {| from := Node (L + 6); output := 0; to := Node (L + 7); input := 0 |};
     {| from := MasterGain; output := 0; to := Limiter; input := 0 |};
     {| from := Limiter; output := 0; to := Analyser; input := 0 |};
     {| from := Analyser; output := 0; to := Destination; input := 0 |};
     {| from := Node (L + 7); output := 0; to := MasterGain; input := 0 |}]%nat /\
  (forall (x : connection) (k : nat),
     x ∈ wires (snd b) -> x ∉ wires e ->
     (from x = Node (L + 2 * k) ->
      x = {| from := Node (L + 2 * k); output := 0;
             to := Node (L + 2 * k + 1); input := 0 |}) /\
     (from x = Node (L + 2 * k + 1) ->
      x = {| from := Node (L + 2 * k + 1); output := 0;
             to := MasterGain; input := 0 |})) /\
  (forall fuel tempoMs e',
     playCoordinatedReset_body fuel centerFreq tempoMs e = Done e' ->
     wires e' = wires (snd b) /\
     forall n ty f st,
       graph (snd b) !! n = Some (OscillatorNode ty f st) ->
       graph e' !! n = Some (OscillatorNode ty f st)) /\
  map (λ r, clampFreq (4000 * r)) ratios = [3092; 3468; 4532; 4908].
Proof.
  intros L b. subst L b.
  destruct (build_built centerFreq e) as (H1 & H2 & H3 & H4 & H5 & _).
  pose proof (build_wires centerFreq e) as HW.
  split; [exact H1|]. split; [exact H2|]. split; [exact H3|].
  split; [exact H4|]. split; [exact H5|].
  split; [exact HW|].
  split; [|split; [|reflexivity]].
  - intros x k Hx Hnew. rewrite HW in Hx.
    apply elem_of_app in Hx as [Hx|Hx].
    + exfalso. apply Hnew. unfold unchained in Hx.
      now do 3 apply list_elem_of_filter, proj2 in Hx.
    + exact (tone_wires_only _ k x Hx).
  - intros fuel tempoMs e' H.
    apply CR_body_inv in H as (cur & E & S & ->). split.
    + exact (wires_step _ _ _ _ _ _ S).
    + intros n ty f st Hn.
      exact (step_keeps_oscillators _ _ _ _ _ _ _ _ _ _ S Hn).
Qed.

(** *** What each mode adds to the graph *)

Definition added (m : mode) (e : engine) : list AudioNode :=
  match m with
  | Tone f w => [OscillatorNode w (param (clampFreq f)) Started]
  | Noise color cf q =>
      AudioBufferSourceNode (Some (buffer_ref color e)) true Started
      :: (if truthy cf
          then [BiquadFilterNode bandpass (param (clampFreq (default nan cf)))
                  (param (default 1 q))]
          else [])
  | NotchedNoise f q color =>
      [AudioBufferSourceNode (Some (buffer_ref (default pink color) e)) true Started;
       BiquadFilterNode notch (param (clampFreq f)) (param (default 6 q))]
  | CoordinatedReset f _ => four_tones f
  | AM f r d =>
      [OscillatorNode sine (param (clampFreq f)) Started;
       OscillatorNode sine (param (default 10 r)) Started;
       GainNode (param (default 0.7 d * 0.5));
       GainNode (param (1 - default 0.7 d * 0.5))]
  | Binaural f b =>
      [ChannelMergerNode 2;
       OscillatorNode sine (param (clampFreq f)) Started;
       OscillatorNode sine (param (clampFreq (f + default 10 b))) Started]
  | ResidualInhibition f _ => [OscillatorNode sine (param (clampFreq f)) Started]
  | PhaseCancellation f =>
      [OscillatorNode sine (param (clampFreq f)) Started; GainNode (param (-1))]
  end.

(** Computes a noise body: the buffer request first, then the rest. *)
Ltac compute_noise :=
  lazy beta iota zeta delta
    [playNoise_body playNotchedNoise_body construct create getCtx];
  lazymatch goal with
  | |- context [noiseBuf ?c ?t ?x] =>
      destruct (noiseBuf_shape c t x) as (? & ? & ? & ->)
  end;
  compute_body.

Lemma construct_built (m : mode) (e : engine) :
  graph (construct m e) = graph e ++ added m e /\
  _playing (construct m e) = true.
Proof.
  destruct m.
  - open_engine e; compute_body; lists; split; reflexivity.
  - unfold added. destruct (truthy centerFreq) eqn:Ht;
      open_engine e; compute_noise; rewrite ?Ht; compute_body; lists;
      split; reflexivity.
  - unfold added. open_engine e; compute_noise; lists; split; reflexivity.
  - destruct (build_built centerFreq e) as (_ & _ & H3 & _ & _ & H6 & _).
    split; assumption.
  - open_engine e; compute_body; lists; split; reflexivity.
  - open_engine e; compute_body; lists; split; reflexivity.
  - open_engine e; compute_body; lists; split; reflexivity.
  - open_engine e; compute_body; lists; split; reflexivity.
Qed.

End Built.

(** ** Frequencies *)

Section Frequencies.

Local Open Scope float_scope.

(** Every number programmed into the frequency of an oscillator or of a
    filter. *)
Definition frequencies (n : AudioNode) : list float :=
  match n with
  | OscillatorNode _ f _ => programmed f
  | BiquadFilterNode _ f _ => programmed f
  | _ => []
  end.

(** The number is an output of [clampFreq]. *)
Definition clamped (x : float) : Prop := exists y, x = clampFreq y.

Lemma clamped_in_band (x : float) :
  clamped x -> (x <? MIN_FREQ) = false /\ (MAX_FREQ <? x) = false.
Proof.
  intros [y ->]. split; [apply clampFreq_not_below|apply clampFreq_not_above].
Qed.

(** C3, as the code has it. Every mode leaves the existing nodes alone and
    adds its own; every frequency it programs into an oscillator or a filter
    is an output of [clampFreq] (never below 20, never above 20000, and
    within [20, 20000] whenever the clamped expression is a number), except
    in amplitude modulation, where the carrier is clamped and the
    low-frequency modulator gets [modRate] (default 10) as it is. *)
Theorem mode_frequencies_clamped_except_lfo (m : mode) (e : engine) :
  graph (construct m e) = graph e ++ added m e /\
  match m with
  | AM f r d =>
      added m e
      = [OscillatorNode sine (param (clampFreq f)) Started;
         OscillatorNode sine (param (default 10 r)) Started;
         GainNode (param (default 0.7 d * 0.5));
         GainNode (param (1 - default 0.7 d * 0.5))]
  | _ => Forall (λ n, Forall clamped (frequencies n)) (added m e)
  end /\
  (forall x, clamped x -> (x <? MIN_FREQ) = false /\ (MAX_FREQ <? x) = false) /\
  (forall y, is_nan y = false ->
             (MIN_FREQ <=? clampFreq y) = true /\ (clampFreq y <=? MAX_FREQ) = true).
Proof.
  split; [apply construct_built|].
  split; [|split; [exact clamped_in_band|exact clampFreq_within]].
  destruct m; cbn [added]; try reflexivity;
    try destruct (truthy centerFreq);
    repeat constructor; eexists; reflexivity.
Qed.

(** C3, as stated, fails. [playAM(1000)] on a fresh engine creates the
    modulator (node 1) with frequency 10, below 20. *)
Lemma lfo_frequency_below_band :
  exists e',
    playAM 1000 None None (new_engine toy_device alternating) = Done e' /\
    graph e' !! 1%nat = Some (OscillatorNode sine (param 10) Started) /\
    (10 <? MIN_FREQ) = true.
Proof.
  eexists. split; [vm_compute; reflexivity|]. split; reflexivity.
Qed.

End Frequencies.

(** ** Live frequency updates *)

Section LiveUpdates.

Local Open Scope float_scope.

Lemma fold_alter_lookup {A} (h : A -> A) (l : list nat) :
  forall (g : list A) (n : nat),
    NoDup l ->
    fold_left (λ g s, alter h s g) l g !! n
    = if decide (n ∈ l) then h <$> g !! n else g !! n.
Proof.
  induction l as [|s l IH]; intros g n Hd; cbn [fold_left].
  - rewrite decide_False; [reflexivity|]. apply not_elem_of_nil.
  - apply NoDup_cons in Hd as [Hs Hd]. rewrite (IH _ _ Hd).
    destruct (decide (n = s)) as [->|Hne].
    + rewrite decide_False by exact Hs.
      rewrite decide_True by apply list_elem_of_here.
      apply list_lookup_alter_eq.
    + rewrite list_lookup_alter_ne by congruence.
      destruct (decide (n ∈ l)) as [Hl|Hl].
      * rewrite decide_True; [reflexivity|]. now apply list_elem_of_further.
      * rewrite decide_False; [reflexivity|].
        intros [->|H]%elem_of_cons; [congruence|contradiction].
Qed.

Lemma updateOsc_fold (F : float) (l : list nat) :
  forall e : engine,
    fold_left
      (λ e s, set_graph (alter (osc_setFrequency F (currentTime e)) s (graph e)) e)
      l e
    = set_graph
        (fold_left (λ g s, alter (osc_setFrequency F (currentTime e)) s g) l (graph e))
        e.
Proof.
  induction l as [|s l IH]; intros e; simpl.
  - now destruct e.
  - rewrite IH. reflexivity.
Qed.

Lemma updateFilter_fold (F : float) (l : list nat) :
  forall e : engine,
    fold_left
      (λ e s, set_graph (alter (filter_setFrequency F (currentTime e)) s (graph e)) e)
      l e
    = set_graph
        (fold_left (λ g s, alter (filter_setFrequency F (currentTime e)) s g) l
           (graph e))
        e.
Proof.
  induction l as [|s l IH]; intros e; simpl.
  - now destruct e.
  - rewrite IH. reflexivity.
Qed.

(** C10. With a context and sources that are distinct nodes,
    [updateOscFrequency(freq)] schedules the one value [clampFreq(freq)], at
    the current time, on the frequency of every source that is an
    oscillator; a source that is not an oscillator, every node that is not a
    source and every other field of the engine stay as they were.  After
    [playAM] both the carrier and the low-frequency modulator receive it;
    after [playBinaural] both the left and the right oscillator do, so the
    beat difference is gone. *)
Theorem updateOscFrequency_every_oscillator (freq : float) (e : engine)
    (c : AudioContext) :
  ctx e = Some c ->
  NoDup (sources e) ->
  let F := clampFreq freq in
  let t := currentTime e in
  let e' := updateOscFrequency freq e in
  (forall n : nat,
     graph e' !! n
     = if decide (n ∈ sources e)
       then osc_setFrequency F t <$> graph e !! n
       else graph e !! n) /\
  e' = set_graph (graph e') e /\
  (forall ty fr st,
     osc_setFrequency F t (OscillatorNode ty fr st)
     = OscillatorNode ty (schedule (SetValueAtTime F t) fr) st) /\
  (forall n, (forall ty fr st, n <> OscillatorNode ty fr st) ->
             osc_setFrequency F t n = n) /\
  (forall f0 r d e0,
     sources e0 = [] ->
     graph (updateOscFrequency freq (playAM_body f0 r d e0))
     = graph e0 ++
       [OscillatorNode sine
          (schedule (SetValueAtTime F (currentTime e0)) (param (clampFreq f0)))
          Started;
        OscillatorNode sine
          (schedule (SetValueAtTime F (currentTime e0)) (param (default 10 r)))
          Started;
        GainNode (param (default 0.7 d * 0.5));
        GainNode (param (1 - default 0.7 d * 0.5))]) /\
  (forall f0 b e0,
     sources e0 = [] ->
     graph (updateOscFrequency freq (playBinaural_body f0 b e0))
     = graph e0 ++
       [ChannelMergerNode 2;
        OscillatorNode sine
          (schedule (SetValueAtTime F (currentTime e0)) (param (clampFreq f0)))
          Started;
        OscillatorNode sine
          (schedule (SetValueAtTime F (currentTime e0))
             (param (clampFreq (f0 + default 10 b))))
          Started]).
Proof.
  intros Hc Hd F t e'.
  assert (He : e' = set_graph
                      (fold_left (λ g s, alter (osc_setFrequency F t) s g)
                         (sources e) (graph e)) e).
  { subst e'. unfold updateOscFrequency. rewrite Hc. apply updateOsc_fold. }
  split; [|split; [|split; [|split; [|split]]]].
  - intros n. rewrite He. proj. now apply fold_alter_lookup.
  - rewrite He. reflexivity.
  - reflexivity.
  - intros [] H; try reflexivity. now destruct (H type frequency state).
  - intros f0 r d e0 H0. subst F.
    open_engine e0; proj_in H0; subst; compute_body; lists; reflexivity.
  - intros f0 b e0 H0. subst F.
    open_engine e0; proj_in H0; subst; compute_body; lists; reflexivity.
Qed.

Lemma updateOscFrequency_every_oscillator_witness :
  let e := construct (AM 1000 None None) (new_engine toy_device alternating) in
  graph (updateOscFrequency 5 e) !! 1%nat
  = Some (OscillatorNode sine
            {| value := 10; events := [SetValueAtTime 20 0] |} Started).
Proof.
  intros e.
  assert (Hc : ctx e = Some {| sampleRate := 4; suspended := false; closed := false |})
    by reflexivity.
  assert (Hd : NoDup (sources e)).
  { change (sources e) with [0; 1]%nat. repeat constructor; set_solver. }
  rewrite (proj1 (updateOscFrequency_every_oscillator 5 e _ Hc Hd) 1%nat).
  reflexivity.
Defined.

End LiveUpdates.

(** ** The sequencer *)

Section Sequencer.

Local Open Scope Z_scope.

(** The index the [k]-th call of [Math.random] leads to. *)
Definition draw (rnd : nat -> float) (k : nat) : option Z :=
  Math_floor (rnd k * 4)%float.

(** What is asked of [Math.random]: every draw lands in {0, 1, 2, 3} (the
    numbers are in [0, 1)), and no tail of the sequence repeats one index
    for ever. *)
Definition Math_random_ok (rnd : nat -> float) : Prop :=
  (forall k, exists i, draw rnd k = Some i /\ 0 <= i < 4) /\
  (forall (k : nat) (c : Z), exists j : nat, draw rnd (k + j) <> Some c).

(** The handles in [gains] are gain nodes of the store. *)
Definition gains_ready (gains : list nat) (e : engine) : Prop :=
  forall i, 0 <= i < 4 ->
    exists g p, at_index gains i = Some g /\ graph e !! g = Some (GainNode p).

Lemma draw_next_differs fuel cur rnd :
  forall pos next pos',
    draw_next fuel cur rnd pos = Done (next, pos') -> next <> cur.
Proof.
  induction fuel as [|fuel IH]; intros pos next pos'; cbn [draw_next Math_random];
    [discriminate|].
  destruct (Math_floor _) as [i|]; [|discriminate].
  destruct (i =? cur) eqn:E; [apply IH|].
  intros H. apply Done_inj in H. injection H as <- _. now apply Z.eqb_neq.
Qed.

Lemma draw_next_more_fuel fuel cur rnd :
  forall pos x fuel',
    draw_next fuel cur rnd pos = Done x -> (fuel <= fuel')%nat ->
    draw_next fuel' cur rnd pos = Done x.
Proof.
  induction fuel as [|fuel IH]; intros pos x fuel'; cbn [draw_next Math_random];
    [discriminate|].
  intros H Hle. destruct fuel' as [|fuel']; [lia|]. cbn [draw_next Math_random].
  destruct (Math_floor _) as [i|]; [|discriminate].
  destruct (i =? cur); [|exact H]. apply IH; [exact H|lia].
Qed.

Lemma draw_next_total rnd cur :
  (forall k, exists i, draw rnd k = Some i /\ 0 <= i < 4) ->
  forall (j pos : nat),
    draw rnd (pos + j) <> Some cur ->
    exists next pos',
      draw_next (S j) cur rnd pos = Done (next, pos') /\
      next <> cur /\ 0 <= next < 4.
Proof.
  intros Hr. induction j as [|j IH]; intros pos Hj;
    cbn [draw_next Math_random];
    destruct (Hr pos) as (i & Hi & Hrange); unfold draw in Hi; rewrite Hi.
  - rewrite Nat.add_0_r in Hj. unfold draw in Hj. rewrite Hi in Hj.
    destruct (i =? cur) eqn:E; [apply Z.eqb_eq in E; congruence|].
    apply Z.eqb_neq in E. eauto.
  - destruct (i =? cur) eqn:E.
    + apply IH. now replace (S pos + j)%nat with (pos + S j)%nat by lia.
    + apply Z.eqb_neq in E. eauto.
Qed.

Lemma gain_set_ready gains g x t tc e e' :
  gain_setTargetAtTime g x t tc e = Some e' ->
  gains_ready gains e ->
  gains_ready gains e' /\ _playing e' = _playing e /\ random e' = random e
  /\ drawn e' = drawn e.
Proof.
  unfold gain_setTargetAtTime.
  destruct (graph e !! g) as [[| |p| |]|] eqn:Hg; try discriminate.
  intros [= <-] Hr. proj. split; [|auto].
  intros i Hi. destruct (Hr i Hi) as (g' & p' & Ha & Hp).
  destruct (decide (g' = g)) as [->|Hne].
  - eexists g, _. split; [exact Ha|]. proj.
    apply list_lookup_insert_eq. eapply lookup_lt_Some, Hg.
  - exists g', p'. split; [exact Ha|]. proj.
    now rewrite list_lookup_insert_ne.
Qed.

Lemma gain_set_defined gains i x t tc e :
  gains_ready gains e -> 0 <= i < 4 ->
  exists g e', at_index gains i = Some g /\
               gain_setTargetAtTime g x t tc e = Some e'.
Proof.
  intros Hr Hi. destruct (Hr i Hi) as (g & p & Ha & Hp).
  exists g. unfold gain_setTargetAtTime. rewrite Hp. eauto.
Qed.

(** One tick, given enough fuel for its draws. *)
Lemma step_total gains cur e :
  _playing e = true -> gains_ready gains e -> Math_random_ok (random e) ->
  -1 <= cur < 4 ->
  exists fuel0 cur' e',
    (forall fuel, (fuel0 <= fuel)%nat -> step fuel gains cur e = Done (cur', e')) /\
    cur' <> cur /\ 0 <= cur' < 4 /\
    _playing e' = true /\ gains_ready gains e' /\ random e' = random e.
Proof.
  intros Hp Hr [Hin Hfair] Hc.
  assert (H1 : exists e1,
    (if 0 <=? cur
     then g ← defined (at_index gains cur);
          defined (gain_setTargetAtTime g 0%float (currentTime e) 0.015%float e)
     else Done e) = Done e1 /\
    gains_ready gains e1 /\ _playing e1 = true /\ random e1 = random e).
  { destruct (0 <=? cur) eqn:E; [|eauto].
    apply Z.leb_le in E.
    destruct (gain_set_defined gains cur 0%float (currentTime e) 0.015%float e Hr)
      as (g & e1 & Ha & Hs); [lia|].
    exists e1. rewrite Ha. cbn. rewrite Hs. cbn.
    destruct (gain_set_ready _ _ _ _ _ _ _ Hs Hr) as (? & ? & ? & ?).
    split; [reflexivity|]. repeat split; try assumption; congruence. }
  destruct H1 as (e1 & He1 & Hr1 & Hp1 & Hrnd1).
  destruct (Hfair (drawn e1) cur) as [j Hj].
  rewrite <- Hrnd1 in Hin, Hj.
  destruct (draw_next_total (random e1) cur Hin j (drawn e1) Hj)
    as (next & pos & Hd & Hne & Hrange).
  destruct (gain_set_defined gains next 0.5%float (currentTime e1 + 0.02)%float
              0.015%float (set_drawn pos e1))
    as (g & e2 & Ha & Hs); [exact Hr1|exact Hrange|].
  exists (S j), next, e2. split.
  - intros fuel Hf. unfold step. rewrite Hp. cbn [negb]. rewrite He1.
    cbn [mbind outcome_bind].
    rewrite (draw_next_more_fuel _ _ _ _ _ _ Hd Hf).
    cbn [mbind outcome_bind]. rewrite Ha. cbn [mbind outcome_bind defined].
    change (currentTime (set_drawn pos e1)) with (currentTime e1).
    rewrite Hs. reflexivity.
  - destruct (gain_set_ready gains _ _ _ _ _ _ Hs) as (Hr2 & Hp2 & Hn2 & _);
      [exact Hr1|].
    proj_in Hp2. proj_in Hn2.
    split; [exact Hne|]. split; [exact Hrange|].
    split; [congruence|]. split; [exact Hr2|congruence].
Qed.

(** No element equals the one before it, [prev] being before the first. *)
Fixpoint no_repeat (prev : Z) (l : list Z) : Prop :=
  match l with
  | [] => True
  | x :: l => x <> prev /\ no_repeat x l
  end.

Lemma no_repeat_lookup (l : list Z) :
  forall prev i a c,
    no_repeat prev l -> (prev :: l) !! i = Some a -> l !! i = Some c -> c <> a.
Proof.
  induction l as [|x l IH]; intros prev i a c H Ha Hc; [discriminate|].
  destruct H as [Hx Hl]. destruct i as [|i].
  - injection Ha as <-. injection Hc as <-. exact Hx.
  - exact (IH x i a c Hl Ha Hc).
Qed.

Lemma step_playing fuel gains cur e cur' e' :
  step fuel gains cur e = Done (cur', e') -> _playing e' = _playing e.
Proof.
  assert (G : forall g x t tc a a', gain_setTargetAtTime g x t tc a = Some a' ->
                                    _playing a' = _playing a).
  { intros g x t tc a a'. unfold gain_setTargetAtTime.
    destruct (graph a !! g) as [[]|]; intros [= <-]; reflexivity. }
  intros H. apply step_inv in H.
  destruct H as [(_ & _ & ->)|(_ & e1 & pos & g & H1 & _ & _ & G1)];
    [reflexivity|].
  rewrite (G _ _ _ _ _ _ G1). proj.
  destruct H1 as [[_ ->]|(_ & g0 & _ & G0)]; [reflexivity|].
  exact (G _ _ _ _ _ _ G0).
Qed.

(** While the session plays, a tick that completes selects an index other
    than the current one, whatever [Math.random] returns. *)
Lemma step_differs fuel gains cur e cur' e' :
  _playing e = true -> step fuel gains cur e = Done (cur', e') -> cur' <> cur.
Proof.
  intros Hp H. apply step_inv in H.
  destruct H as [(Hp' & _)|(_ & e1 & pos & g & _ & D & _)]; [congruence|].
  exact (draw_next_differs _ _ _ _ _ _ D).
Qed.

Lemma ticks_differ fuel gains n :
  forall cur e l e',
    _playing e = true ->
    ticks fuel n gains cur e = Done (l, e') -> no_repeat cur l.
Proof.
  induction n as [|n IH]; intros cur e l e' Hp; cbn [ticks].
  - intros H. apply Done_inj in H. injection H as <- _. exact I.
  - intros H. apply bind_Done_inv in H as ([c1 e1] & S & H).
    apply bind_Done_inv in H as ([l1 e2] & T & H).
    apply Done_inj in H. injection H as <- _.
    split; [exact (step_differs _ _ _ _ _ _ Hp S)|].
    apply (IH c1 e1 l1 e2); [|exact T].
    now rewrite (step_playing _ _ _ _ _ _ S).
Qed.

Lemma ticks_total gains n :
  forall cur e,
    _playing e = true -> gains_ready gains e -> Math_random_ok (random e) ->
    -1 <= cur < 4 ->
    exists fuel0 l e',
      (forall fuel, (fuel0 <= fuel)%nat ->
                    ticks fuel n gains cur e = Done (l, e')) /\
      length l = n /\ Forall (λ i, 0 <= i < 4) l.
Proof.
  induction n as [|n IH]; intros cur e Hp Hr Hok Hc.
  - exists 0%nat, [], e. repeat split; auto.
  - destruct (step_total gains cur e Hp Hr Hok Hc)
      as (f1 & c1 & e1 & S & _ & Hc1 & Hp1 & Hr1 & Hn1).
    rewrite <- Hn1 in Hok.
    destruct (IH c1 e1 Hp1 Hr1 Hok ltac:(lia)) as (f2 & l & e2 & T & Hl & Hf).
    exists (Nat.max f1 f2), (c1 :: l), e2. split; [|split].
    + intros fuel Hfuel. cbn [ticks].
      rewrite (S fuel) by lia. cbn [mbind outcome_bind].
      rewrite (T fuel) by lia. reflexivity.
    + cbn [length]. now rewrite Hl.
    + constructor; [exact Hc1|exact Hf].
Qed.

Lemma build_ready (c : float) (e : engine) :
  gains_ready (snd (fst (playCoordinatedReset_build c e)))
    (snd (playCoordinatedReset_build c e)).
Proof.
  destruct (build_built c e) as (_ & Hg & Hgr & _).
  unfold gains_ready. rewrite Hg, Hgr.
  intros i Hi. unfold at_index.
  assert (H : i = 0 \/ i = 1 \/ i = 2 \/ i = 3) by lia.
  destruct H as [-> | [-> | [-> | ->]]]; cbn; eexists _, (param 0);
    (split; [reflexivity|]);
    (rewrite lookup_app_r by lia);
    match goal with
    | |- _ !! ?k = _ =>
        first [ replace k with 1%nat by lia | replace k with 3%nat by lia
              | replace k with 5%nat by lia | replace k with 7%nat by lia ]
    end; reflexivity.
Qed.

(** C5. Take the four tones [playCoordinatedReset] has just built, and a
    [Math.random] whose draws land in {0, 1, 2, 3} and never repeat one
    index for ever.  Then any number [n] of consecutive ticks, from
    [cur] = -1, run to completion (each rejection loop ends), and in the
    sequence of selected indices every index is in {0, 1, 2, 3} and differs
    from the one selected at the tick before (the first from -1).  That no
    index equals its predecessor holds for every completed run of ticks,
    whatever [Math.random] returns. *)
Theorem sequencer_never_repeats (centerFreq : float) (e : engine) (n : nat) :
  Math_random_ok (random e) ->
  let gains := snd (fst (playCoordinatedReset_build centerFreq e)) in
  let e0 := snd (playCoordinatedReset_build centerFreq e) in
  (exists fuel0 l e',
     (forall fuel, (fuel0 <= fuel)%nat ->
                   ticks fuel n gains (-1) e0 = Done (l, e')) /\
     length l = n /\
     Forall (λ i, 0 <= i < 4) l /\
     (forall i a c, (-1 :: l) !! i = Some a -> l !! i = Some c -> c <> a)) /\
  (forall fuel l e',
     ticks fuel n gains (-1) e0 = Done (l, e') ->
     forall i a c, (-1 :: l) !! i = Some a -> l !! i = Some c -> c <> a).
Proof.
  intros Hok gains e0.
  destruct (build_built centerFreq e) as (_ & _ & _ & _ & _ & Hp & Hrnd & _).
  fold e0 in Hp, Hrnd.
  assert (Hsafe : forall fuel l e',
            ticks fuel n gains (-1) e0 = Done (l, e') ->
            forall i a c, (-1 :: l) !! i = Some a -> l !! i = Some c -> c <> a).
  { intros fuel l e' T i a c. apply no_repeat_lookup.
    exact (ticks_differ fuel gains n (-1) e0 l e' Hp T). }
  split; [|exact Hsafe].
  rewrite <- Hrnd in Hok.
  destruct (ticks_total gains n (-1) e0 Hp (build_ready centerFreq e) Hok
              ltac:(lia)) as (f & l & e' & T & Hl & Hf).
  exists f, l, e'. repeat split; try assumption.
  exact (Hsafe f l e' (T f (Nat.le_refl f))).
Qed.

Lemma alternating_ok : Math_random_ok alternating.
Proof.
  assert (D : forall k, draw alternating k = Some (if Nat.even k then 0 else 3)).
  { intros k. unfold draw, alternating. destruct (Nat.even k); reflexivity. }
  split.
  - intros k. rewrite D. destruct (Nat.even k); eexists; split; eauto; lia.
  - intros k c. destruct (decide (draw alternating k = Some c)) as [E|E].
    + exists 1%nat. rewrite D in *. rewrite Nat.add_1_r, Nat.even_succ.
      rewrite <- Nat.negb_even. destruct (Nat.even k); cbn; congruence.
    + exists 0%nat. now rewrite Nat.add_0_r.
Qed.

Lemma sequencer_never_repeats_witness :
  exists fuel0 l e',
    (forall fuel, (fuel0 <= fuel)%nat ->
       ticks fuel 100
         (snd (fst (playCoordinatedReset_build 4000
                      (new_engine toy_device alternating))))
         (-1)
         (snd (playCoordinatedReset_build 4000 (new_engine toy_device alternating)))
       = Done (l, e')) /\
    length l = 100%nat /\
    Forall (λ i, 0 <= i < 4) l /\
    (forall i a c, (-1 :: l) !! i = Some a -> l !! i = Some c -> c <> a).
Proof.
  exact (proj1 (sequencer_never_repeats 4000 (new_engine toy_device alternating)
                  100 alternating_ok)).
Defined.

End Sequencer.

(** ** The stored volume *)

Section VolumeAndFades.

Local Open Scope float_scope.

(** Clamping a number between two numbers [lo <= hi] lands between them. *)
Lemma clamp_within (lo hi x : float) :
  is_nan lo = false -> is_nan hi = false -> (lo <=? hi) = true ->
  is_nan x = false ->
  within lo hi (Math_max lo (Math_min x hi)) /\
  is_nan (Math_max lo (Math_min x hi)) = false.
Proof.
  intros Hlo Hhi Hle Hx.
  assert (Hm : is_nan (Math_min x hi) = false /\ (Math_min x hi <=? hi) = true).
  { destruct (Math_min_cases x hi) as [[_ H]|(_ & _ & [[-> H]|[-> _]])].
    - rewrite Hx, Hhi in H. discriminate H.
    - split; [exact Hx|]. now apply nltb_leb.
    - split; [exact Hhi|]. apply nltb_leb; auto. apply ltb_irrefl. }
  destruct Hm as [Hn Hmle].
  destruct (Math_max_cases lo (Math_min x hi))
    as [[_ H]|(_ & _ & [[-> H]|[-> H]])].
  - rewrite Hlo, Hn in H. discriminate H.
  - split; [|exact Hn]. split; [now apply nltb_leb|exact Hmle].
  - split; [|exact Hlo]. split; [|exact Hle].
    apply nltb_leb; auto. apply ltb_irrefl.
Qed.

Lemma clampGain_within (v : float) :
  is_nan v = false ->
  within 0 MAX_SAFE_GAIN (clampGain v) /\ is_nan (clampGain v) = false.
Proof. intros H. now apply clamp_within. Qed.

Lemma vol_setVolume (v : float) (e : engine) : _vol (setVolume v e) = clampGain v.
Proof.
  unfold setVolume. proj.
  destruct (masterGain e); [|reflexivity].
  destruct (ctx e); [|reflexivity]. destruct (_playing e); reflexivity.
Qed.

(** X1. Whatever number the caller passes, [setVolume] stores a volume
    between 0 and [MAX_SAFE_GAIN]; a NaN is stored as NaN. *)
Theorem setVolume_stores_within_cap (v : float) (e : engine) :
  is_nan v = false ->
  (0 <=? _vol (setVolume v e)) = true /\
  (_vol (setVolume v e) <=? MAX_SAFE_GAIN) = true /\
  is_nan (_vol (setVolume nan e)) = true.
Proof.
  intros H. rewrite !vol_setVolume.
  destruct (clampGain_within v H) as [[H1 H2] _]. auto.
Qed.

Lemma setVolume_stores_within_cap_witness :
  (0 <=? _vol (setVolume 0.9 (new_engine toy_device alternating))) = true /\
  (_vol (setVolume 0.9 (new_engine toy_device alternating)) <=? MAX_SAFE_GAIN) = true.
Proof.
  destruct (setVolume_stores_within_cap 0.9 (new_engine toy_device alternating)
              eq_refl) as (H1 & H2 & _).
  split; [exact H1|exact H2].
Defined.

(** X2. A volume set while nothing plays touches no audio parameter; it is
    remembered, and the next [playTone] fades in towards that volume times
    the waveform's scalar, clamped, and never below the floor 0.0001. *)
Theorem volume_set_before_play_is_used (v f : float) (w : OscillatorType)
    (e : engine) :
  _playing e = false ->
  masterGain (setVolume v e) = masterGain e /\
  graph (setVolume v e) = graph e /\
  exists g,
    masterGain (playTone_body f w (setVolume v e)) = Some g /\
    events g
    = events (default (param 0) (masterGain e)) ++
      [SetValueAtTime 0.0001 (currentTime e);
       ExponentialRampToValueAtTime
         (Math_max
            (clampGain (clampGain v * default 1 (GAIN_SCALAR !! wave_name w)))
            0.0001)
         (currentTime e + FADE_IN_SEC)].
Proof.
  intros Hp. open_engine e; proj_in Hp; subst;
    (split; [reflexivity|]); (split; [reflexivity|]);
    eexists;
    (split; [lazy beta iota zeta delta [setVolume]; compute_body; reflexivity|]);
    cbn [events schedule default param masterGain value];
    rewrite <- ?app_assoc; reflexivity.
Qed.

Lemma volume_set_before_play_is_used_witness :
  graph (setVolume 0.3 (new_engine toy_device alternating))
  = graph (new_engine toy_device alternating).
Proof.
  exact (proj1 (proj2 (volume_set_before_play_is_used 0.3 440 sine
                         (new_engine toy_device alternating) eq_refl))).
Defined.

End VolumeAndFades.

(** ** Fade-in and the master chain *)

(** Computes a noise body: the buffer request first, then the rest. *)
Ltac noise_body :=
  lazy beta iota zeta delta
    [playNoise_body playNotchedNoise_body construct create getCtx];
  lazymatch goal with
  | |- context [noiseBuf ?c ?t ?x] =>
      destruct (noiseBuf_shape c t x) as (? & ? & ? & ->)
  end;
  compute_body.

Section FadeIn.

Local Open Scope float_scope.

(** The gain a mode fades in to, before clamping: the volume, times the
    scalar of the waveform or noise colour where the mode has one. *)
Definition fade_target (m : mode) (vol : float) : float :=
  match m with
  | Tone _ w => vol * default 1 (GAIN_SCALAR !! wave_name w)
  | Noise c _ _ => vol * default 0.3 (GAIN_SCALAR !! color_name c)
  | NotchedNoise _ _ c =>
      vol * default 0.3 (GAIN_SCALAR !! color_name (default pink c))
  | ResidualInhibition _ _ => vol * default 1 (GAIN_SCALAR !! wave_name sine)
  | _ => vol
  end.

Lemma fade_floor (s : float) :
  (Math_max s 0.0001 <? 0.0001) = false /\
  (not_above MAX_SAFE_GAIN s -> (MAX_SAFE_GAIN <? Math_max s 0.0001) = false) /\
  (is_nan s = false -> (s <=? MAX_SAFE_GAIN) = true ->
   (0.0001 <=? Math_max s 0.0001) = true /\
   (Math_max s 0.0001 <=? MAX_SAFE_GAIN) = true).
Proof.
  destruct (Math_max_cases s 0.0001) as [[-> H]|(Hs & _ & [[-> H]|[-> H]])].
  - split; [reflexivity|]. split; [reflexivity|].
    intros Hn. rewrite Hn in H. discriminate H.
  - repeat split; reflexivity.
  - split; [exact H|]. split; [auto|]. intros _ Hle.
    split; [|exact Hle]. now apply nltb_leb.
Qed.

Ltac fade_in_events :=
  eexists; (split; [reflexivity|]);
  cbn [events schedule default param masterGain value fade_target];
  rewrite <- ?app_assoc; split; reflexivity.

(** X3. Every mode starts the same way: on the master gain (created with
    value 0 if it was missing) it schedules the floor 0.0001 now and an
    exponential ramp, ending [FADE_IN_SEC] later, to the volume times the
    mode's scalar, clamped to [MAX_SAFE_GAIN] and raised to the floor.  The
    ramp target is never below the floor (an exponential ramp to 0 would
    throw) and never above the cap. *)
Theorem every_mode_fades_in (m : mode) (e : engine) :
  let x := Math_max (clampGain (fade_target m (_vol e))) 0.0001 in
  (exists g,
     masterGain (construct m e) = Some g /\
     events g
     = events (default (param 0) (masterGain e)) ++
       [SetValueAtTime 0.0001 (currentTime e);
        ExponentialRampToValueAtTime x (currentTime e + FADE_IN_SEC)] /\
     value g = value (default (param 0) (masterGain e))) /\
  (x <? 0.0001) = false /\
  (MAX_SAFE_GAIN <? x) = false.
Proof.
  intros x. split.
  - subst x. destruct m.
    + open_engine e; compute_body; fade_in_events.
    + destruct (truthy centerFreq) eqn:Ht;
        open_engine e; noise_body; rewrite ?Ht; compute_body; fade_in_events.
    + open_engine e; noise_body; fade_in_events.
    + open_engine e; compute_body; fade_in_events.
    + open_engine e; compute_body; fade_in_events.
    + open_engine e; compute_body; fade_in_events.
    + open_engine e; compute_body; fade_in_events.
    + open_engine e; compute_body; fade_in_events.
  - destruct (fade_floor (clampGain (fade_target m (_vol e)))) as (H1 & H2 & _).
    split; [exact H1|]. apply H2, clampGain_not_above.
Qed.

End FadeIn.

Section MasterChain.

Local Open Scope float_scope.

Lemma engine_ext (a b : engine) :
  ctx a = ctx b ->
  masterGain a = masterGain b ->
  limiter a = limiter b ->
  analyser a = analyser b ->
  sources a = sources b ->
  nodes a = nodes b ->
  noiseCache a = noiseCache b ->
  sequencerTimer a = sequencerTimer b ->
  riTimeout a = riTimeout b ->
  _vol a = _vol b ->
  _playing a = _playing b ->
  graph a = graph b ->
  wires a = wires b ->
  buffers a = buffers b ->
  timers a = timers b ->
  timer_seq a = timer_seq b ->
  now a = now b ->
  currentTime a = currentTime b ->
  random a = random b ->
  drawn a = drawn b ->
  device a = device b ->
  a = b.
Proof. destruct a, b; cbn; intros; subst; reflexivity. Qed.

(** [getCtx] resumes a suspended context and keeps it. *)
Definition resumed (c : AudioContext) : AudioContext :=
  {| sampleRate := sampleRate c; suspended := false; closed := closed c |}.

Lemma ctx_master (e : engine) :
  ctx (master e) = Some (resumed (default (device e) (ctx e))).
Proof.
  open_engine e; compute_body; unfold resumed;
    cbn [default ctx device sampleRate closed];
    match goal with
    | |- context [suspended ?c] => destruct c as [? [] ?]; reflexivity
    end.
Qed.

Lemma limiter_master (e : engine) :
  limiter (master e)
  = Some (default {| threshold := -3; knee := 6; ratio := 20;
                     attack := 0.002; release := 0.05 |} (limiter e)).
Proof. open_engine e; reflexivity. Qed.

Lemma analyser_master (e : engine) :
  analyser (master e) = Some (default {| fftSize := 2048 |} (analyser e)).
Proof. open_engine e; reflexivity. Qed.

Lemma noiseCache_master (e : engine) : noiseCache (master e) = noiseCache e.
Proof. destruct (master_shape e) as (?&?&?&?&?&->). reflexivity. Qed.

Lemma buffers_master (e : engine) : buffers (master e) = buffers e.
Proof. destruct (master_shape e) as (?&?&?&?&?&->). reflexivity. Qed.

(** X4. The master chain is built once and rewired in place: [master()]
    keeps an existing gain, limiter and analyser (a missing gain is created
    with value 0, a missing limiter with threshold -3, knee 6, ratio 20,
    attack 0.002, release 0.05, a missing analyser with fftSize 2048), drops
    the chain's old outgoing wires and connects gain → limiter → analyser →
    destination once, after the wires that were there; calling it again
    changes nothing. *)
Theorem master_is_idempotent (e : engine) :
  master (master e) = master e /\
  masterGain (master e) = Some (default (param 0) (masterGain e)) /\
  limiter (master e)
  = Some (default {| threshold := -3; knee := 6; ratio := 20;
                     attack := 0.002; release := 0.05 |} (limiter e)) /\
  analyser (master e) = Some (default {| fftSize := 2048 |} (analyser e)) /\
  wires (master e) = unchained (wires e) ++ chain.
Proof.
  split; [|split; [apply masterGain_master|split; [apply limiter_master|
           split; [apply analyser_master|apply wires_master]]]].
  apply engine_ext.
  - rewrite !ctx_master, !device_master. reflexivity.
  - rewrite !masterGain_master. reflexivity.
  - rewrite !limiter_master. reflexivity.
  - rewrite !analyser_master. reflexivity.
  - now rewrite sources_master.
  - now rewrite nodes_master.
  - now rewrite noiseCache_master.
  - now rewrite sequencerTimer_master.
  - now rewrite riTimeout_master.
  - now rewrite vol_master.
  - now rewrite playing_master.
  - now rewrite graph_master.
  - rewrite !wires_master, unchained_app, unchained_idem, unchained_chain.
    now rewrite app_nil_r.
  - now rewrite buffers_master.
  - now rewrite timers_master.
  - now rewrite timer_seq_master.
  - now rewrite now_master.
  - now rewrite currentTime_master.
  - now rewrite random_master.
  - now rewrite drawn_master.
  - now rewrite device_master.
Qed.

End MasterChain.

(** ** Teardown *)

Section Teardown.

Local Open Scope float_scope.

(** [clearTimeout]/[clearInterval] on a handle that may be [null]. *)
Definition cleared (o : option nat) (tm : gmap nat timer) : gmap nat timer :=
  match o with Some t => delete t tm | None => tm end.

(** The wires left once every node of [l] has been disconnected. *)
Definition disconnected (l : list nat) (w : list connection) : list connection :=
  fold_left (λ w s, filter (λ c, from c ≠ Node s) w) l w.

(** The store once [stop()] has been tried on every node of [l]. *)
Definition stopped (l : list nat) (g : list AudioNode) : list AudioNode :=
  fold_left (λ g s, alter stop_source s g) l g.

Lemma cleanup_sources_explicit (l : list nat) :
  forall e,
    fold_left
      (λ e s, disconnect (Node s) (set_graph (alter stop_source s (graph e)) e))
      l e
    = set_wires (disconnected l (wires e)) (set_graph (stopped l (graph e)) e).
Proof.
  induction l as [|s l IH]; intros e; cbn [fold_left disconnected stopped].
  - now destruct e.
  - rewrite IH. reflexivity.
Qed.

Lemma cleanup_nodes_explicit (l : list nat) :
  forall e,
    fold_left (λ e n, disconnect (Node n) e) l e
    = set_wires (disconnected l (wires e)) e.
Proof.
  induction l as [|s l IH]; intros e; cbn [fold_left disconnected].
  - now destruct e.
  - rewrite IH. reflexivity.
Qed.

Lemma cleanup_explicit (e : engine) :
  cleanup e
  = set_playing false
      (set_riTimeout None
         (set_sequencerTimer None
            (set_timers (cleared (riTimeout e) (cleared (sequencerTimer e) (timers e)))
               (set_nodes []
                  (set_sources []
                     (set_wires
                        (disconnected (nodes e) (disconnected (sources e) (wires e)))
                        (set_graph (stopped (sources e) (graph e)) e))))))).
Proof.
  unfold cleanup. rewrite cleanup_sources_explicit, cleanup_nodes_explicit. proj.
  destruct e as [c mg lim an src nds nc [s|] [r|] vol pl g w bufs tm ts nw ct
                   rnd dr dev]; reflexivity.
Qed.

Lemma stop_source_idem (n : AudioNode) : stop_source (stop_source n) = stop_source n.
Proof. destruct n as [? ? []|? ? []| | |]; reflexivity. Qed.

Lemma stopped_lookup (l : list nat) :
  forall (g : list AudioNode) (n : nat),
    stopped l g !! n
    = if decide (n ∈ l) then stop_source <$> g !! n else g !! n.
Proof.
  induction l as [|s l IH]; intros g n; cbn [stopped fold_left].
  - rewrite decide_False; [reflexivity|]. apply not_elem_of_nil.
  - change (fold_left _ l ?x) with (stopped l x). rewrite IH.
    destruct (decide (n = s)) as [->|Hne].
    + rewrite (decide_True (P := s ∈ s :: l)) by apply list_elem_of_here.
      rewrite list_lookup_alter_eq.
      case_decide; [|reflexivity].
      destruct (g !! s); cbn; [now rewrite stop_source_idem|reflexivity].
    + rewrite list_lookup_alter_ne by congruence.
      destruct (decide (n ∈ l)) as [Hl|Hl].
      * rewrite decide_True; [reflexivity|]. now apply list_elem_of_further.
      * rewrite decide_False; [reflexivity|].
        intros [->|H]%elem_of_cons; [congruence|contradiction].
Qed.

Lemma disconnected_elem (l : list nat) :
  forall (w : list connection) (x : connection),
    x ∈ disconnected l w <-> x ∈ w /\ forall s, s ∈ l -> from x ≠ Node s.
Proof.
  induction l as [|s l IH]; intros w x; cbn [disconnected fold_left].
  - split; [intros H; split; [exact H|]|tauto].
    intros s Hs. now apply not_elem_of_nil in Hs.
  - change (fold_left _ l ?y) with (disconnected l y).
    rewrite IH, list_elem_of_filter. split.
    + intros [[Hx Hw] Hl]. split; [exact Hw|].
      intros s' [->|H]%elem_of_cons; auto.
    + intros [Hw Hl]. split; [split; [|exact Hw]|].
      * apply Hl, list_elem_of_here.
      * intros s' Hs'. apply Hl. now apply list_elem_of_further.
Qed.

Lemma cleared_lookup (o : option nat) (tm : gmap nat timer) (id : nat) :
  cleared o tm !! id = if decide (o = Some id) then None else tm !! id.
Proof.
  destruct o as [t|]; cbn.
  - destruct (decide (t = id)) as [->|Hne].
    + rewrite decide_True by reflexivity. apply lookup_delete_eq.
    + rewrite decide_False by congruence. now apply lookup_delete_ne.
  - now rewrite decide_False.
Qed.

Lemma cleanup_idem (e : engine) : cleanup (cleanup e) = cleanup e.
Proof.
  rewrite (cleanup_explicit e).
  destruct e as [c mg lim an src nds nc st rt vol pl g w bufs tm ts nw ct
                   rnd dr dev].
  proj.
  match goal with |- cleanup ?x = _ =>
    let y := eval lazy beta iota zeta delta
      [set_playing set_riTimeout set_sequencerTimer set_timers set_nodes
       set_sources set_wires set_graph
       ctx masterGain limiter analyser sources nodes noiseCache sequencerTimer
       riTimeout _vol _playing graph wires buffers timers timer_seq now
       currentTime random drawn device] in x in
    change x with y
  end.
  rewrite cleanup_explicit. reflexivity.
Qed.

(** X5. [cleanup()] leaves an idle engine: no sources, no intermediate
    nodes, no sequencer or auto-stop timer, the flag cleared.  Every former
    source that had started is stopped and every other node is untouched; the
    wires that remain are those that left neither a former source nor a
    former intermediate node; the two timers it held are gone from the timer
    table and no other timer is.  The master gain, the volume and the noise
    cache are kept.  On such an engine, [cleanup()] and [stop()] change
    nothing more and [stop()] returns a resolved promise. *)
Theorem cleanup_tears_down (e : engine) :
  let e' := cleanup e in
  sources e' = [] /\ nodes e' = [] /\ _playing e' = false /\
  sequencerTimer e' = None /\ riTimeout e' = None /\
  (forall n : nat,
     graph e' !! n
     = if decide (n ∈ sources e) then stop_source <$> graph e !! n
       else graph e !! n) /\
  (forall x : connection,
     x ∈ wires e' <->
     x ∈ wires e /\ forall s, s ∈ sources e ++ nodes e -> from x ≠ Node s) /\
  (forall id : nat,
     timers e' !! id
     = if decide (sequencerTimer e = Some id \/ riTimeout e = Some id)
       then None else timers e !! id) /\
  masterGain e' = masterGain e /\ _vol e' = _vol e /\
  noiseCache e' = noiseCache e /\ buffers e' = buffers e /\
  cleanup e' = e' /\
  stop e' = (Resolved, e').
Proof.
  intros e'. subst e'.
  pose proof (cleanup_idem e) as Hidem.
  split; [now rewrite cleanup_explicit|]. split; [now rewrite cleanup_explicit|].
  split; [now rewrite cleanup_explicit|]. split; [now rewrite cleanup_explicit|].
  split; [now rewrite cleanup_explicit|].
  split; [intros n; rewrite cleanup_explicit; proj; apply stopped_lookup|].
  split.
  { intros x. rewrite cleanup_explicit. proj. rewrite !disconnected_elem.
    split.
    - intros [[Hw Hs] Hn]. split; [exact Hw|].
      intros s [H|H]%elem_of_app; auto.
    - intros [Hw H]. split; [split; [exact Hw|]|].
      + intros s Hs. apply H, elem_of_app. now left.
      + intros s Hs. apply H, elem_of_app. now right. }
  split.
  { intros id. rewrite cleanup_explicit. proj. rewrite !cleared_lookup.
    repeat case_decide; try reflexivity; tauto. }
  split; [now rewrite cleanup_explicit|]. split; [now rewrite cleanup_explicit|].
  split; [now rewrite cleanup_explicit|]. split; [now rewrite cleanup_explicit|].
  split; [exact Hidem|].
  unfold stop. rewrite Hidem.
  replace (_playing (cleanup e)) with false by now rewrite cleanup_explicit.
  replace (sources (cleanup e)) with (@nil nat) by now rewrite cleanup_explicit.
  reflexivity.
Qed.

(** X6. A timer the engine cancelled never runs its callback: once the
    session is cleaned up, firing the handle the sequencer interval or the
    auto-stop timeout had changes nothing. *)
Theorem cancelled_timer_never_fires (fuel id : nat) (e : engine) :
  sequencerTimer e = Some id \/ riTimeout e = Some id ->
  timers (cleanup e) !! id = None /\
  fire fuel id (cleanup e) = Done (cleanup e).
Proof.
  intros H.
  assert (T : timers (cleanup e) !! id = None).
  { rewrite cleanup_explicit. proj. rewrite !cleared_lookup.
    repeat case_decide; try reflexivity. destruct H; congruence. }
  split; [exact T|]. unfold fire. now rewrite T.
Qed.

Lemma cancelled_timer_never_fires_witness :
  let e := construct (ResidualInhibition 1000 None)
             (new_engine toy_device alternating) in
  fire 0 1 (cleanup e) = Done (cleanup e).
Proof.
  intros e.
  exact (proj2 (cancelled_timer_never_fires 0 1 e (or_intror eq_refl))).
Defined.

End Teardown.

(** ** Routing: nothing bypasses the limiter *)

Section Routing.

Local Open Scope float_scope.

(** The only way to the loudspeakers is gain → limiter → analyser →
    destination: a wire into the limiter leaves the master gain, a wire into
    the analyser leaves the limiter, a wire into the destination leaves the
    analyser. *)
Definition through_chain (x : connection) : Prop :=
  match to x with
  | Destination => from x = Analyser
  | Analyser => from x = Limiter
  | Limiter => from x = MasterGain
  | _ => True
  end.

Definition guarded (e : engine) : Prop := Forall through_chain (wires e).

Lemma guarded_wires x y : wires y = wires x -> guarded x -> guarded y.
Proof. unfold guarded. now intros ->. Qed.

Lemma guarded_connect a o b i x :
  through_chain {| from := a; output := o; to := b; input := i |} ->
  guarded x -> guarded (connect a o b i x).
Proof.
  intros H G. unfold guarded, connect. proj.
  apply Forall_app. split; [exact G|]. constructor; [exact H|constructor].
Qed.

Lemma Forall_filter_keeps {A} (P : A -> Prop) (Q : A -> Prop)
    `{!forall x, Decision (Q x)} (l : list A) :
  Forall P l -> Forall P (filter Q l).
Proof.
  rewrite !Forall_forall. intros HP x [_ Hx]%list_elem_of_filter. auto.
Qed.

Lemma guarded_disconnect a x : guarded x -> guarded (disconnect a x).
Proof. intros G. unfold guarded, disconnect. proj. now apply Forall_filter_keeps. Qed.

Lemma guarded_master x : guarded x -> guarded (master x).
Proof.
  intros G. unfold guarded. rewrite wires_master.
  apply Forall_app. split.
  - unfold unchained. now do 3 apply Forall_filter_keeps.
  - repeat constructor.
Qed.

Lemma guarded_fadeIn t x : guarded x -> guarded (fadeIn t x).
Proof.
  apply guarded_wires. destruct (fadeIn_shape t x) as (? & ->). reflexivity.
Qed.

Lemma guarded_noiseBuf c t x : guarded x -> guarded (snd (noiseBuf c t x)).
Proof.
  apply guarded_wires. destruct (noiseBuf_shape c t x) as (? & ? & ? & ->).
  reflexivity.
Qed.

Lemma guarded_wire s l x : guarded x -> guarded (wire s l x).
Proof.
  intros G. unfold wire. apply guarded_connect; [exact I|].
  assert (H : forall pe : nat * engine,
             guarded (snd pe) ->
             guarded (snd (fold_left
               (λ (pe : nat * engine) node,
                  (node,
                   set_nodes (nodes (snd pe) ++ [node])
                     (connect (Node (fst pe)) 0 (Node node) 0 (snd pe))))
               l pe))).
  { induction l as [|n l IH]; intros pe Hpe; cbn [fold_left]; [exact Hpe|].
    apply IH. cbn [snd].
    apply (guarded_wires (connect (Node (fst pe)) 0 (Node n) 0 (snd pe)));
      [reflexivity|].
    now apply guarded_connect. }
  apply H. cbn [snd]. now apply guarded_master.
Qed.

Lemma guarded_cleanup x : guarded x -> guarded (cleanup x).
Proof.
  intros G. rewrite cleanup_explicit. unfold guarded. proj.
  assert (H : forall l w, Forall through_chain w ->
                          Forall through_chain (disconnected l w)).
  { induction l as [|s l IH]; intros w Hw; cbn [disconnected fold_left];
      [exact Hw|].
    apply IH. now apply Forall_filter_keeps. }
  now do 2 apply H.
Qed.

Lemma wires_stop_fade x :
  wires (match masterGain x, ctx x with
         | Some g, Some _ =>
             set_masterGain
               (Some (schedule (SetTargetAtTime 0 (currentTime x) 0.025) g)) x
         | _, _ => x
         end) = wires x.
Proof. destruct (masterGain x); [destruct (ctx x)|]; reflexivity. Qed.

Lemma guarded_stop x : guarded x -> guarded (snd (stop x)).
Proof.
  intros G. unfold stop.
  destruct (negb (_playing x) && Nat.eqb (length (sources x)) 0).
  - now apply guarded_cleanup.
  - revert G. apply guarded_wires. proj. apply wires_stop_fade.
Qed.

Lemma guarded_setVolume v x : guarded x -> guarded (setVolume v x).
Proof.
  apply guarded_wires. unfold setVolume. proj.
  destruct (masterGain x); [|reflexivity].
  destruct (ctx x); [|reflexivity]. destruct (_playing x); reflexivity.
Qed.

Lemma wires_fold_graph {A} (f : engine -> A -> list AudioNode) (l : list A) :
  forall x, wires (fold_left (λ e a, set_graph (f e a) e) l x) = wires x.
Proof. induction l as [|a l IH]; intros x; cbn [fold_left]; [|rewrite IH]; reflexivity. Qed.

Lemma guarded_updateOscFrequency f x : guarded x -> guarded (updateOscFrequency f x).
Proof.
  apply guarded_wires. unfold updateOscFrequency.
  destruct (ctx x); [|reflexivity].
  apply (wires_fold_graph
           (λ e s, alter (osc_setFrequency (clampFreq f) (currentTime e)) s (graph e))).
Qed.

Lemma guarded_updateFilterFrequency f x :
  guarded x -> guarded (updateFilterFrequency f x).
Proof.
  apply guarded_wires. unfold updateFilterFrequency.
  destruct (ctx x); [|reflexivity].
  apply (wires_fold_graph
           (λ e s, alter (filter_setFrequency (clampFreq f) (currentTime e)) s (graph e))).
Qed.

Lemma same_wires_set_ctx b x : guarded x -> guarded (set_ctx b x).
Proof. exact (fun G => G). Qed.

Lemma same_wires_set_masterGain b x : guarded x -> guarded (set_masterGain b x).
Proof. exact (fun G => G). Qed.

Lemma same_wires_set_limiter b x : guarded x -> guarded (set_limiter b x).
Proof. exact (fun G => G). Qed.

Lemma same_wires_set_analyser b x : guarded x -> guarded (set_analyser b x).
Proof. exact (fun G => G). Qed.

Lemma same_wires_set_sources b x : guarded x -> guarded (set_sources b x).
Proof. exact (fun G => G). Qed.

Lemma same_wires_set_nodes b x : guarded x -> guarded (set_nodes b x).
Proof. exact (fun G => G). Qed.

Lemma same_wires_set_noiseCache b x : guarded x -> guarded (set_noiseCache b x).
Proof. exact (fun G => G). Qed.

Lemma same_wires_set_sequencerTimer b x : guarded x -> guarded (set_sequencerTimer b x).
Proof. exact (fun G => G). Qed.

Lemma same_wires_set_riTimeout b x : guarded x -> guarded (set_riTimeout b x).
Proof. exact (fun G => G). Qed.

Lemma same_wires_set_vol b x : guarded x -> guarded (set_vol b x).
Proof. exact (fun G => G). Qed.

Lemma same_wires_set_playing b x : guarded x -> guarded (set_playing b x).
Proof. exact (fun G => G). Qed.

Lemma same_wires_set_graph b x : guarded x -> guarded (set_graph b x).
Proof. exact (fun G => G). Qed.

Lemma same_wires_set_buffers b x : guarded x -> guarded (set_buffers b x).
Proof. exact (fun G => G). Qed.

Lemma same_wires_set_timers b x : guarded x -> guarded (set_timers b x).
Proof. exact (fun G => G). Qed.

Lemma same_wires_set_timer_seq b x : guarded x -> guarded (set_timer_seq b x).
Proof. exact (fun G => G). Qed.

Lemma same_wires_set_now b x : guarded x -> guarded (set_now b x).
Proof. exact (fun G => G). Qed.

Lemma same_wires_set_currentTime b x : guarded x -> guarded (set_currentTime b x).
Proof. exact (fun G => G). Qed.

Lemma same_wires_set_drawn b x : guarded x -> guarded (set_drawn b x).
Proof. exact (fun G => G). Qed.

Lemma same_wires_start b x : guarded x -> guarded (start b x).
Proof. exact (fun G => G). Qed.

Lemma same_wires_clearTimer b x : guarded x -> guarded (clearTimer b x).
Proof. exact (fun G => G). Qed.

Lemma same_wires_setTimeout a b x : guarded x -> guarded (snd (setTimeout a b x)).
Proof. exact (fun G => G). Qed.

Lemma same_wires_setInterval a b x : guarded x -> guarded (snd (setInterval a b x)).
Proof. exact (fun G => G). Qed.

Lemma same_wires_create a x : guarded x -> guarded (snd (create a x)).
Proof. exact (fun G => G). Qed.

Lemma same_wires_getCtx x : guarded x -> guarded (snd (getCtx x)).
Proof. exact (fun G => G). Qed.

Lemma same_wires_pair {A} (a : A) x : guarded x -> guarded (snd (a, x)).
Proof. exact (fun G => G). Qed.

End Routing.

(** Reduces [guarded] of a method body to [guarded] of the engine it
    started from, operation by operation. *)
Ltac route1 :=
  lazymatch goal with
  | |- guarded (fadeIn _ _) => apply guarded_fadeIn
  | |- guarded (master _) => apply guarded_master
  | |- guarded (wire _ _ _) => apply guarded_wire
  | |- guarded (snd (noiseBuf _ _ _)) => apply guarded_noiseBuf
  | |- guarded (connect _ _ _ _ _) => apply guarded_connect; [exact I|]
  | |- guarded (disconnect _ _) => apply guarded_disconnect
  | |- guarded (snd (setTimeout ?a ?b ?x)) => apply (same_wires_setTimeout a b x)
  | |- guarded (snd (setInterval ?a ?b ?x)) => apply (same_wires_setInterval a b x)
  | |- guarded (snd (create ?a ?x)) => apply (same_wires_create a x)
  | |- guarded (snd (getCtx ?x)) => apply (same_wires_getCtx x)
  | |- guarded (snd (?a, ?x)) => apply (same_wires_pair a x)
  | |- guarded (set_ctx ?b ?x) => apply (same_wires_set_ctx b x)
  | |- guarded (set_masterGain ?b ?x) => apply (same_wires_set_masterGain b x)
  | |- guarded (set_limiter ?b ?x) => apply (same_wires_set_limiter b x)
  | |- guarded (set_analyser ?b ?x) => apply (same_wires_set_analyser b x)
  | |- guarded (set_sources ?b ?x) => apply (same_wires_set_sources b x)
  | |- guarded (set_nodes ?b ?x) => apply (same_wires_set_nodes b x)
  | |- guarded (set_noiseCache ?b ?x) => apply (same_wires_set_noiseCache b x)
  | |- guarded (set_sequencerTimer ?b ?x) => apply (same_wires_set_sequencerTimer b x)
  | |- guarded (set_riTimeout ?b ?x) => apply (same_wires_set_riTimeout b x)
  | |- guarded (set_vol ?b ?x) => apply (same_wires_set_vol b x)
  | |- guarded (set_playing ?b ?x) => apply (same_wires_set_playing b x)
  | |- guarded (set_graph ?b ?x) => apply (same_wires_set_graph b x)
  | |- guarded (set_buffers ?b ?x) => apply (same_wires_set_buffers b x)
  | |- guarded (set_timers ?b ?x) => apply (same_wires_set_timers b x)
  | |- guarded (set_timer_seq ?b ?x) => apply (same_wires_set_timer_seq b x)
  | |- guarded (set_now ?b ?x) => apply (same_wires_set_now b x)
  | |- guarded (set_currentTime ?b ?x) => apply (same_wires_set_currentTime b x)
  | |- guarded (set_drawn ?b ?x) => apply (same_wires_set_drawn b x)
  | |- guarded (start ?b ?x) => apply (same_wires_start b x)
  | |- guarded (clearTimer ?b ?x) => apply (same_wires_clearTimer b x)
  end.

Ltac route :=
  lazy beta iota zeta delta [create getCtx];
  repeat route1.

Section Routed.

Local Open Scope float_scope.

Lemma guarded_add_tone c acc r :
  guarded (snd acc) -> guarded (snd (add_tone c acc r)).
Proof. intros G. unfold add_tone. route. exact G. Qed.

Lemma guarded_build c x :
  guarded x -> guarded (snd (playCoordinatedReset_build c x)).
Proof.
  intros G. unfold playCoordinatedReset_build. route.
  assert (H : forall l acc,
             guarded (snd acc) -> guarded (snd (fold_left (add_tone c) l acc))).
  { induction l as [|y l IH]; intros acc Ha; cbn [fold_left]; [exact Ha|].
    apply IH. now apply guarded_add_tone. }
  apply H. cbn [snd]. route. exact G.
Qed.

Lemma guarded_construct (m : mode) (x : engine) :
  guarded x -> guarded (construct m x).
Proof.
  intros G. destruct m; cbn [construct].
  - unfold playTone_body. route. exact G.
  - unfold playNoise_body. destruct (truthy centerFreq); route; exact G.
  - unfold playNotchedNoise_body. route. exact G.
  - now apply guarded_build.
  - unfold playAM_body. route. exact G.
  - unfold playBinaural_body. route. exact G.
  - unfold playResidualInhibition_body, playTone_body. route. exact G.
  - unfold playPhaseCancellation_body. route. exact G.
Qed.

Lemma guarded_resume fuel m x x' :
  resume fuel m x = Done x' -> guarded x -> guarded x'.
Proof.
  destruct m;
    try (intros H; apply Done_inj in H; rewrite <- H; apply guarded_construct).
  cbn [resume]. intros H G. apply CR_body_inv in H as (cur & E & S & ->).
  apply (guarded_wires E); [reflexivity|].
  apply (guarded_wires _ _ (wires_step _ _ _ _ _ _ S)).
  now apply guarded_build.
Qed.

Lemma guarded_fire fuel id x x' :
  fire fuel id x = Done x' -> guarded x -> guarded x'.
Proof.
  unfold fire. destruct (timers x !! id) as [t|];
    [|intros H; apply Done_inj in H; now rewrite <- H].
  set (E := match interval t with Some _ => _ | None => _ end).
  assert (HE : wires E = wires x) by (unfold E; destruct (interval t); reflexivity).
  clearbody E. intros H G.
  assert (GE : guarded E) by exact (guarded_wires _ _ HE G).
  destruct (handler t).
  - apply Done_inj in H. rewrite <- H. now apply guarded_cleanup.
  - apply bind_Done_inv in H as ([c E'] & S & H). apply Done_inj in H.
    rewrite <- H. apply (guarded_wires E'); [reflexivity|].
    exact (guarded_wires _ _ (wires_step _ _ _ _ _ _ S) GE).
  - apply Done_inj in H. rewrite <- H. now apply guarded_stop.
  - apply Done_inj in H. rewrite <- H. revert GE. now apply guarded_wires.
Qed.

Lemma guarded_exec fuel a x x' :
  exec fuel a x = Done x' -> guarded x -> guarded x'.
Proof.
  destruct a; cbn [exec];
    try (intros H; apply Done_inj in H; rewrite <- H).
  - apply guarded_stop.
  - apply guarded_setVolume.
  - apply guarded_updateOscFrequency.
  - apply guarded_updateFilterFrequency.
  - intros G. unfold destroy.
    apply (guarded_wires (snd (stop x))); [reflexivity|].
    now apply guarded_stop.
  - apply guarded_resume.
  - apply guarded_fire.
  - now apply guarded_wires.
Qed.

(** X7. Nothing the engine does lets sound bypass the limiter: in every
    state it can reach, a wire into the destination leaves the analyser, a
    wire into the analyser leaves the limiter and a wire into the limiter
    leaves the master gain. *)
Theorem output_always_through_limiter (dev : AudioContext) (rnd : nat -> float)
    (e : engine) :
  reachable dev rnd e ->
  forall x : connection,
    x ∈ wires e ->
    (to x = Destination -> from x = Analyser) /\
    (to x = Analyser -> from x = Limiter) /\
    (to x = Limiter -> from x = MasterGain).
Proof.
  intros R.
  assert (G : guarded e).
  { induction R as [|fuel a e e' _ IH X]; [constructor|].
    exact (guarded_exec _ _ _ _ X IH). }
  intros x Hx. unfold guarded in G. rewrite Forall_forall in G.
  specialize (G x Hx). unfold through_chain in G.
  destruct (to x); repeat split; try discriminate; intros _; exact G.
Qed.

Lemma output_always_through_limiter_witness :
  Forall
    (λ x : connection,
       (to x = Destination -> from x = Analyser) /\
       (to x = Analyser -> from x = Limiter) /\
       (to x = Limiter -> from x = MasterGain))
    (wires (construct (Binaural 440 None) (new_engine toy_device alternating))).
Proof.
  apply Forall_forall.
  apply (output_always_through_limiter toy_device alternating).
  apply (reachable_exec _ _ 0 (Resume (Binaural 440 None))
           (new_engine toy_device alternating)); [apply reachable_new|reflexivity].
Defined.

End Routed.

(** ** Noise buffers *)

Section NoiseBuffers.

Local Open Scope float_scope.

Lemma white_loop_spec (rnd : nat -> float) (pos k : nat) :
  forall (i : nat) (d : Float32Array),
    (i + k <= length d)%nat ->
    let r := white_loop k i rnd (pos + i) d in
    snd r = (pos + i + k)%nat /\
    length (fst r) = length d /\
    forall j : nat,
      fst r !! j =
        if decide (i <= j < i + k)%nat
        then Some (Math_fround (white_sample rnd pos j))
        else d !! j.
Proof.
  induction k as [|k IH]; intros i d Hlen; cbn [white_loop Math_random].
  - cbn [fst snd]. split; [lia|]. split; [reflexivity|].
    intros j. case_decide; [lia|reflexivity].
  - replace (S (pos + i)) with (pos + S i)%nat by lia.
    destruct (IH (S i) (<[i := Math_fround (rnd (pos + i)%nat * 2 - 1)]> d))
      as (Hpos & Hl & Hget).
    { rewrite length_insert. lia. }
    split; [rewrite Hpos; lia|]. split; [now rewrite Hl, length_insert|].
    intros j. rewrite Hget.
    destruct (decide (j = i)) as [->|Hne].
    + case_decide; [lia|]. case_decide; [|lia].
      apply list_lookup_insert_eq. lia.
    + rewrite list_lookup_insert_ne by congruence.
      repeat case_decide; try lia; reflexivity.
Qed.

(** Every generator fills a channel of [N] samples from [N] draws. *)
Lemma generate_size (t : NoiseColor) (N : nat) (rnd : nat -> float) (pos : nat) :
  length (fst (generate t N rnd pos)) = N /\
  snd (generate t N rnd pos) = (pos + N)%nat.
Proof.
  destruct t; unfold generate.
  - destruct (white_loop_spec rnd pos N 0 (replicate N 0)) as (H1 & H2 & _).
    { rewrite length_replicate. lia. }
    rewrite Nat.add_0_r in H1, H2. rewrite H2, length_replicate. split; [reflexivity|lia].
  - destruct (pink_loop_spec rnd pos N 0 (replicate N 0) (pink_before rnd pos 0)
                eq_refl) as (H1 & H2 & _).
    { rewrite length_replicate. lia. }
    rewrite Nat.add_0_r in H1, H2.
    change (pink_before rnd pos 0)
      with {| b0 := 0; b1 := 0; b2 := 0; b3 := 0; b4 := 0; b5 := 0; b6 := 0 |}
      in H1, H2.
    rewrite H2, length_replicate. split; [reflexivity|lia].
  - destruct (brown_loop_spec rnd pos N 0 (replicate N 0) 0 eq_refl)
      as (H1 & H2 & _).
    { rewrite length_replicate. lia. }
    rewrite Nat.add_0_r in H1, H2. rewrite H2, length_replicate. split; [reflexivity|lia].
Qed.

Lemma color_name_inj (a b : NoiseColor) : color_name a = color_name b -> a = b.
Proof. destruct a, b; cbn; intros H; congruence. Qed.

(** X8. A noise colour requested for the first time gets a buffer of two
    seconds of mono audio ([2 × sampleRate] samples) that costs exactly one
    random number per sample; the buffer is appended to the buffers already
    there and cached under the colour's name, and the entries of the other
    colours stay.  White sample [i] is [Math.random() × 2 − 1] for the
    [i]-th draw, as a [Float32Array] holds it. *)
Theorem noise_buffer_two_seconds (c : AudioContext) (t : NoiseColor) (e : engine) :
  noiseCache e !! color_name t = None ->
  let r := noiseBuf c t e in
  let N := (2 * sampleRate c)%nat in
  (exists d : Float32Array,
     buffers (snd r) !! fst r = Some d /\
     length d = N /\
     (t = white ->
      forall i : nat,
        (i < N)%nat ->
        d !! i = Some (Math_fround (random e (drawn e + i)%nat * 2 - 1)))) /\
  drawn (snd r) = (drawn e + N)%nat /\
  noiseCache (snd r) !! color_name t = Some (fst r) /\
  (forall t', t' <> t ->
              noiseCache (snd r) !! color_name t' = noiseCache e !! color_name t') /\
  (forall b d', buffers e !! b = Some d' -> buffers (snd r) !! b = Some d').
Proof.
  intros Hmiss r N. subst r. unfold noiseBuf. rewrite Hmiss. proj.
  fold N.
  destruct (generate_size t N (random e) (drawn e)) as [Hl Hd].
  split; [|split; [exact Hd|split; [apply lookup_insert_eq|split]]].
  - exists (fst (generate t N (random e) (drawn e))).
    split; [|split; [exact Hl|]].
    + rewrite lookup_app_r by lia. now rewrite Nat.sub_diag.
    + intros -> i Hi. unfold generate.
      destruct (white_loop_spec (random e) (drawn e) N 0 (replicate N 0))
        as (_ & _ & Hget).
      { rewrite length_replicate. lia. }
      rewrite Nat.add_0_r in Hget. rewrite Hget.
      rewrite decide_True by lia. reflexivity.
  - intros t' Ht'. apply lookup_insert_ne. intros H.
    apply color_name_inj in H. congruence.
  - intros b d' Hb. rewrite lookup_app_l; [exact Hb|].
    eapply lookup_lt_Some, Hb.
Qed.

Lemma noise_buffer_two_seconds_witness :
  drawn (snd (noiseBuf toy_device white (new_engine toy_device alternating)))
  = 8%nat.
Proof.
  exact (proj1 (proj2 (noise_buffer_two_seconds toy_device white
                         (new_engine toy_device alternating) eq_refl))).
Defined.

End NoiseBuffers.

(** ** Timeouts: residual inhibition and destroy *)

Section Timers.

Local Open Scope float_scope.

(** The fade-out [stop()] starts when a session is active. *)
Definition faded (e : engine) : engine :=
  match masterGain e, ctx e with
  | Some g, Some _ =>
      set_masterGain
        (Some (schedule (SetTargetAtTime 0 (currentTime e) 0.025) g)) e
  | _, _ => e
  end.

(** The timeout that ends the fade-out. *)
Definition stop_timer (e : engine) : timer :=
  {| due := now e + 180; interval := None; handler := StopTimeout |}.

Lemma stop_active (e : engine) :
  active e = true ->
  stop e
  = (ResolvedBy (timer_seq e),
     set_timer_seq (S (timer_seq e))
       (set_timers (<[timer_seq e := stop_timer e]> (timers (faded e)))
          (faded e))).
Proof.
  unfold active, stop. intros H.
  destruct (negb (_playing e) && Nat.eqb (length (sources e)) 0);
    [discriminate|].
  fold (faded e).
  assert (D : Z.max 0 (ToInt32 (FADE_OUT_SEC * 1000 + 60)) = 180%Z)
    by (vm_compute; reflexivity).
  unfold setTimeout. rewrite D.
  assert (F : timer_seq (faded e) = timer_seq e /\ now (faded e) = now e).
  { unfold faded. destruct (masterGain e); [destruct (ctx e)|]; auto. }
  destruct F as [-> ->]. reflexivity.
Qed.

Lemma faded_frame (e : engine) :
  faded e = set_masterGain (masterGain (faded e)) e.
Proof.
  unfold faded. destruct e as [c [g|] lim an src nds nc st rt vol pl gr w bufs
                                 tm ts nw ct rnd dr dev]; [destruct c|];
    reflexivity.
Qed.

(** A timeout that fires: the clock reaches its due time and the timer is
    gone before its callback runs. *)
Definition fired (id : nat) (t : timer) (e : engine) : engine :=
  clearTimer id (set_now (Z.max (now e) (due t)) e).

Lemma fire_timeout (fuel id : nat) (t : timer) (e : engine) :
  timers e !! id = Some t -> interval t = None ->
  fire fuel id e
  = match handler t with
    | StopTimeout => Done (cleanup (fired id t e))
    | SequencerStep gains cur =>
        '(cur, e) ← step fuel gains cur (fired id t e);
        Done (set_timers
                (alter (λ t, {| due := due t; interval := interval t;
                                handler := SequencerStep gains cur |})
                   id (timers e)) e)
    | RiTimeout => Done (snd (stop (fired id t e)))
    | DestroyTimeout =>
        Done (set_analyser None
                (set_limiter None
                   (set_masterGain None (set_ctx None (fired id t e)))))
    end.
Proof. intros Ht Hi. unfold fire. rewrite Ht, Hi. reflexivity. Qed.

Lemma cleanup_idle (e : engine) :
  sources (cleanup e) = [] /\ nodes (cleanup e) = [] /\
  _playing (cleanup e) = false /\
  sequencerTimer (cleanup e) = None /\ riTimeout (cleanup e) = None /\
  timers (cleanup e)
  = cleared (riTimeout e) (cleared (sequencerTimer e) (timers e)) /\
  now (cleanup e) = now e /\ ctx (cleanup e) = ctx e /\
  masterGain (cleanup e) = masterGain e /\
  noiseCache (cleanup e) = noiseCache e /\ buffers (cleanup e) = buffers e.
Proof. rewrite cleanup_explicit. repeat split; reflexivity. Qed.

Lemma tone_keeps_timers (f : float) (w : OscillatorType) (e : engine) :
  timers (playTone_body f w e) = timers e /\
  timer_seq (playTone_body f w e) = timer_seq e /\
  now (playTone_body f w e) = now e /\
  _playing (playTone_body f w e) = true /\
  sequencerTimer (playTone_body f w e) = sequencerTimer e.
Proof. open_engine e; compute_body; repeat split; reflexivity. Qed.

(** The auto-stop timeout on any playing engine [T]. *)
Lemma ri_timeout_runs (durationSec : option float) (T : engine) (fuel : nat) :
  _playing T = true ->
  let E := playResidualInhibition_body durationSec T in
  let id := timer_seq T in
  let at_ms :=
    (now T + Z.max 0 (ToInt32 (default 60 durationSec * 1000)%float))%Z in
  riTimeout E = Some id /\
  timers E !! id
  = Some {| due := at_ms; interval := None; handler := RiTimeout |} /\
  exists E1 E2,
    fire fuel id E = Done E1 /\
    _playing E1 = true /\
    timers E1 !! id = None /\
    timers E1 !! S id
    = Some {| due := Z.max (now T) at_ms + 180; interval := None;
              handler := StopTimeout |} /\
    fire fuel (S id) E1 = Done E2 /\
    sources E2 = [] /\ nodes E2 = [] /\ _playing E2 = false /\
    riTimeout E2 = None /\
    timers E2 !! id = None /\ timers E2 !! S id = None.
Proof.
  intros Hpl E id at_ms.
  set (t := {| due := at_ms; interval := None; handler := RiTimeout |}).
  assert (HE : E = set_riTimeout (Some id)
                     (set_timer_seq (S id) (set_timers (<[id := t]> (timers T)) T)))
    by reflexivity.
  clearbody E.
  assert (Ht : timers E !! id = Some t).
  { rewrite HE. proj. apply lookup_insert_eq. }
  split; [now rewrite HE|]. split; [exact Ht|].
  pose proof (fire_timeout fuel id t E Ht eq_refl) as F1. cbn [handler t] in F1.
  assert (A0 : active (fired id t E) = true).
  { unfold active, fired. rewrite HE. proj. now rewrite Hpl. }
  assert (H0 : timer_seq (fired id t E) = S id /\
               now (fired id t E) = Z.max (now T) at_ms /\
               timers (fired id t E) = delete id (<[id := t]> (timers T)) /\
               riTimeout (fired id t E) = Some id /\
               _playing (fired id t E) = true).
  { unfold fired. rewrite HE. proj. rewrite Hpl. repeat split; reflexivity. }
  set (E0 := fired id t E) in *. clearbody E0.
  destruct H0 as (S0 & N0 & T0 & R0 & P0).
  pose proof (stop_active E0 A0) as HS. rewrite S0 in HS.
  assert (H1 : snd (stop E0)
               = set_timer_seq (S (S id))
                   (set_timers (<[S id := stop_timer E0]> (timers (faded E0)))
                      (faded E0))).
  { rewrite HS. reflexivity. }
  set (E1 := snd (stop E0)) in *. clearbody E1. clear HS.
  assert (HF : timers (faded E0) = timers E0 /\ _playing (faded E0) = true /\
               riTimeout (faded E0) = Some id).
  { rewrite faded_frame. proj. repeat split; assumption || reflexivity. }
  set (F0 := faded E0) in *. clearbody F0.
  destruct HF as (FT & FP & FR).
  assert (Ht1 : timers E1 !! S id = Some (stop_timer E0)).
  { rewrite H1. proj. apply lookup_insert_eq. }
  exists E1, (cleanup (fired (S id) (stop_timer E0) E1)).
  split; [exact F1|]. split; [rewrite H1; exact FP|].
  split.
  { rewrite H1. proj. rewrite lookup_insert_ne by lia.
    rewrite FT, T0. apply lookup_delete_eq. }
  split; [rewrite Ht1; unfold stop_timer; now rewrite N0|].
  split; [exact (fire_timeout fuel (S id) _ E1 Ht1 eq_refl)|].
  destruct (cleanup_idle (fired (S id) (stop_timer E0) E1))
    as (C1 & C2 & C3 & _ & C5 & C6 & _).
  split; [exact C1|]. split; [exact C2|]. split; [exact C3|].
  split; [exact C5|].
  assert (R1 : riTimeout (fired (S id) (stop_timer E0) E1) = Some id).
  { unfold fired. rewrite H1. proj. exact FR. }
  assert (T1 : timers (fired (S id) (stop_timer E0) E1) !! S id = None).
  { unfold fired. proj. apply lookup_delete_eq. }
  rewrite C6, R1. clear C1 C2 C3 C5 C6 R1.
  set (TT := timers (fired (S id) (stop_timer E0) E1)) in *. clearbody TT.
  split.
  - cbn [cleared]. apply lookup_delete_eq.
  - cbn [cleared]. rewrite lookup_delete_ne by lia.
    rewrite cleared_lookup. case_decide; [reflexivity|exact T1].
Qed.

(** X9. Residual inhibition ends by itself.  [playResidualInhibition(freq,
    durationSec)] leaves one timeout, due [durationSec × 1000] ms later
    (60 000 ms by default) and remembered in [riTimeout]; when it fires it
    calls [stop()], which starts the fade-out, and when the fade-out
    timeout fires 180 ms after that the session is torn down: no sources,
    no intermediate nodes, not playing, and neither timer left. *)
Theorem residual_inhibition_stops_itself (freq : float)
    (durationSec : option float) (e : engine) (fuel : nat) :
  let E := construct (ResidualInhibition freq durationSec) e in
  let id := timer_seq e in
  let at_ms :=
    (now e + Z.max 0 (ToInt32 (default 60 durationSec * 1000)%float))%Z in
  riTimeout E = Some id /\
  timers E !! id
  = Some {| due := at_ms; interval := None; handler := RiTimeout |} /\
  Z.max 0 (ToInt32 (default 60 None * 1000)) = 60000%Z /\
  exists E1 E2,
    fire fuel id E = Done E1 /\
    _playing E1 = true /\
    timers E1 !! id = None /\
    timers E1 !! S id
    = Some {| due := Z.max (now e) at_ms + 180; interval := None;
              handler := StopTimeout |} /\
    fire fuel (S id) E1 = Done E2 /\
    sources E2 = [] /\ nodes E2 = [] /\ _playing E2 = false /\
    riTimeout E2 = None /\
    timers E2 !! id = None /\ timers E2 !! S id = None.
Proof.
  intros E id at_ms. subst E id at_ms. cbn [construct].
  destruct (tone_keeps_timers freq sine e) as (_ & Hts & Hnow & Hpl & _).
  pose proof (ri_timeout_runs durationSec (playTone_body freq sine e) fuel Hpl)
    as H.
  cbv zeta in H. rewrite Hts, Hnow in H.
  destruct H as (H1 & H2 & H3).
  split; [exact H1|]. split; [exact H2|]. split; [vm_compute; reflexivity|].
  exact H3.
Qed.

(** X10. [destroy()] stops the session and, 300 ms later, drops the audio
    context and the master chain.  The fade-out timeout of an active
    session (180 ms) is due before that.  The generated noise buffers and
    their cache survive, and the next [master()] starts from a new gain of
    value 0 with no automation. *)
Theorem destroy_releases_chain (e : engine) (fuel : nat) :
  let id := timer_seq (snd (stop e)) in
  timers (destroy e) !! id
  = Some {| due := now e + 300; interval := None; handler := DestroyTimeout |} /\
  (active e = true ->
   timers (destroy e) !! timer_seq e
   = Some {| due := now e + 180; interval := None; handler := StopTimeout |}) /\
  exists e',
    fire fuel id (destroy e) = Done e' /\
    ctx e' = None /\ masterGain e' = None /\ limiter e' = None /\
    analyser e' = None /\
    timers e' !! id = None /\
    noiseCache e' = noiseCache e /\ buffers e' = buffers e /\
    _vol e' = _vol e /\
    masterGain (master e') = Some (param 0).
Proof.
  intros id.
  assert (D : Z.max 0 (ToInt32 300) = 300%Z) by (vm_compute; reflexivity).
  assert (HS : now (snd (stop e)) = now e /\
               noiseCache (snd (stop e)) = noiseCache e /\
               buffers (snd (stop e)) = buffers e /\
               _vol (snd (stop e)) = _vol e /\
               (active e = true ->
                timers (snd (stop e)) !! timer_seq e = Some (stop_timer e) /\
                timer_seq (snd (stop e)) = S (timer_seq e))).
  { destruct (active e) eqn:A.
    - rewrite (stop_active e A). proj. rewrite faded_frame. proj.
      repeat split; try reflexivity. apply lookup_insert_eq.
    - unfold active in A. unfold stop.
      destruct (negb (_playing e) && Nat.eqb (length (sources e)) 0);
        [|discriminate].
      proj. rewrite cleanup_explicit. proj.
      repeat split; try reflexivity; discriminate. }
  destruct HS as (N & NC & B & V & HA).
  set (t := {| due := now e + 300; interval := None; handler := DestroyTimeout |}).
  assert (HD : destroy e
               = set_timer_seq (S id)
                   (set_timers (<[id := t]> (timers (snd (stop e)))) (snd (stop e)))).
  { unfold destroy, setTimeout. rewrite D, N. reflexivity. }
  assert (Ht : timers (destroy e) !! id = Some t).
  { rewrite HD. proj. apply lookup_insert_eq. }
  split; [exact Ht|]. split.
  { intros A. destruct (HA A) as [H1 H2]. rewrite HD. proj.
    rewrite lookup_insert_ne; [exact H1|]. unfold id. rewrite H2. lia. }
  eexists. split; [exact (fire_timeout fuel id t (destroy e) Ht eq_refl)|].
  cbn [handler t]. unfold fired. proj.
  split; [reflexivity|]. split; [reflexivity|]. split; [reflexivity|].
  split; [reflexivity|].
  split; [apply lookup_delete_eq|].
  rewrite HD. proj.
  split; [exact NC|]. split; [exact B|]. split; [exact V|].
  rewrite masterGain_master. reflexivity.
Qed.

End Timers.

(** ** The sequencer's clock *)

Section SequencerClock.

Local Open Scope Z_scope.

Lemma gain_set_frame g x t tc e e' :
  gain_setTargetAtTime g x t tc e = Some e' -> e' = set_graph (graph e') e.
Proof.
  unfold gain_setTargetAtTime.
  destruct (graph e !! g) as [[]|]; intros [= <-]; reflexivity.
Qed.

(** A tick writes the node store and the position in the random sequence,
    nothing else. *)
Lemma step_frame fuel gains cur e cur' e' :
  step fuel gains cur e = Done (cur', e') ->
  e' = set_drawn (drawn e') (set_graph (graph e') e).
Proof.
  intros H. apply step_inv in H.
  destruct H as [(_ & _ & ->)|(_ & e1 & pos & g & H1 & _ & _ & G)];
    [now destruct e|].
  apply gain_set_frame in G. rewrite G. proj.
  destruct H1 as [[_ ->]|(_ & g0 & _ & G0)]; [reflexivity|].
  apply gain_set_frame in G0. rewrite G0. reflexivity.
Qed.

Lemma build_keeps_timers (c : float) (e : engine) :
  let b := snd (playCoordinatedReset_build c e) in
  timers b = timers e /\ timer_seq b = timer_seq e /\ now b = now e.
Proof.
  unfold playCoordinatedReset_build.
  open_engine e; compute_body; repeat split; reflexivity.
Qed.

(** The interval timer of a running sequencer: due at [d], every [ms],
    remembering the tone [cur] selected last. *)
Definition ticking (id : nat) (ms : Z) (gains : list nat) (d cur : Z)
    (e : engine) : Prop :=
  _playing e = true /\ gains_ready gains e /\ Math_random_ok (random e) /\
  0 <= cur < 4 /\
  timers e !! id
  = Some {| due := d; interval := Some ms; handler := SequencerStep gains cur |}.

Lemma fire_tick (id : nat) (ms : Z) (gains : list nat) (d cur : Z) (e : engine) :
  ticking id ms gains d cur e ->
  exists fuel0 cur' e',
    (forall fuel, (fuel0 <= fuel)%nat -> fire fuel id e = Done e') /\
    cur' <> cur /\
    ticking id ms gains (d + ms) cur' e' /\
    now e' = Z.max (now e) d /\
    sequencerTimer e' = sequencerTimer e /\ sources e' = sources e.
Proof.
  intros (Hp & Hr & Hok & Hc & Ht).
  set (t := {| due := d; interval := Some ms; handler := SequencerStep gains cur |})
    in *.
  set (E := set_timers
              (<[id := {| due := due t + ms; interval := interval t;
                          handler := handler t |}]> (timers e))
              (set_now (Z.max (now e) (due t)) e)).
  destruct (step_total gains cur E Hp Hr Hok ltac:(lia))
    as (f & cur' & e1 & S & Hne & Hc' & Hp1 & Hr1 & Hn1).
  pose proof (step_frame _ _ _ _ _ _ (S f (Nat.le_refl f))) as F.
  exists f, cur'.
  eexists. split; [|split; [exact Hne|]].
  - intros fuel Hf. unfold fire. rewrite Ht. cbn [interval handler t].
    fold t. change (clearTimer id ?x) with (clearTimer id x).
    change (step fuel gains cur _) with (step fuel gains cur E).
    rewrite (S fuel Hf). cbn [mbind outcome_bind]. reflexivity.
  - assert (A : timers e1 = timers E /\ now e1 = now E /\
                 sequencerTimer e1 = sequencerTimer E /\ sources e1 = sources E).
    { rewrite F. proj. auto. }
    destruct A as (A1 & A2 & A3 & A4).
    split; [|split; [exact A2|split; [exact A3|exact A4]]].
    split; [exact Hp1|]. split; [exact Hr1|].
    split; [proj; rewrite Hn1; exact Hok|]. split; [exact Hc'|].
    proj. rewrite A1. unfold E. proj.
    rewrite lookup_alter_eq, lookup_insert_eq. reflexivity.
Qed.

Lemma run_ticks (id : nat) (ms : Z) (gains : list nat) (n : nat) :
  forall d cur e,
    ticking id ms gains d cur e ->
    exists fuel0 cur' e',
      (forall fuel, (fuel0 <= fuel)%nat ->
                    run fuel (replicate n (Fire id)) e = Done e') /\
      ticking id ms gains (d + Z.of_nat n * ms) cur' e' /\
      sequencerTimer e' = sequencerTimer e /\ sources e' = sources e.
Proof.
  induction n as [|n IH]; intros d cur e T.
  - exists 0%nat, cur, e. split; [reflexivity|].
    replace (d + Z.of_nat 0 * ms) with d by lia. auto.
  - destruct (fire_tick id ms gains d cur e T)
      as (f1 & c1 & e1 & F & _ & T1 & _ & Q1 & S1).
    destruct (IH _ _ _ T1) as (f2 & c2 & e2 & R & T2 & Q2 & S2).
    exists (Nat.max f1 f2), c2, e2. split; [|split; [|split; congruence]].
    + intros fuel Hf. cbn [replicate run exec].
      rewrite (F fuel) by lia. cbn [mbind outcome_bind]. apply R. lia.
    + replace (d + Z.of_nat (S n) * ms) with (d + ms + Z.of_nat n * ms) by lia.
      exact T2.
Qed.

(** X11. The sequencer keeps time.  If [Math.random] behaves,
    [playCoordinatedReset(centerFreq, tempoMs)] runs to completion: it
    selects a first tone at once and registers one interval of [tempoMs]
    ms (250 by default), kept in [sequencerTimer], whose callback carries
    the four gain nodes and the tone selected last.  Every firing runs to
    completion and leaves the interval due one period later, so after [n]
    firings it is due at [now + (n + 1) × tempoMs]; the session keeps
    playing and its sources stay. *)
Theorem sequencer_keeps_time (centerFreq : float) (tempoMs : option float)
    (e : engine) :
  Math_random_ok (random e) ->
  let ms := Z.max 0 (ToInt32 (default 250%float tempoMs)) in
  let L := length (graph e) in
  let gains := [L + 1; L + 3; L + 5; L + 7]%nat in
  let id := timer_seq e in
  exists fuel0 cur e',
    (forall fuel, (fuel0 <= fuel)%nat ->
       playCoordinatedReset_body fuel centerFreq tempoMs e = Done e') /\
    0 <= cur < 4 /\
    sequencerTimer e' = Some id /\
    timers e' !! id
    = Some {| due := now e + ms; interval := Some ms;
              handler := SequencerStep gains cur |} /\
    forall n : nat,
      exists fuel1 cur' e'',
        (forall fuel, (fuel1 <= fuel)%nat ->
           run fuel (replicate n (Fire id)) e' = Done e'') /\
        0 <= cur' < 4 /\
        timers e'' !! id
        = Some {| due := now e + ms + Z.of_nat n * ms; interval := Some ms;
                  handler := SequencerStep gains cur' |} /\
        _playing e'' = true /\
        sequencerTimer e'' = Some id /\
        sources e'' = sources e ++ [L; L + 2; L + 4; L + 6]%nat.
Proof.
  intros Hok ms L gains id.
  destruct (build_built centerFreq e) as (_ & Hg & _ & Hs & _ & Hp & Hrnd & _).
  destruct (build_keeps_timers centerFreq e) as (Htm & Hts & Hnow).
  pose proof (build_ready centerFreq e) as Hr.
  fold L in Hg, Hs. fold gains in Hg.
  assert (HB : forall fuel,
             playCoordinatedReset_body fuel centerFreq tempoMs e
             = '(cur, x) ← step fuel gains (-1)
                              (snd (playCoordinatedReset_build centerFreq e));
               Done (set_sequencerTimer (Some (timer_seq x))
                       (snd (setInterval (SequencerStep gains cur)
                               (default 250%float tempoMs) x)))).
  { intros fuel. unfold playCoordinatedReset_body. rewrite Hg. reflexivity. }
  rewrite Hg in Hr.
  set (b := snd (playCoordinatedReset_build centerFreq e)) in *. clearbody b.
  rewrite <- Hrnd in Hok.
  destruct (step_total gains (-1) b Hp Hr Hok ltac:(lia))
    as (f & cur & e1 & S & _ & Hc & Hp1 & Hr1 & Hn1).
  pose proof (step_frame _ _ _ _ _ _ (S f (Nat.le_refl f))) as F.
  assert (F1 : timers e1 = timers e /\ timer_seq e1 = id /\ now e1 = now e /\
               sources e1 = sources b /\ random e1 = random b).
  { rewrite F. proj. auto. }
  destruct F1 as (A1 & A2 & A3 & A4 & A5).
  set (e' := set_sequencerTimer (Some (timer_seq e1))
               (snd (setInterval (SequencerStep gains cur)
                       (default 250%float tempoMs) e1))).
  assert (T : ticking id ms gains (now e + ms) cur e').
  { unfold ticking, e', setInterval. proj.
    split; [exact Hp1|]. split; [exact Hr1|].
    split; [rewrite A5; exact Hok|].
    split; [exact Hc|].
    rewrite A2, A3. apply lookup_insert_eq. }
  assert (Q : sequencerTimer e' = Some id /\ sources e' = sources b).
  { unfold e'. proj. rewrite A2, A4. split; reflexivity. }
  assert (R0 : forall fuel, (f <= fuel)%nat ->
                 playCoordinatedReset_body fuel centerFreq tempoMs e = Done e').
  { intros fuel Hf. rewrite HB, (S fuel Hf). reflexivity. }
  clearbody e'.
  exists f, cur, e'. split; [|split; [exact Hc|split; [exact (proj1 Q)|split]]].
  - exact R0.
  - exact (proj2 (proj2 (proj2 (proj2 T)))).
  - intros n.
    destruct (run_ticks id ms gains n _ _ _ T) as (f1 & c1 & e2 & R & T2 & Q2 & S2).
    exists f1, c1, e2. split; [exact R|].
    destruct T2 as (P2 & _ & _ & C2 & M2).
    split; [exact C2|]. split; [exact M2|]. split; [exact P2|].
    split; [rewrite Q2; exact (proj1 Q)|]. rewrite S2, (proj2 Q). exact Hs.
Qed.

Lemma sequencer_keeps_time_witness :
  exists fuel0 cur e',
    (forall fuel, (fuel0 <= fuel)%nat ->
       playCoordinatedReset_body fuel 4000 None
         (new_engine toy_device alternating) = Done e') /\
    0 <= cur < 4 /\
    sequencerTimer e' = Some 1%nat.
Proof.
  destruct (sequencer_keeps_time 4000 None (new_engine toy_device alternating)
              alternating_ok) as (f & cur & e' & H1 & H2 & H3 & _).
  exists f, cur, e'. split; [exact H1|]. split; [exact H2|exact H3].
Defined.

End SequencerClock.

(** ** What a tick writes *)

Section OneToneAtATime.

Local Open Scope float_scope.

(** [n.gain.setTargetAtTime(v, t, 0.015)] on a gain node. *)
Definition retarget (v t : float) (n : AudioNode) : AudioNode :=
  match n with
  | GainNode g => GainNode (schedule (SetTargetAtTime v t 0.015) g)
  | _ => n
  end.

Lemma gain_set_lookup g v t e e' :
  gain_setTargetAtTime g v t 0.015 e = Some e' ->
  (exists p, graph e !! g = Some (GainNode p)) /\
  currentTime e' = currentTime e /\
  forall n, graph e' !! n
            = if decide (n = g) then retarget v t <$> graph e !! n
              else graph e !! n.
Proof.
  unfold gain_setTargetAtTime.
  destruct (graph e !! g) as [[| |p| |]|] eqn:Hg; try discriminate.
  intros [= <-]. split; [eauto|]. split; [reflexivity|].
  intros n. proj. destruct (decide (n = g)) as [->|Hne].
  - rewrite Hg. cbn. apply list_lookup_insert_eq. eapply lookup_lt_Some, Hg.
  - now apply list_lookup_insert_ne.
Qed.

Lemma at_index_inj (gains : list nat) (a b : Z) (g : nat) :
  NoDup gains -> at_index gains a = Some g -> at_index gains b = Some g -> a = b.
Proof.
  unfold at_index. intros Hd.
  destruct (0 <=? a)%Z eqn:Ha; [|discriminate].
  destruct (0 <=? b)%Z eqn:Hb; [|discriminate].
  intros H1 H2. apply Z.leb_le in Ha, Hb.
  pose proof (NoDup_lookup _ _ _ _ Hd H1 H2). lia.
Qed.

(** X12. One tone at a time.  While the session plays, a tick that
    completes selects a gain node other than the current one and fades it
    in: it schedules the target 0.5 on it, 20 ms from now; the gain node of
    the tone that was sounding gets the target 0 now; no other node of the
    graph is written. *)
Theorem step_switches_tone (fuel : nat) (gains : list nat) (cur cur' : Z)
    (e e' : engine) :
  _playing e = true ->
  NoDup gains ->
  step fuel gains cur e = Done (cur', e') ->
  cur' <> cur /\
  exists g' p',
    at_index gains cur' = Some g' /\
    graph e !! g' = Some (GainNode p') /\
    graph e' !! g'
    = Some (GainNode
              (schedule (SetTargetAtTime 0.5 (currentTime e + 0.02) 0.015) p')) /\
    forall n : nat,
      n <> g' ->
      graph e' !! n
      = if decide (at_index gains cur = Some n)
        then retarget 0 (currentTime e) <$> graph e !! n
        else graph e !! n.
Proof.
  intros Hp Hd H.
  pose proof (step_differs _ _ _ _ _ _ Hp H) as Hne.
  split; [exact Hne|].
  apply step_inv in H.
  destruct H as [(Hp' & _)|(_ & e1 & pos & g & H1 & _ & Hg & G)]; [congruence|].
  apply gain_set_lookup in G as ((p1 & Hp1) & _ & L1). proj_in Hp1. proj_in L1.
  destruct H1 as [[Hc ->]|(Hc & g0 & Hg0 & G0)].
  - exists g, p1. split; [exact Hg|]. split; [exact Hp1|]. split.
    + rewrite L1, decide_True by reflexivity. now rewrite Hp1.
    + intros n Hn. rewrite L1, decide_False by exact Hn.
      rewrite decide_False; [reflexivity|].
      unfold at_index. destruct (0 <=? cur)%Z eqn:E; [|discriminate].
      apply Z.leb_le in E. lia.
  - apply gain_set_lookup in G0 as (_ & Ht & L0).
    assert (Hgg : g <> g0).
    { intros ->. apply Hne. exact (at_index_inj _ _ _ _ Hd Hg Hg0). }
    rewrite L0, decide_False in Hp1 by exact Hgg.
    exists g, p1. split; [exact Hg|]. split; [exact Hp1|]. split.
    + rewrite L1, decide_True by reflexivity.
      rewrite L0, decide_False by exact Hgg. rewrite Hp1, Ht. reflexivity.
    + intros n Hn. rewrite L1, decide_False by exact Hn. rewrite L0.
      destruct (decide (n = g0)) as [->|Hn0].
      * now rewrite decide_True.
      * rewrite decide_False; [reflexivity|]. congruence.
Qed.

Lemma step_switches_tone_witness :
  let b := snd (playCoordinatedReset_build 4000 (new_engine toy_device alternating)) in
  exists e',
    step 2 [1; 3; 5; 7]%nat 0 b = Done (3%Z, e') /\
    graph e' !! 7%nat
    = Some (GainNode {| value := 0;
                        events := [SetTargetAtTime 0.5 0.02 0.015] |}) /\
    graph e' !! 1%nat
    = Some (GainNode {| value := 0; events := [SetTargetAtTime 0 0 0.015] |}).
Proof.
  intros b.
  destruct (step 2 [1; 3; 5; 7]%nat 0 b) as [[c e']| |] eqn:H;
    [|vm_compute in H; discriminate H|vm_compute in H; discriminate H].
  assert (Hc : c = 3%Z) by (vm_compute in H; congruence).
  subst c. exists e'. split; [reflexivity|].
  assert (Hd : NoDup [1; 3; 5; 7]%nat)
    by (repeat constructor; intros X; repeat (apply elem_of_cons in X as [X|X];
          [discriminate X|]); apply elem_of_nil in X; exact X).
  destruct (step_switches_tone 2 [1; 3; 5; 7]%nat 0 3 b e' eq_refl Hd H)
    as (_ & g' & p' & Hg & Hp & Hn & Ho).
  cbv in Hg. injection Hg as <-.
  cbv in Hp. injection Hp as <-.
  split; [exact Hn|].
  rewrite (Ho 1%nat) by discriminate. reflexivity.
Defined.

End OneToneAtATime.

(** ** One session at a time *)

Section OneSession.

Local Open Scope float_scope.

(** The handles a mode pushes on [sources] and on [nodes], for a store that
    held [L] nodes before. *)
Definition session_sources (m : mode) (L : nat) : list nat :=
  match m with
  | CoordinatedReset _ _ => [L; L + 2; L + 4; L + 6]
  | AM _ _ _ => [L; L + 1]
  | Binaural _ _ => [L + 1; L + 2]
  | _ => [L]
  end%nat.

Definition session_nodes (m : mode) (L : nat) : list nat :=
  match m with
  | Tone _ _ | ResidualInhibition _ _ => []
  | Noise _ cf _ => if truthy cf then [L + 1] else []
  | NotchedNoise _ _ _ | PhaseCancellation _ => [L + 1]
  | CoordinatedReset _ _ => [L + 1; L + 3; L + 5; L + 7]
  | AM _ _ _ => [L + 2; L + 3]
  | Binaural _ _ => [L]
  end%nat.

Lemma construct_session (m : mode) (e : engine) :
  sources (construct m e) = sources e ++ session_sources m (length (graph e)) /\
  nodes (construct m e) = nodes e ++ session_nodes m (length (graph e)).
Proof.
  destruct m.
  - open_engine e; compute_body; lists; rewrite ?app_nil_r; split; indices.
  - unfold session_nodes. destruct (truthy centerFreq) eqn:Ht;
      open_engine e; noise_body; rewrite ?Ht; compute_body; lists;
      rewrite ?app_nil_r; split; indices.
  - open_engine e; noise_body; lists; split; indices.
  - destruct (build_built centerFreq e) as (_ & _ & _ & H4 & H5 & _).
    split; assumption.
  - open_engine e; compute_body; lists; split; indices.
  - open_engine e; compute_body; lists; split; indices.
  - open_engine e; compute_body; lists; rewrite ?app_nil_r; split; indices.
  - open_engine e; compute_body; lists; split; indices.
Qed.

Lemma await_stop_is_cleanup (e : engine) :
  exists e1,
    await_stop e = cleanup e1 /\
    graph e1 = graph e /\ sources e1 = sources e /\ nodes e1 = nodes e.
Proof.
  unfold await_stop. destruct (active e) eqn:A.
  - rewrite (stop_active e A). proj.
    rewrite lookup_insert_eq.
    eexists. split; [reflexivity|]. proj.
    rewrite faded_frame. proj. auto.
  - unfold active in A. unfold stop.
    destruct (negb (_playing e) && Nat.eqb (length (sources e)) 0);
      [|discriminate].
    exists e. auto.
Qed.

(** A source that has been started and not stopped. *)
Definition sounding (n : AudioNode) : bool :=
  match n with
  | OscillatorNode _ _ Started | AudioBufferSourceNode _ _ Started => true
  | _ => false
  end.

Lemma stop_source_silent (n : AudioNode) : sounding (stop_source n) = false.
Proof. destruct n as [? ? []|? ? []| | |]; reflexivity. Qed.

(** The sources a mode adds are started, whatever engine its body runs on. *)
Lemma new_sources_sound (m : mode) (x : engine) (s : nat) :
  s ∈ session_sources m (length (graph x)) ->
  exists n, graph (construct m x) !! s = Some n /\ sounding n = true.
Proof.
  intros Hs. destruct (construct_built m x) as [HG _]. rewrite HG.
  destruct m; cbn [session_sources added] in *;
    unfold four_tones, ratios in *; cbn [flat_map app] in *;
    repeat (apply elem_of_cons in Hs as [->|Hs];
            [rewrite lookup_app_r by lia;
             match goal with
             | |- context [(?a + ?k - ?a)%nat] =>
                 replace (a + k - a)%nat with k by lia
             | |- context [(?a - ?a)%nat] => rewrite Nat.sub_diag
             end;
             eexists; split; [reflexivity|reflexivity]|]);
    now apply elem_of_nil in Hs.
Qed.

(** X13. It is the awaited [stop()] that ends a session, not the body that
    follows.  When nothing runs between the two, a [play*] call replaces
    the session: [sources] and [nodes] hold exactly the handles of the nodes
    it has just created, each new source has been started, the nodes that
    were in the store are still there, and every source of the session
    before has been stopped.  A body that finds a session adds to it: if a
    second body runs next (its own [stop()] had resolved before the first
    body ran, as with two [play*] calls made one after the other), the
    sources of both sessions are in [sources] and all of them sound.  So
    [playTone(440)] and [playTone(880)] called back to back on a fresh
    engine leave both oscillators playing. *)
Theorem uninterrupted_play_replaces_session (m : mode) (e : engine) :
  let e0 := await_stop e in
  let e1 := construct m e0 in
  let L := length (graph e) in
  sources e1 = session_sources m L /\
  nodes e1 = session_nodes m L /\
  _playing e1 = true /\
  length (graph e1) = (L + length (added m e0))%nat /\
  (forall s, s ∈ session_sources m L ++ session_nodes m L ->
             (L <= s < length (graph e1))%nat) /\
  (forall s, s ∈ sources e1 ->
             exists n, graph e1 !! s = Some n /\ sounding n = true) /\
  (forall n, (n < L)%nat ->
             graph e1 !! n
             = if decide (n ∈ sources e) then stop_source <$> graph e !! n
               else graph e !! n) /\
  (forall s n, s ∈ sources e -> graph e1 !! s = Some n -> (s < L)%nat ->
               sounding n = false) /\
  (forall m2 : mode,
     let e2 := construct m2 e1 in
     sources e2
     = session_sources m L ++ session_sources m2 (length (graph e1)) /\
     forall s, s ∈ sources e2 ->
               exists n, graph e2 !! s = Some n /\ sounding n = true) /\
  (exists e',
     run 0 [Call_stop; Call_stop; Resume (Tone 440 sine); Resume (Tone 880 sine)]
       (new_engine toy_device alternating) = Done e' /\
     sources e' = [0; 1]%nat /\
     graph e' = [OscillatorNode sine (param 440) Started;
                 OscillatorNode sine (param 880) Started]).
Proof.
  intros e0 e1 L.
  destruct (await_stop_is_cleanup e) as (x & Hx & Gx & Sx & Nx).
  destruct (cleanup_idle x) as (C1 & C2 & _).
  assert (G0 : forall n, graph e0 !! n
                         = if decide (n ∈ sources e) then stop_source <$> graph e !! n
                           else graph e !! n).
  { intros n. unfold e0. rewrite Hx, cleanup_explicit. proj.
    rewrite stopped_lookup, Gx, Sx. reflexivity. }
  assert (L0 : length (graph e0) = L).
  { unfold e0. rewrite Hx.
    destruct (cleanup_shape x) as (G & W & T & -> & HG & _). proj.
    now rewrite HG, Gx. }
  assert (S0 : sources e0 = [] /\ nodes e0 = []).
  { unfold e0. rewrite Hx. auto. }
  destruct S0 as [S0 N0].
  destruct (construct_session m e0) as [HS HN].
  destruct (construct_built m e0) as [HG HP].
  assert (HN1 : forall s, s ∈ session_sources m L ->
                  exists n, graph (construct m e0) !! s = Some n /\ sounding n = true).
  { intros s Hs. apply new_sources_sound. now rewrite L0. }
  fold e1 in HS, HN, HG, HP, HN1. rewrite S0, L0 in HS. rewrite N0, L0 in HN.
  cbn [app] in HS, HN.
  clearbody e1. clearbody e0.
  assert (HL : length (graph e1) = (L + length (added m e0))%nat).
  { now rewrite HG, length_app, L0. }
  assert (Hold : forall n, (n < L)%nat -> graph e1 !! n = graph e0 !! n).
  { intros n Hn. rewrite HG. apply lookup_app_l. lia. }
  assert (Hsound : forall s, s ∈ sources e1 ->
                     exists n, graph e1 !! s = Some n /\ sounding n = true).
  { intros s Hs. rewrite HS in Hs. now apply HN1. }
  split; [exact HS|]. split; [exact HN|]. split; [exact HP|].
  split; [exact HL|].
  split; [|split; [exact Hsound|split; [|split; [|split]]]].
  - intros s Hs. rewrite HL.
    destruct m; cbn [session_sources session_nodes added] in *;
      unfold four_tones, ratios in *; cbn [length app flat_map] in *;
      try (destruct (truthy centerFreq); cbn [length app] in * );
      repeat (apply elem_of_cons in Hs as [->|Hs]; [lia|]);
      now apply elem_of_nil in Hs.
  - intros n Hn. rewrite (Hold n Hn). apply G0.
  - intros s n Hs Hn Hlt. rewrite (Hold s Hlt), G0, decide_True in Hn by exact Hs.
    destruct (graph e !! s) as [n0|]; [|discriminate].
    cbn in Hn. injection Hn as <-. apply stop_source_silent.
  - intros m2 e2.
    destruct (construct_session m2 e1) as [HS2 _].
    destruct (construct_built m2 e1) as [HG2 _].
    fold e2 in HS2, HG2. rewrite HS in HS2.
    split; [exact HS2|].
    intros s Hs. rewrite HS2 in Hs. apply elem_of_app in Hs as [Hs|Hs].
    + rewrite <- HS in Hs. destruct (Hsound s Hs) as (n & Hn & Hsn).
      exists n. split; [|exact Hsn]. rewrite HG2.
      rewrite lookup_app_l; [exact Hn|]. eapply lookup_lt_Some, Hn.
    + apply new_sources_sound, Hs.
  - eexists. split; [vm_compute; reflexivity|]. split; reflexivity.
Qed.

End OneSession.

(** ** Live filter updates *)

Section FilterUpdates.

Local Open Scope float_scope.

Lemma fold_alter_id {A} (h : A -> A) (l : list nat) :
  forall g : list A,
    (forall n x, n ∈ l -> g !! n = Some x -> h x = x) ->
    fold_left (λ g s, alter h s g) l g = g.
Proof.
  induction l as [|s l IH]; intros g H; cbn [fold_left]; [reflexivity|].
  assert (Hs : alter h s g = g).
  { apply list_eq. intros n. destruct (decide (n = s)) as [->|Hne].
    - rewrite list_lookup_alter_eq. destruct (g !! s) as [x|] eqn:Hx; [|reflexivity].
      cbn. f_equal. apply (H s x); [apply list_elem_of_here|exact Hx].
    - now apply list_lookup_alter_ne. }
  rewrite Hs. apply IH. intros n x Hn. apply H. now apply list_elem_of_further.
Qed.

(** X14. [updateFilterFrequency(freq)] schedules [clampFreq(freq)], at the
    current time, on the frequency of every intermediate node that is a
    biquad filter, and touches nothing else: no source, no node that is not
    in [nodes], no other field of the engine.  With no filter among the
    intermediate nodes (every mode but the two noise modes) the call
    changes nothing at all; after [playNotchedNoise] it retunes the notch
    and leaves its Q and the noise source alone. *)
Theorem updateFilterFrequency_every_filter (freq : float) (e : engine)
    (c : AudioContext) :
  ctx e = Some c ->
  NoDup (nodes e) ->
  let F := clampFreq freq in
  let t := currentTime e in
  let e' := updateFilterFrequency freq e in
  (forall n : nat,
     graph e' !! n
     = if decide (n ∈ nodes e)
       then filter_setFrequency F t <$> graph e !! n
       else graph e !! n) /\
  e' = set_graph (graph e') e /\
  ((forall n ty fr q, n ∈ nodes e ->
                      graph e !! n <> Some (BiquadFilterNode ty fr q)) ->
   e' = e) /\
  (forall f0 q0 col e0,
     nodes e0 = [] ->
     exists b,
       graph (updateFilterFrequency freq (playNotchedNoise_body f0 q0 col e0))
       = graph e0 ++
         [AudioBufferSourceNode (Some b) true Started;
          BiquadFilterNode notch
            (schedule (SetValueAtTime F (currentTime e0)) (param (clampFreq f0)))
            (param (default 6 q0))]).
Proof.
  intros Hc Hd F t e'.
  assert (He : e' = set_graph
                      (fold_left (λ g s, alter (filter_setFrequency F t) s g)
                         (nodes e) (graph e)) e).
  { subst e'. unfold updateFilterFrequency. rewrite Hc. apply updateFilter_fold. }
  split; [|split; [|split]].
  - intros n. rewrite He. proj. now apply fold_alter_lookup.
  - rewrite He. reflexivity.
  - intros H. rewrite He. rewrite fold_alter_id; [now destruct e|].
    intros n x Hn Hx. destruct x; try reflexivity.
    now destruct (H n type frequency Q Hn).
  - intros f0 q0 col e0 H0. subst F. exists (buffer_ref (default pink col) e0).
    open_engine e0; proj_in H0; subst; noise_body; lists; reflexivity.
Qed.

Lemma updateFilterFrequency_every_filter_witness :
  let e := construct (Noise white (Some 1000) None)
             (new_engine toy_device alternating) in
  graph (updateFilterFrequency 30000 e) !! 1%nat
  = Some (BiquadFilterNode bandpass
            {| value := 1000; events := [SetValueAtTime 20000 0] |} (param 1)).
Proof.
  intros e.
  assert (Hc : ctx e = Some {| sampleRate := 4; suspended := false; closed := false |})
    by reflexivity.
  assert (Hd : NoDup (nodes e)).
  { change (nodes e) with [1%nat]. apply NoDup_singleton. }
  rewrite (proj1 (updateFilterFrequency_every_filter 30000 e _ Hc Hd) 1%nat).
  reflexivity.
Defined.

End FilterUpdates.

(** ** The wiring of each mode *)

Section Wiring.

Local Open Scope float_scope.

(** The wires a mode adds for a store that held [L] nodes before: those it
    makes before its last call of [master()], and those after. *)
Definition session_wires (m : mode) (L : nat)
    : list connection * list connection :=
  match m with
  | Tone _ _ | ResidualInhibition _ _ => ([], [cable (Node L) MasterGain])
  | Noise _ cf _ =>
      ([], if truthy cf
           then [cable (Node L) (Node (L + 1)); cable (Node (L + 1)) MasterGain]
           else [cable (Node L) MasterGain])
  | NotchedNoise _ _ _ =>
      ([], [cable (Node L) (Node (L + 1)); cable (Node (L + 1)) MasterGain])
  | CoordinatedReset _ _ =>
      ([cable (Node L) (Node (L + 1)); cable (Node (L + 1)) MasterGain;
        cable (Node (L + 2)) (Node (L + 3)); cable (Node (L + 3)) MasterGain;
        cable (Node (L + 4)) (Node (L + 5)); cable (Node (L + 5)) MasterGain;
        cable (Node (L + 6)) (Node (L + 7))],
       [cable (Node (L + 7)) MasterGain])
  | AM _ _ _ =>
      ([cable (Node (L + 1)) (Node (L + 2));
        cable (Node (L + 2)) (Gain_of (L + 3));
        cable (Node L) (Node (L + 3))],
       [cable (Node (L + 3)) MasterGain])
  | Binaural _ _ =>
      ([{| from := Node (L + 1); output := 0; to := Node L; input := 0 |};
        {| from := Node (L + 2); output := 0; to := Node L; input := 1 |}],
       [cable (Node L) MasterGain])
  | PhaseCancellation _ =>
      ([cable (Node L) (Node (L + 1))], [cable (Node (L + 1)) MasterGain])
  end%nat.

(** X15. How each mode is wired.  A mode keeps the wires that do not leave
    the master chain, rebuilds the chain, and adds its own wires: a tone
    goes straight to the master gain; noise goes through its filter when
    it has one; each of the four coordinated-reset oscillators goes through
    its own gain node; the AM modulator drives, through its depth gain, the
    gain parameter of the node the carrier passes through; the binaural
    oscillators enter inputs 0 and 1 of the merger; the phase-cancellation
    oscillator reaches the master gain through the inverting gain only. *)
Theorem session_wiring (m : mode) (e : engine) :
  let L := length (graph e) in
  wires (construct m e)
  = unchained (wires e) ++ fst (session_wires m L) ++ chain
    ++ snd (session_wires m L).
Proof.
  intros L. subst L. destruct m; cbn [session_wires fst snd]; unfold cable.
  - open_engine e; compute_body; lists; unchain.
  - destruct (truthy centerFreq) eqn:Ht;
      open_engine e; noise_body; rewrite ?Ht; compute_body; lists; unchain.
  - open_engine e; noise_body; lists; unchain.
  - cbn [construct]. unfold playCoordinatedReset_build.
    open_engine e; compute_body; lists; unchain.
  - open_engine e; compute_body; lists; unchain.
  - open_engine e; compute_body; lists; unchain.
  - open_engine e; compute_body; lists; unchain.
  - open_engine e; compute_body; lists; unchain.
Qed.

End Wiring.

(** ** The frequency clamp on and off the band *)

Section ClampBand.

Local Open Scope float_scope.

Lemma Prim2SF_nan (x : float) : is_nan x = true -> Prim2SF x = S754_nan.
Proof. intros H. unfold Prim2SF. now rewrite H. Qed.

Lemma ltb_nan_l (x c : float) : is_nan x = true -> (x <? c) = false.
Proof. intros H. rewrite ltb_spec, (Prim2SF_nan x H). reflexivity. Qed.

Lemma ltb_nan_right (x c : float) : is_nan x = true -> (c <? x) = false.
Proof.
  intros H. rewrite ltb_spec, (Prim2SF_nan x H). unfold SFltb.
  now destruct (Prim2SF c).
Qed.

(** Below the lower bound is below the upper bound. *)
Lemma below_min_below_max (f : float) :
  (f <? MIN_FREQ) = true -> (f <? MAX_FREQ) = true.
Proof.
  rewrite !ltb_spec. unfold SFltb.
  change (Prim2SF MIN_FREQ) with (S754_finite false 5629499534213120 (-48)).
  change (Prim2SF MAX_FREQ) with (S754_finite false 5497558138880000 (-38)).
  destruct (Prim2SF f) as [s|s| |s m e]; cbn [SFcompare];
    try (destruct s; congruence); try congruence.
  destruct s; [reflexivity|].
  destruct (Z.compare_spec e (-48)) as [->|H|H].
  - reflexivity.
  - intros _. destruct (Z.compare_spec e (-38)); try lia; reflexivity.
  - discriminate.
Qed.

Lemma Math_min_MAX (f : float) :
  (Math_min f MAX_FREQ = nan /\ is_nan f = true) \/
  (Math_min f MAX_FREQ = f /\ (f <? MAX_FREQ) = true /\ is_nan f = false) \/
  (Math_min f MAX_FREQ = MAX_FREQ /\ (f <? MAX_FREQ) = false /\ is_nan f = false).
Proof.
  unfold Math_min. destruct (is_nan f) eqn:Hn; [left; auto|]. right.
  change (is_nan MAX_FREQ) with false. cbn [orb].
  destruct (f <? MAX_FREQ) eqn:Hlt; [left; auto|]. right.
  destruct (MAX_FREQ <? f); [auto|].
  destruct (classify f) eqn:Hc; auto.
  exfalso. rewrite classify_spec in Hc. rewrite ltb_spec in Hlt.
  unfold SF64classify, SFclassify in Hc.
  destruct (Prim2SF f) as [[]|[]| |[] m e]; try discriminate Hc;
    try (discriminate Hlt);
    repeat match type of Hc with
           | (if ?b then _ else _) = _ => destruct b
           end; discriminate Hc.
Qed.

Lemma Math_max_MIN (y : float) :
  is_nan y = false ->
  Math_max MIN_FREQ y = if y <? MIN_FREQ then MIN_FREQ else y.
Proof.
  intros Hn. unfold Math_max. change (is_nan MIN_FREQ) with false.
  rewrite Hn. cbn [orb].
  destruct (MIN_FREQ <? y) eqn:H1.
  - now rewrite (ltb_asym _ _ H1).
  - destruct (y <? MIN_FREQ); reflexivity.
Qed.

(** X16. The frequency clamp saturates: a frequency in the band
    [[MIN_FREQ, MAX_FREQ]] passes unchanged, one below the band becomes
    [MIN_FREQ], one above becomes [MAX_FREQ], NaN stays NaN; clamping
    twice is clamping once. *)
Theorem clampFreq_saturates (f : float) :
  ((MIN_FREQ <=? f) = true -> (f <? MAX_FREQ) = true -> clampFreq f = f) /\
  clampFreq MAX_FREQ = MAX_FREQ /\
  ((f <? MIN_FREQ) = true -> clampFreq f = MIN_FREQ) /\
  ((MAX_FREQ <? f) = true -> clampFreq f = MAX_FREQ) /\
  (is_nan f = true -> clampFreq f = nan) /\
  clampFreq (clampFreq f) = clampFreq f.
Proof.
  assert (In : (MIN_FREQ <=? f) = true -> (f <? MAX_FREQ) = true ->
               clampFreq f = f).
  { intros H1 H2. unfold clampFreq.
    destruct (Math_min_MAX f) as [[_ Hn]|[(-> & _ & Hn)|(_ & H & _)]].
    - now rewrite (ltb_nan_l f _ Hn) in H2.
    - rewrite (Math_max_MIN f Hn). now rewrite (leb_nltb _ _ H1).
    - congruence. }
  split; [exact In|]. split; [reflexivity|].
  split; [|split; [|split]].
  - intros H. unfold clampFreq.
    pose proof (below_min_below_max f H) as H2.
    destruct (Math_min_MAX f) as [[_ Hn]|[(-> & _ & Hn)|(_ & H' & _)]].
    + now rewrite (ltb_nan_l f _ Hn) in H.
    + rewrite (Math_max_MIN f Hn). now rewrite H.
    + congruence.
  - intros H. unfold clampFreq.
    destruct (Math_min_MAX f) as [[_ Hn]|[(_ & H' & _)|(-> & _ & _)]].
    + now rewrite (ltb_nan_right f _ Hn) in H.
    + now rewrite (ltb_asym _ _ H) in H'.
    + reflexivity.
  - intros Hn. unfold clampFreq.
    destruct (Math_min_MAX f) as [[-> _]|[(_ & _ & H)|(_ & _ & H)]];
      [reflexivity|congruence|congruence].
  - assert (C : clampFreq f = nan \/ clampFreq f = MIN_FREQ \/
                clampFreq f = MAX_FREQ \/ clampFreq f = f).
    { unfold clampFreq.
      destruct (Math_min_MAX f) as [[-> _]|[(-> & H2 & Hn)|(-> & _ & _)]];
        [left; reflexivity| |right; right; left; reflexivity].
      rewrite (Math_max_MIN f Hn). destruct (f <? MIN_FREQ); auto. }
    destruct C as [C|[C|[C|C]]]; rewrite C; try reflexivity. exact C.
Qed.

End ClampBand.
